(** * The staged pass pipeline of dpcomp (src/dpcomp/src/compiler/compiler.cpp)

    A shallow embedding of [PassManagerStage], [PassManagerSchedule] and
    [CompilerContextImpl], and the properties of the stage-to-stage
    executor, of the construction of a schedule from a pipeline
    description, and of the aggregated failure report.

    Conventions of the embedding.
    - A [PassManagerStage *] is the index of the stage in the array
      [stages] of the schedule ([StageId]); [nullptr] is [None].  The
      [unique_ptr] moved from [stages_temp] into [stages] keeps the address
      of the stage, so the position at which a stage was pushed is its
      identity for the whole life of the schedule.
    - An [mlir::StringAttr] is uniqued in the MLIR context: its [==] is
      equality of the character contents, hence a [string].  A nullable
      [mlir::ArrayAttr] of such attributes is an [option (list StringAttr)].
    - An [llvm::StringRef] is a pointer to character data and a length; the
      characters are read from a [Memory].
    - [assert] is modelled as compiled in: a failed assertion aborts.
    - The passes of a stage are opaque: [pm.run] is a function from the
      module to a result, the mutated module and the diagnostics emitted. *)

From Stdlib Require Import Ascii String.
From stdpp Require Import gmap strings list sorting.

Set Default Proof Using "Type".

(** ** MLIR values *)

(** [mlir::LogicalResult]. *)
Inductive LogicalResult := success | failure.

Definition failed (r : LogicalResult) : bool :=
  match r with failure => true | success => false end.

Definition StringAttr := string.

Definition StageId := nat.

(** [mlir::DiagnosticSeverity] and [mlir::Diagnostic]: a severity, the
    message the stream operator prints, and the attached notes. *)
Inductive DiagnosticSeverity := Note | Warning | Error | Remark.

#[warnings="-register-all"]
Inductive Diagnostic :=
  MkDiagnostic (sev : DiagnosticSeverity) (msg : string) (notes : list Diagnostic).

Definition getSeverity (d : Diagnostic) : DiagnosticSeverity :=
  match d with MkDiagnostic s _ _ => s end.

Definition diag_str (d : Diagnostic) : string :=
  match d with MkDiagnostic _ m _ => m end.

Definition getNotes (d : Diagnostic) : list Diagnostic :=
  match d with MkDiagnostic _ _ ns => ns end.

Definition is_error (s : DiagnosticSeverity) : bool :=
  match s with Error => true | _ => false end.

(** ** Strings in memory: [llvm::StringRef] *)

Definition Memory : Type := N → ascii.

Record StringRef := { data : N; length_ : nat }.

Definition StringRef_empty (s : StringRef) : bool := Nat.eqb (length_ s) 0.

Fixpoint read_chars (mem : Memory) (p : N) (n : nat) : string :=
  match n with
  | O => EmptyString
  | S k => String (mem p) (read_chars mem (N.succ p) k)
  end.

(** The characters a [StringRef] denotes. *)
Definition StringRef_str (mem : Memory) (s : StringRef) : string :=
  read_chars mem (data s) (length_ s).

Fixpoint string_drop (n : nat) (s : string) : string :=
  match n, s with
  | S k, String _ s' => string_drop k s'
  | _, _ => s
  end.

(** [StringRef::consume_front]: drops [prefix] when the string starts with it. *)
Definition consume_front (prefix s : string) : string :=
  if String.prefix prefix s then string_drop (String.length prefix) s else s.

(** The line feed the report is assembled with. *)
Definition LF : string := String "010" EmptyString.

(** ** Outcomes

    A computation of the source either returns, aborts on the [assert] of
    the given source line, or has no defined behaviour (an access outside an
    array, a dangling stage). *)
Inductive Exec (A : Type) :=
  | Ok (a : A)
  | AssertionFailed (line : nat)
  | Undefined.
Arguments Ok {A} a.
Arguments AssertionFailed {A} line.
Arguments Undefined {A}.

#[export] Instance Exec_ret : MRet Exec := λ A a, Ok a.
#[export] Instance Exec_bind : MBind Exec := λ A B f m,
  match m with
  | Ok a => f a
  | AssertionFailed l => AssertionFailed l
  | Undefined => Undefined
  end.

Definition assert_ (line : nat) (cond : bool) : Exec unit :=
  if cond then Ok tt else AssertionFailed line.

Section Pipeline.

(** The operations of the module other than the marker attribute. *)
Context {Body : Type}.

(** ** The module and its marker channel *)

Record ModuleOp := {
  jump_markers : option (list StringAttr);
  body : Body;
}.

(** Modelled from the spec: [plier::get_pipeline_jump_markers] of
    plier/transforms/pipeline_utils, which is not among the sources.  It
    reads the marker names present on the module's root node; the attribute
    is absent ([None]) when no marker list was ever attached. *)
Definition get_pipeline_jump_markers (module : ModuleOp) : option (list StringAttr) :=
  jump_markers module.

(** Modelled from the spec: [plier::remove_pipeline_jump_marker] of
    plier/transforms/pipeline_utils, which is not among the sources.  The
    channel maps a marker name to its presence; clearing a name makes it
    absent and leaves every other name as it was. *)
Definition remove_pipeline_jump_marker (module : ModuleOp) (name : StringAttr) : ModuleOp :=
  {| jump_markers := filter (λ n, n ≠ name) <$> jump_markers module;
     body := body module |}.

(** A marker is active when it occurs in the attribute. *)
Definition marker_active (module : ModuleOp) (name : StringAttr) : Prop :=
  ∃ ns, get_pipeline_jump_markers module = Some ns ∧ name ∈ ns.

(** ** Settings and the pass manager *)

(** [llvm::raw_ostream *]. *)
Definition raw_ostream := N.

Record IRPrintingSettings := {
  printBefore : list string;
  printAfter : list string;
  out : raw_ostream;
}.

(** [plier::CompilerContext::Settings]: the structure is declared in
    plier/compiler/compiler.hpp; these are the fields the constructor of a
    stage reads, [irPrinting] being optional and [out] a pointer. *)
Record Settings := {
  verify : bool;
  passStatistics : bool;
  passTimings : bool;
  irDumpStderr : bool;
  irPrinting : option IRPrintingSettings;
}.

(** The local [struct Checker] of the stage constructor. *)
Record Checker := { names : list string }.

Definition Checker_call (c : Checker) (pass_name : string) : bool :=
  let name := pass_name in
  let name := consume_front "`anonymous-namespace'::" name in
  let name := consume_front "{anonymous}::" name in
  bool_decide (name ∈ names c).

(** One call of [PassManager::enableIRPrinting]: with the default arguments,
    or with the six arguments the constructor passes. *)
Inductive IRPrinting :=
  | IRPrintingDefault
  | IRPrintingConfig (shouldPrintBefore shouldPrintAfter : Checker)
      (printModuleScope printAfterOnlyOnChange printAfterOnlyOnFailure : bool)
      (os : raw_ostream).

(** What a run of the passes of a stage yields. *)
Definition PassRun : Type := ModuleOp → LogicalResult * ModuleOp * list Diagnostic.

(** [mlir::PassManager]: the configuration calls received, in order, and the
    passes, opaque. *)
Record PassManager := {
  pm_verifier : bool;
  pm_statistics : bool;
  pm_timing : bool;
  pm_ir_printing : list IRPrinting;
  pm_run : PassRun;
}.

(** [mlir::MLIRContext], as far as the constructor touches it. *)
Record MLIRContext := { multithreading : bool }.

Definition disableMultithreading (ctx : MLIRContext) : MLIRContext :=
  {| multithreading := false |}.

(** ** PassManagerStage *)

Record PassManagerStage := {
  pm : PassManager;
  jumps : list (StringAttr * StageId);
  next_stage : option StageId;
}.

(** The inner loop of [get_jump]: [for (auto name : names)]. *)
Fixpoint get_jump_names (it : StringAttr * StageId) (names : list StringAttr)
    : option (StageId * StringAttr) :=
  match names with
  | [] => None
  | str :: rest =>
      if bool_decide (it.1 = str) then Some (it.2, str) else get_jump_names it rest
  end.

(** The outer loop of [get_jump]: [for (auto &it : jumps)]. *)
Fixpoint get_jump_jumps (jumps : list (StringAttr * StageId)) (names : list StringAttr)
    : option StageId * option StringAttr :=
  match jumps with
  | [] => (None, None)
  | it :: rest =>
      match get_jump_names it names with
      | Some (target, str) => (Some target, Some str)
      | None => get_jump_jumps rest names
      end
  end.

Definition get_jump (st : PassManagerStage) (names : option (list StringAttr))
    : option StageId * option StringAttr :=
  match names with
  | Some names => get_jump_jumps (jumps st) names
  | None => (None, None)
  end.

Definition get_next_stage (st : PassManagerStage) : option StageId := next_stage st.

Definition Stage_run (st : PassManagerStage) (op : ModuleOp)
    : LogicalResult * ModuleOp * list Diagnostic :=
  pm_run (pm st) op.

(** *** The constructor of a stage (lines 36-74) *)

(** [pm(&ctx)]: a pass manager with no pass; MLIR's verifier is on until
    [enableVerifier] says otherwise. *)
Definition PassManager_new : PassManager :=
  {| pm_verifier := true; pm_statistics := false; pm_timing := false;
     pm_ir_printing := []; pm_run := λ op, (success, op, []) |}.

Definition enableVerifier (p : PassManager) (enabled : bool) : PassManager :=
  {| pm_verifier := enabled; pm_statistics := pm_statistics p;
     pm_timing := pm_timing p; pm_ir_printing := pm_ir_printing p;
     pm_run := pm_run p |}.

Definition enableStatistics (p : PassManager) : PassManager :=
  {| pm_verifier := pm_verifier p; pm_statistics := true;
     pm_timing := pm_timing p; pm_ir_printing := pm_ir_printing p;
     pm_run := pm_run p |}.

Definition enableTiming (p : PassManager) : PassManager :=
  {| pm_verifier := pm_verifier p; pm_statistics := pm_statistics p;
     pm_timing := true; pm_ir_printing := pm_ir_printing p;
     pm_run := pm_run p |}.

Definition enableIRPrinting (p : PassManager) (config : IRPrinting) : PassManager :=
  {| pm_verifier := pm_verifier p; pm_statistics := pm_statistics p;
     pm_timing := pm_timing p; pm_ir_printing := pm_ir_printing p ++ [config];
     pm_run := pm_run p |}.

(** Whether a call of [enableIRPrinting] has the IR printed before, and
    after, the pass of the name [pass_name].  The call of line 65 passes the
    two checkers.  The call of line 50 passes nothing, and the default
    arguments that [mlir::PassManager] declares for the two predicates hold
    of every pass. *)
Definition shouldPrintBeforePass (config : IRPrinting) (pass_name : string) : bool :=
  match config with
  | IRPrintingDefault => true
  | IRPrintingConfig shouldPrintBefore _ _ _ _ _ =>
      Checker_call shouldPrintBefore pass_name
  end.

Definition shouldPrintAfterPass (config : IRPrinting) (pass_name : string) : bool :=
  match config with
  | IRPrintingDefault => true
  | IRPrintingConfig _ shouldPrintAfter _ _ _ _ =>
      Checker_call shouldPrintAfter pass_name
  end.

(** Every call of [enableIRPrinting] adds a printer of its own to the pass
    manager: the IR is printed before a pass, and after it, when one of the
    printers says so. *)
Definition prints_before (p : PassManager) (pass_name : string) : bool :=
  existsb (λ config, shouldPrintBeforePass config pass_name) (pm_ir_printing p).

Definition prints_after (p : PassManager) (pass_name : string) : bool :=
  existsb (λ config, shouldPrintAfterPass config pass_name) (pm_ir_printing p).

(** The pass manager as it is handed to [init_func], and the context as the
    constructor leaves it. *)
Definition configure (ctx : MLIRContext) (settings : Settings)
    : MLIRContext * PassManager :=
  let p := PassManager_new in
  let p := enableVerifier p (verify settings) in
  let p := if passStatistics settings then enableStatistics p else p in
  let p := if passTimings settings then enableTiming p else p in
  let '(ctx, p) :=
    if irDumpStderr settings
    then (disableMultithreading ctx, enableIRPrinting p IRPrintingDefault)
    else (ctx, p) in
  let '(ctx, p) :=
    match irPrinting settings with
    | Some printing =>
        (disableMultithreading ctx,
         enableIRPrinting p
           (IRPrintingConfig {| names := printBefore printing |}
                             {| names := printAfter printing |}
                             true true false (out printing)))
    | None => (ctx, p)
    end in
  (ctx, p).

(** The constructor; [init_func(pm)] fills the pass manager it is handed. *)
Definition PassManagerStage_new (ctx : MLIRContext) (settings : Settings)
    (init_func : PassManager → PassManager) : MLIRContext * PassManagerStage :=
  let '(ctx, p) := configure ctx settings in
  let p := init_func p in
  (ctx, {| pm := p; jumps := []; next_stage := None |}).

Definition add_jump (st : PassManagerStage) (name : StringAttr) (stage : StageId)
    : Exec PassManagerStage :=
  assert_ 77 (negb (bool_decide (name = EmptyString)));;
  mret {| pm := pm st; jumps := jumps st ++ [(name, stage)];
          next_stage := next_stage st |}.

Definition set_next_stage (st : PassManagerStage) (stage : StageId)
    : Exec PassManagerStage :=
  assert_ 98 (bool_decide (next_stage st = None));;
  mret {| pm := pm st; jumps := jumps st; next_stage := Some stage |}.

(** ** PassManagerSchedule: construction (lines 114-164) *)

Record StageDesc := {
  desc_name : StringRef;
  desc_jumps : list StringRef;
  desc_stage : PassManagerStage;
}.

(** The locals of the constructor's lambda, and the context it configures. *)
Record Building := {
  ctx : MLIRContext;
  stages_temp : list StageDesc;
  stages_map : gmap N StageId;
}.

(** A call through a stage pointer held in [stages_temp]. *)
Definition with_stage (temp : list StageDesc) (p : StageId)
    (f : PassManagerStage → Exec PassManagerStage) : Exec (list StageDesc) :=
  match temp !! p with
  | Some d =>
      st ← f (desc_stage d);
      mret (<[p := {| desc_name := desc_name d; desc_jumps := desc_jumps d;
                      desc_stage := st |}]> temp)
  | None => Undefined
  end.

(** [stages_temp.back().stage.get()]. *)
Definition back_stage (temp : list StageDesc) : StageId := length temp - 1.

Definition add_stage (settings : Settings) (b : Building) (name : StringRef)
    (jumps : list StringRef) (pm_init_func : PassManager → PassManager)
    : Exec Building :=
  assert_ 131 (negb (StringRef_empty name));;
  let prev_stage :=
    if bool_decide (size (stages_map b) = 0) then None
    else Some (back_stage (stages_temp b)) in
  let '(ctx, stage) := PassManagerStage_new (ctx b) settings pm_init_func in
  let temp := stages_temp b ++
    [{| desc_name := name; desc_jumps := jumps; desc_stage := stage |}] in
  assert_ 137 (bool_decide (stages_map b !! data name = None));;
  let map := <[data name := back_stage temp]> (stages_map b) in
  temp ← match prev_stage with
         | Some prev => with_stage temp prev (λ st, set_next_stage st (back_stage temp))
         | None => mret temp
         end;
  mret {| ctx := ctx; stages_temp := temp; stages_map := map |}.

(** One entry of the pipeline description. *)
Record StageInfo := {
  info_name : StringRef;
  info_jumps : list StringRef;
  info_init : PassManager → PassManager;
}.

(** Modelled from the spec: [PipelineRegistry::populate_pass_manager] of
    plier/compiler/pipeline_registry, which is not among the sources.  The
    description is an ordered sequence of stage descriptors, and the sink
    hands each of them, in order, to [add_stage]. *)
Fixpoint populate_pass_manager (registry : list StageInfo)
    (add_stage : Building → StringRef → list StringRef →
                 (PassManager → PassManager) → Exec Building)
    (b : Building) : Exec Building :=
  match registry with
  | [] => mret b
  | d :: rest =>
      b ← add_stage b (info_name d) (info_jumps d) (info_init d);
      populate_pass_manager rest add_stage b
  end.

(** The body of [for (auto jump : stage.jumps)] (lines 148-153). *)
Definition resolve_jump (mem : Memory) (map : gmap N StageId)
    (st : PassManagerStage) (jump : StringRef) : Exec PassManagerStage :=
  assert_ 148 (negb (StringRef_empty jump));;
  match map !! data jump with
  | None => AssertionFailed 150
  | Some target =>
      let name := StringRef_str mem jump in
      add_jump st name target
  end.

Fixpoint resolve_jumps (mem : Memory) (map : gmap N StageId)
    (st : PassManagerStage) (jumps : list StringRef) : Exec PassManagerStage :=
  match jumps with
  | [] => mret st
  | jump :: rest =>
      st ← resolve_jump mem map st jump;
      resolve_jumps mem map st rest
  end.

(** [for (auto &stage : stages_temp)] (lines 146-155): every stage receives
    its own edges, in the order of the description. *)
Fixpoint wire_jumps (mem : Memory) (map : gmap N StageId) (temp : list StageDesc)
    : Exec (list StageDesc) :=
  match temp with
  | [] => mret []
  | stage :: rest =>
      st ← resolve_jumps mem map (desc_stage stage) (desc_jumps stage);
      rest ← wire_jumps mem map rest;
      mret ({| desc_name := desc_name stage; desc_jumps := desc_jumps stage;
               desc_stage := st |} :: rest)
  end.

Record PassManagerSchedule := { stages : list PassManagerStage }.

Definition PassManagerSchedule_new (mem : Memory) (context : MLIRContext)
    (settings : Settings) (registry : list StageInfo)
    : Exec (MLIRContext * PassManagerSchedule) :=
  let b := {| ctx := context; stages_temp := []; stages_map := ∅ |} in
  b ← populate_pass_manager registry (add_stage settings) b;
  temp ← wire_jumps mem (stages_map b) (stages_temp b);
  mret (ctx b, {| stages := desc_stage <$> temp |}).

(** *** What a description denotes

    The closed forms the construction is compared with: the buffers of the
    stage names, the stage registered for a buffer, the locals after the
    descriptors [done] went through [add_stage], and the wired schedule. *)

Definition buffers (registry : list StageInfo) : list N :=
  (λ d, data (info_name d)) <$> registry.

(** The stage whose name starts at address [p], the first one if several do. *)
Definition stage_of_buffer (registry : list StageInfo) (p : N) : option StageId :=
  fst <$> list_find (λ d, data (info_name d) = p) registry.

Definition default_next (count : nat) (i : StageId) : option StageId :=
  if bool_decide (S i < count) then Some (S i) else None.

(** Whether the settings make the constructor of a stage switch the
    context to serialized execution, and the context it leaves. *)
Definition serializing (settings : Settings) : bool :=
  match irPrinting settings with
  | Some _ => true
  | None => irDumpStderr settings
  end.

Definition configured (context : MLIRContext) (settings : Settings) : MLIRContext :=
  if serializing settings then disableMultithreading context else context.

Definition built (context : MLIRContext) (settings : Settings)
    (done : list StageInfo) : Building :=
  {| ctx := match done with
            | [] => context
            | _ :: _ => configured context settings
            end;
     stages_temp :=
       imap (λ i d,
         {| desc_name := info_name d; desc_jumps := info_jumps d;
            desc_stage :=
              {| pm := info_init d (configure context settings).2; jumps := [];
                 next_stage := default_next (length done) i |} |}) done;
     stages_map := list_to_map (imap (λ i d, (data (info_name d), i)) done) |}.

(** The edges the second loop adds for the jumps [js], and a stage of
    [stages_temp] with them. *)
Definition resolved (mem : Memory) (map : gmap N StageId) (js : list StringRef)
    : list (StringAttr * StageId) :=
  omap (λ j, (λ t, (StringRef_str mem j, t)) <$> map !! data j) js.

Definition with_edges (mem : Memory) (map : gmap N StageId) (sd : StageDesc)
    : StageDesc :=
  {| desc_name := desc_name sd; desc_jumps := desc_jumps sd;
     desc_stage :=
       {| pm := pm (desc_stage sd);
          jumps := jumps (desc_stage sd) ++ resolved mem map (desc_jumps sd);
          next_stage := next_stage (desc_stage sd) |} |}.

Definition edges (mem : Memory) (registry : list StageInfo) (js : list StringRef)
    : list (StringAttr * StageId) :=
  omap (λ j, (λ t, (StringRef_str mem j, t)) <$> stage_of_buffer registry (data j)) js.

Definition wired (mem : Memory) (context : MLIRContext) (settings : Settings)
    (registry : list StageInfo) : PassManagerSchedule :=
  {| stages :=
       imap (λ i d,
         {| pm := info_init d (configure context settings).2;
            jumps := edges mem registry (info_jumps d);
            next_stage := default_next (length registry) i |}) registry |}.

(** The descriptions the constructor accepts: names and jumps are not
    empty, no two stage names start at the same address, and every jump
    starts at the address of some stage name. *)
Definition accepted (registry : list StageInfo) : Prop :=
  (∀ d, d ∈ registry → length_ (info_name d) ≠ 0) ∧
  NoDup (buffers registry) ∧
  (∀ d j, d ∈ registry → j ∈ info_jumps d →
          length_ j ≠ 0 ∧ data j ∈ buffers registry).

(** ** PassManagerSchedule: execution (lines 166-184) *)

(** What the executor does, in order, next to running the passes. *)
Inductive Event :=
  | EvRun (stage : StageId)
  | EvGetMarkers
  | EvRemoveMarker (name : StringAttr)
  | EvGetNextStage.

(** Where the loop stands: about to run [current], returned, or lost. *)
Inductive Control :=
  | At (current : StageId)
  | Returned (result : LogicalResult)
  | Lost.

Record Config := {
  control : Control;
  the_module : ModuleOp;
  events : list Event;
  emitted : list Diagnostic;
}.

(** The body of the [do ... while] and its test. *)
Definition loop_body (s : PassManagerSchedule) (current : StageId) (module : ModuleOp)
    : Control * ModuleOp * list Event * list Diagnostic :=
  match stages s !! current with
  | None => (Lost, module, [], [])
  | Some st =>
      let '(result, module, diags) := Stage_run st module in
      if failed result then (Returned failure, module, [EvRun current], diags)
      else
        let markers := get_pipeline_jump_markers module in
        let jump_target := get_jump st markers in
        match jump_target.1 with
        | Some target =>
            match jump_target.2 with
            | Some name =>
                (At target, remove_pipeline_jump_marker module name,
                 [EvRun current; EvGetMarkers; EvRemoveMarker name], diags)
            | None => (Lost, module, [EvRun current; EvGetMarkers], diags)
            end
        | None =>
            match get_next_stage st with
            | Some next =>
                (At next, module, [EvRun current; EvGetMarkers; EvGetNextStage], diags)
            | None =>
                (Returned success, module,
                 [EvRun current; EvGetMarkers; EvGetNextStage], diags)
            end
        end
  end.

Definition step (s : PassManagerSchedule) (c : Config) : Config :=
  match control c with
  | At current =>
      let '(next, module, evs, diags) := loop_body s current (the_module c) in
      {| control := next; the_module := module;
         events := events c ++ evs; emitted := emitted c ++ diags |}
  | _ => c
  end.

(** [auto current = stages[0].get()]: there is no first element in an
    array of length zero. *)
Definition enter (s : PassManagerSchedule) (module : ModuleOp) : Config :=
  {| control := match stages s !! 0 with Some _ => At 0 | None => Lost end;
     the_module := module; events := []; emitted := [] |}.

(** The configuration after [n] turns of the loop. *)
Definition steps (s : PassManagerSchedule) (n : nat) (c : Config) : Config :=
  Nat.iter n (step s) c.

(** [PassManagerSchedule::run] with [fuel] turns of the loop at most:
    [None] when the loop has not returned by then. *)
Definition Schedule_run (fuel : nat) (s : PassManagerSchedule) (module : ModuleOp)
    : option (Exec LogicalResult * Config) :=
  let c := steps s fuel (enter s module) in
  match control c with
  | At _ => None
  | Returned r => Some (Ok r, c)
  | Lost => Some (Undefined, c)
  end.

(** The run never returns. *)
Definition run_diverges (s : PassManagerSchedule) (module : ModuleOp) : Prop :=
  ∀ fuel, Schedule_run fuel s module = None.

(** The stages run, in order. *)
Definition visited (evs : list Event) : list StageId :=
  omap (λ e, match e with EvRun i => Some i | _ => None end) evs.

(** The module after the passes of [stA] and then of [stB], and the module
    at the start of the turn [k] of a cycle through the two stages that the
    marker closes. *)
Definition after_both (stA stB : PassManagerStage) (module : ModuleOp) : ModuleOp :=
  (Stage_run stB (Stage_run stA module).1.2).1.2.

Definition cycle_entry (stA stB : PassManagerStage) (marker : StringAttr)
    (k : nat) (module : ModuleOp) : ModuleOp :=
  Nat.iter k (λ m, remove_pipeline_jump_marker (after_both stA stB m) marker) module.

(** The marker is on the module that the [k]-th visit of [stB] leaves. *)
Definition marker_asserted (stA stB : PassManagerStage) (marker : StringAttr)
    (module : ModuleOp) (k : nat) : Prop :=
  marker_active (after_both stA stB (cycle_entry stA stB marker k module)) marker.

(** ** CompilerContextImpl::run (lines 198-218) *)

(** [module.print], of MLIR. *)
Context (ModuleOp_print : ModuleOp → string).

(** The lambda [diag_handler], on the text of [err_stream]. *)
Definition diag_handler (err : string) (diag : Diagnostic) : string :=
  if is_error (getSeverity diag)
  then fold_left (λ err note, err +:+ LF +:+ diag_str note)
                 (getNotes diag) (err +:+ diag_str diag)
  else err.

(** Modelled from the spec: [plier::scoped_diag_handler] of plier/utils,
    which is not among the sources.  The handler is installed for the
    duration of the body and receives every diagnostic raised meanwhile, in
    the order they are raised. *)
Definition scoped_diag_handler (handler : string → Diagnostic → string)
    (err : string) (raised : list Diagnostic) : string :=
  fold_left handler raised err.

(** How a call of [CompilerContextImpl::run] ends. *)
Inductive Outcome :=
  | Normal (module : ModuleOp)
  | Fatal (text : string).

(** Modelled from the spec: [plier::report_error] of plier/utils, which is
    not among the sources.  It raises one fatal error that carries the text. *)
Definition report_error (text : string) : Outcome := Fatal text.

Definition CompilerContextImpl_run (fuel : nat) (schedule : PassManagerSchedule)
    (module : ModuleOp) : option (Exec Outcome) :=
  match Schedule_run fuel schedule module with
  | None => None
  | Some (Ok result, c) =>
      let err := scoped_diag_handler diag_handler EmptyString (emitted c) in
      if failed result then
        let err := err +:+ LF in
        let err := err +:+ ModuleOp_print (the_module c) in
        Some (Ok (report_error ("MLIR pipeline failed" +:+ LF +:+ err)))
      else Some (Ok (Normal (the_module c)))
  | Some (AssertionFailed l, _) => Some (AssertionFailed l)
  | Some (Undefined, _) => Some Undefined
  end.

(** The text [part] occurs in [text]. *)
Definition occurs_in (part text : string) : Prop :=
  ∃ before after, text = before +:+ part +:+ after.

End Pipeline.

(** * Sample pipelines

    Concrete descriptions, passes and modules the statements below are
    instantiated at.  The body of a sample module is a counter. *)

(** A memory holding the characters of [s] from address 0 on. *)
Definition memory_of (s : string) : Memory :=
  λ p, default "000"%char (String.get (N.to_nat p) s).

Definition StringRef_at (p : N) (n : nat) : StringRef := {| data := p; length_ := n |}.

Definition plain_settings : Settings :=
  {| verify := true; passStatistics := false; passTimings := false;
     irDumpStderr := false; irPrinting := None |}.

Definition fresh_context : MLIRContext := {| multithreading := true |}.

(** An [init_func] that fills the pass manager with passes behaving as [run]. *)
Definition with_passes {Body : Type} (run : PassRun (Body := Body))
    (p : PassManager (Body := Body)) : PassManager :=
  {| pm_verifier := pm_verifier p; pm_statistics := pm_statistics p;
     pm_timing := pm_timing p; pm_ir_printing := pm_ir_printing p;
     pm_run := run |}.

Definition stage_info (name : StringRef) (jumps : list StringRef)
    (run : PassRun (Body := nat)) : StageInfo :=
  {| info_name := name; info_jumps := jumps; info_init := with_passes run |}.

(** Passes: one that counts its runs, one that fails with an error and a
    note, one that raises a marker while the counter is positive, one that
    raises it always. *)
Definition counting : PassRun (Body := nat) :=
  λ op, (success, {| jump_markers := jump_markers op; body := S (body op) |}, []).

Definition failing : PassRun (Body := nat) :=
  λ op, (failure, {| jump_markers := jump_markers op; body := S (body op) |},
         [MkDiagnostic Warning "unused" [];
          MkDiagnostic Error "cannot lower" [MkDiagnostic Note "see here" []]]).

Definition raising_while_positive (marker : StringAttr) : PassRun (Body := nat) :=
  λ op, match body op with
        | O => (success, op, [])
        | S k => (success, {| jump_markers := Some [marker]; body := k |}, [])
        end.

Definition raising_always (marker : StringAttr) : PassRun (Body := nat) :=
  λ op, (success, {| jump_markers := Some [marker]; body := body op |}, []).

Definition raising_both (first second : StringAttr) : PassRun (Body := nat) :=
  λ op, (success, {| jump_markers := Some [first; second]; body := body op |}, []).

Definition empty_module (n : nat) : ModuleOp :=
  {| jump_markers := None; body := n |}.

(** The text "ABCAB": the name "A" is at address 0 and again at address 3. *)
Definition names_memory : Memory := memory_of "ABCAB".

(** Three stages "A", "B", "C" without jumps. *)
Definition linear_registry : list StageInfo :=
  [stage_info (StringRef_at 0 1) [] counting;
   stage_info (StringRef_at 1 1) [] counting;
   stage_info (StringRef_at 2 1) [] counting].

(** Two stages, both named "A", at the addresses 0 and 3. *)
Definition twin_registry : list StageInfo :=
  [stage_info (StringRef_at 0 1) [] counting;
   stage_info (StringRef_at 3 1) [] counting].

(** A stage named "AB" that declares the jump "A" in the same buffer. *)
Definition prefix_registry : list StageInfo :=
  [stage_info (StringRef_at 0 2) [StringRef_at 0 1] counting].

(** A stage "A" that declares the jump "A" from the other buffer. *)
Definition stray_registry : list StageInfo :=
  [stage_info (StringRef_at 0 1) [StringRef_at 3 1] counting].

(** "A" declares the jumps "C" and "B", in this order, and its passes
    raise both markers, "B" first. *)
Definition fork_registry : list StageInfo :=
  [stage_info (StringRef_at 0 1) [StringRef_at 2 1; StringRef_at 1 1]
              (raising_both "B" "C");
   stage_info (StringRef_at 1 1) [] counting;
   stage_info (StringRef_at 2 1) [] counting].

(** "A", "B", "C" without jumps; the passes of "B" fail. *)
Definition failing_registry : list StageInfo :=
  [stage_info (StringRef_at 0 1) [] counting;
   stage_info (StringRef_at 1 1) [] failing;
   stage_info (StringRef_at 2 1) [] counting].

Definition idle : PassRun (Body := nat) := λ op, (success, op, []).

(** "A" and "B", where "B" declares the jump back to "A" and raises its
    marker at every visit, or while the counter is positive. *)
Definition endless_registry : list StageInfo :=
  [stage_info (StringRef_at 0 1) [] idle;
   stage_info (StringRef_at 1 1) [StringRef_at 0 1] (raising_always "A")].

Definition countdown_registry : list StageInfo :=
  [stage_info (StringRef_at 0 1) [] idle;
   stage_info (StringRef_at 1 1) [StringRef_at 0 1] (raising_while_positive "A")].

(** The two stages of the schedule built from [countdown_registry]. *)
Definition countdown_A : PassManagerStage :=
  {| pm := with_passes idle (configure fresh_context plain_settings).2;
     jumps := []; next_stage := Some 1 |}.

Definition countdown_B : PassManagerStage :=
  {| pm := with_passes (raising_while_positive "A")
                       (configure fresh_context plain_settings).2;
     jumps := [("A", 0)]; next_stage := None |}.

Definition sample_schedule (registry : list (StageInfo (Body := nat)))
    : PassManagerSchedule :=
  wired names_memory fresh_context plain_settings registry.

(** A printer for the sample modules: the counter in unary. *)
Definition print_counter (op : ModuleOp (Body := nat)) : string :=
  "module" +:+ Nat.iter (body op) (String "I") EmptyString.

(** Settings that trace the pass "Lower" to the stream 2. *)
Definition tracing_settings : Settings :=
  {| verify := true; passStatistics := false; passTimings := false;
     irDumpStderr := false;
     irPrinting := Some {| printBefore := ["Lower"]; printAfter := ["Lower"];
                           out := 2%N |} |}.

(** The same settings with the dump to the standard error stream as
    well. *)
Definition dumping_settings : Settings :=
  {| verify := true; passStatistics := false; passTimings := false;
     irDumpStderr := true;
     irPrinting := Some {| printBefore := ["Lower"]; printAfter := ["Lower"];
                           out := 2%N |} |}.

(** The text one error contributes to the report: its message, then each
    of its notes on a line of its own. *)
Definition render_error (d : Diagnostic) : string :=
  diag_str d +:+ String.concat EmptyString ((λ note, LF +:+ diag_str note) <$> getNotes d).


(** A stage that declares the name "A" twice, for two targets. *)
Definition twice_declared : PassManagerStage (Body := nat) :=
  {| pm := PassManager_new; jumps := [("A", 0); ("A", 1)]; next_stage := None |}.

(** * The lowering of XeTile operations
      (src/lib/Conversion/XeTileToXeGPU/XeTileOpConversion.cpp)

    The helpers of the conversion patterns that compute on shapes and
    indices.  An [int64_t] is a [Z]; signed overflow has no defined
    behaviour, and neither has an access outside a vector or an array. *)

Module XeTile.

Local Open Scope Z_scope.

Definition int64_min : Z := - 2 ^ 63.
Definition int64_max : Z := 2 ^ 63 - 1.

(** The result of an [int64_t] operation whose exact value is [z]. *)
Definition int64 (z : Z) : Exec Z :=
  if bool_decide (int64_min ≤ z ≤ int64_max) then Ok z else Undefined.

Definition add64 (a b : Z) : Exec Z := int64 (a + b).
Definition mul64 (a b : Z) : Exec Z := int64 (a * b).

(** [value, value + 1, ...] written over [count] elements from [first] on. *)
Fixpoint iota_fill (mask : list Z) (first count : nat) (value : Z) : list Z :=
  match count with
  | O => mask
  | S count => iota_fill (<[first := value]> mask) (S first) count (value + 1)
  end.

(** [std::iota(mask.begin() + first, mask.begin() + last, value)]. *)
Definition iota (mask : list Z) (first last value : Z) : Exec (list Z) :=
  if bool_decide (0 ≤ first ≤ last ∧ last ≤ Z.of_nat (length mask))
  then Ok (iota_fill mask (Z.to_nat first) (Z.to_nat (last - first)) value)
  else Undefined.

(** The loop of [getMask] (lines 64-72), from the row [i] on, with [count]
    rows to go. *)
Fixpoint getMask_rows (cols1 cols2 size1 : Z) (count : nat) (i : Z) (mask : list Z)
    : Exec (list Z) :=
  match count with
  | O => mret mask
  | S count =>
      width ← add64 cols1 cols2;
      s ← mul64 i width;
      m ← add64 s cols1;
      e ← add64 m cols2;
      v1 ← mul64 i cols1;
      offset ← mul64 i cols2;
      v2 ← add64 size1 offset;
      mask ← iota mask s m v1;
      mask ← iota mask m e v2;
      getMask_rows cols1 cols2 size1 count (i + 1) mask
  end.

(** [getMask] (lines 57-74): the linearized shuffle mask of the horizontal
    merge of a vector of shape [shape1] with one of shape [shape2]. *)
Definition getMask (shape1 shape2 : list Z) : Exec (list Z) :=
  match shape1, shape2 with
  | [rows1; cols1], [rows2; cols2] =>
      assert_ 59 (bool_decide (rows1 = rows2));;
      size1 ← mul64 rows1 cols1;
      size2 ← mul64 rows2 cols2;
      size ← add64 size1 size2;
      if bool_decide (size < 0) then Undefined
      else getMask_rows cols1 cols2 size1 (Z.to_nat rows1) 0
             (replicate (Z.to_nat size) 0)
  | _, _ => AssertionFailed 59
  end.

(** The mask the comment on [concat] describes: row by row, the indices of
    the row in the first vector and then those of the row in the second. *)
Definition row_major_merge (rows cols1 cols2 : Z) : list Z :=
  i ← seqZ 0 rows; seqZ (i * cols1) cols1 ++ seqZ (rows * cols1 + i * cols2) cols2.

(** [vector.shuffle] of MLIR on vectors of rank one: the elements of the
    two operands, in one row, selected by the mask. *)
Definition shuffle {T : Type} (v1 v2 : list T) (mask : list Z) : list (option T) :=
  (λ k, if bool_decide (0 ≤ k) then (v1 ++ v2) !! Z.to_nat k else None) <$> mask.

(** The body of the loop of [transform] (lines 129-133): adjacent values
    are merged in pairs; a single value left at the end is dropped. *)
Fixpoint merge_pairs {V : Type} (merge : V → V → Exec V) (curr : list V)
    : Exec (list V) :=
  match curr with
  | a :: b :: rest =>
      newOp ← merge a b;
      shuffleOps ← merge_pairs merge rest;
      mret (newOp :: shuffleOps)
  | _ => mret []
  end.

(** The lambda [transform] (lines 124-136), with [fuel] turns of the
    [while] at most: [None] when the loop has not ended by then. *)
Fixpoint transform {V : Type} (fuel : nat) (merge : V → V → Exec V)
    (shuffleOps : list V) : option (Exec V) :=
  match fuel with
  | O => None
  | S fuel =>
      if bool_decide (1 < length shuffleOps)%nat then
        let curr := shuffleOps in
        if bool_decide (Nat.modulo (length curr) 2 = 0%nat) then
          match merge_pairs merge curr with
          | Ok shuffleOps => transform fuel merge shuffleOps
          | AssertionFailed line => Some (AssertionFailed line)
          | Undefined => Some Undefined
          end
        else Some (AssertionFailed 128)
      else
        match shuffleOps with
        | first :: _ => Some (Ok first)
        | [] => Some Undefined
        end
  end.

(** What [merge_pairs] yields for a merge that always succeeds. *)
Fixpoint pairs {V : Type} (f : V → V → V) (curr : list V) : list V :=
  match curr with
  | a :: b :: rest => f a b :: pairs f rest
  | _ => []
  end.

(** [getBlockArrayLength] (lines 280-282).  The bit width is [unsigned], so
    that both divisions are unsigned and [block_width] is converted. *)
Definition getBlockArrayLength (bitWidth block_width : Z) : Exec Z :=
  let unsigned_width := block_width `mod` 2 ^ 32 in
  if bool_decide (bitWidth = 0 ∨ unsigned_width = 0) then Undefined
  else Ok (64 * 8 / bitWidth / unsigned_width).

Definition int_max : Z := 2 ^ 31 - 1.

(** The conversion of an [int64_t] to [int]. *)
Definition to_int (z : Z) : Z := (z + 2 ^ 31) `mod` 2 ^ 32 - 2 ^ 31.

(** The division of [int64_t], which truncates. *)
Definition div64 (a b : Z) : Exec Z :=
  if bool_decide (b = 0) then Undefined else int64 (a ÷ b).

(** [ShapedType::kDynamic], the mark of a dynamic offset. *)
Definition kDynamic : Z := int64_min.

(** The types of this file: of an element type its bit width is all that
    is read. *)
Record VectorType := {
  vector_shape : list Z;
  vector_elementType : Z
}.

Record TensorDescType := {
  td_shape : list Z;
  td_elementType : Z;
  td_array_length : Z
}.

Record TileType := {
  tile_shape : list Z;
  tile_innerBlocks : option (list Z);
  tile_elementType : Z
}.

Inductive Type_ :=
  | IndexType
  | VectorTy (vecTy : VectorType)
  | TensorDescTy (tdescTy : TensorDescType)
  | OtherType.

#[global] Instance VectorType_eq_dec : EqDecision VectorType.
Proof. solve_decision. Defined.

#[global] Instance TensorDescType_eq_dec : EqDecision TensorDescType.
Proof. solve_decision. Defined.

#[global] Instance Type_eq_dec : EqDecision Type_.
Proof. solve_decision. Defined.

(** The values of the rewritten program: the operands the adaptor hands
    in, the null value, and one constructor for each operation with a
    result that the patterns create, with the operands and attributes it is
    created with. *)
Inductive Value :=
  | Null
  | Operand (n : nat) (type : Type_)
  | ConstantOp (value : Z)
  | AddIOp (lhs rhs : Value)
  | CreateNdDescOp (resultTy : TensorDescType) (source : Value)
                   (tDescOffsetX tDescOffsetY : Value)
  | UpdateNDOffsetOp (resultTy : Type_) (tile offsetX offsetY : Value)
  | LoadNDOp (vectorTy : VectorType) (src : Value) (vnniAttr : option Z)
  | ExtractOp (vector : Value) (position : Z)
  | ShuffleOp (v1 v2 : Value) (mask : list Z)
  | ShapeCastOp (resultTy : VectorType) (source : Value)
  | ExtractStridedSliceOp (vector : Value) (offsets sizes strides : list Z)
  | DpasOp (resultTy : VectorType) (lhs rhs acc : Value).

#[global] Instance Value_inhabited : Inhabited Value := populate Null.

(** The operations without a result. *)
Inductive Operation :=
  | PrefetchNDOp (tile : Value)
  | StoreNDOp (tile value : Value).

(** [getType]: the type an operand comes with, the result type an
    operation is created with, or the one it infers from its operands. *)
Fixpoint getType (value : Value) : Type_ :=
  match value with
  | Null => OtherType
  | Operand _ type => type
  | ConstantOp _ | AddIOp _ _ => IndexType
  | CreateNdDescOp resultTy _ _ _ => TensorDescTy resultTy
  | UpdateNDOffsetOp resultTy _ _ _ => resultTy
  | LoadNDOp vectorTy _ _ => VectorTy vectorTy
  | ExtractOp vector _ =>
      match getType vector with
      | VectorTy vecTy =>
          VectorTy {| vector_shape := tail (vector_shape vecTy);
                      vector_elementType := vector_elementType vecTy |}
      | _ => OtherType
      end
  | ShuffleOp v1 _ mask =>
      match getType v1 with
      | VectorTy vecTy =>
          VectorTy {| vector_shape :=
                        Z.of_nat (length mask) :: tail (vector_shape vecTy);
                      vector_elementType := vector_elementType vecTy |}
      | _ => OtherType
      end
  | ShapeCastOp resultTy _ => VectorTy resultTy
  | ExtractStridedSliceOp vector _ sizes _ =>
      match getType vector with
      | VectorTy vecTy =>
          VectorTy {| vector_shape :=
                        sizes ++ drop (length sizes) (vector_shape vecTy);
                      vector_elementType := vector_elementType vecTy |}
      | _ => OtherType
      end
  | DpasOp resultTy _ _ _ => VectorTy resultTy
  end.

(** What [matchAndRewrite] leaves: an error on the operation, a plain
    failure, or success with the values that replace the operation or with
    the operations created in its place. *)
Inductive Rewrite :=
  | emitOpError (message : string)
  | failure
  | replaceOp (newOps : list Value)
  | eraseOp (created : list Operation).

Record InitTileOp := {
  init_source : Value;
  init_type : TileType;
  init_static_offsets : list Z;
  init_offsets : list Value;
  (** the answer of [isForLoad], which is not of this file *)
  init_isForLoad : bool
}.

(** The loop of lines 322-329: the static offsets as constants, the
    dynamic ones taken in their order. *)
Fixpoint gather_offsets (staticOffsets : list Z) (dynamicOffsets : list Value)
    : Exec (list Value) :=
  match staticOffsets with
  | [] => mret []
  | offset :: staticOffsets =>
      if bool_decide (offset = kDynamic) then
        match dynamicOffsets with
        | value :: dynamicOffsets =>
            offsets ← gather_offsets staticOffsets dynamicOffsets;
            mret (value :: offsets)
        | [] => Undefined
        end
      else
        offsets ← gather_offsets staticOffsets dynamicOffsets;
        mret (ConstantOp offset :: offsets)
  end.

(** One run of a loop body over the values of its counter. *)
Fixpoint for_each {A B : Type} (body : A → Exec B) (range : list A)
    : Exec (list B) :=
  match range with
  | [] => mret []
  | i :: range =>
      out ← body i;
      outs ← for_each body range;
      mret (out :: outs)
  end.

(** The counters of the two loops of lines 346-347, which are [int]s
    compared with [int64_t] bounds. *)
Definition block_indices (blocks0 blocks1 : Z) : Exec (list (Z * Z)) :=
  if bool_decide (int_max < blocks0 ∨ 0 < blocks0 ∧ int_max < blocks1)
  then Undefined
  else Ok (i ← seqZ 0 blocks0; j ← seqZ 0 blocks1; [(i, j)]).

(** The constants of lines 348-349 for the block [(i, j)]. *)
Definition block_offsets (innerBlk0 width : Z) (ij : Z * Z) : Exec (Z * Z) :=
  subOffX ← mul64 innerBlk0 ij.1;
  subOffY ← mul64 width ij.2;
  mret (subOffX, subOffY).

(** The operation of lines 350-361 for the block whose constants are
    [sub]. *)
Definition block_descriptor (tDescTy : TensorDescType)
    (source offsetsX offsetsY : Value) (sub : Z * Z) : Value :=
  CreateNdDescOp tDescTy source (AddIOp (ConstantOp sub.1) offsetsX)
                                (AddIOp (ConstantOp sub.2) offsetsY).

(** [SgInitTileOpPattern::matchAndRewrite] (lines 291-369). *)
Definition SgInitTileOpPattern (op : InitTileOp) : Exec Rewrite :=
  let source := init_source op in
  let tileTy := init_type op in
  let innerBlk := tile_innerBlocks tileTy in
  let shape := tile_shape tileTy in
  match shape with
  | [shape0; shape1] =>
      match innerBlk with
      | Some [innerBlk0; innerBlk1] =>
          array_length ←
            (if init_isForLoad op && bool_decide (innerBlk1 < shape1)
             then getBlockArrayLength (tile_elementType tileTy) (to_int innerBlk1)
             else mret 1);
          width ← mul64 array_length innerBlk1;
          blocks0 ← div64 shape0 innerBlk0;
          blocks1 ← div64 shape1 width;
          offsets ← gather_offsets (init_static_offsets op) (init_offsets op);
          match offsets with
          | offsetsX :: offsetsY :: _ =>
              let tDescTy :=
                {| td_shape := [innerBlk0; innerBlk1];
                   td_elementType := tile_elementType tileTy;
                   td_array_length := array_length |} in
              indices ← block_indices blocks0 blocks1;
              subOffsets ← for_each (block_offsets innerBlk0 width) indices;
              mret (replaceOp
                      (block_descriptor tDescTy source offsetsX offsetsY
                       <$> subOffsets))
          | _ => Undefined
          end
      | _ => mret (emitOpError "Missing valid innerBlock for the tile in op.")
      end
  | _ => mret (emitOpError "The tile shape should be 2D.")
  end.

(** The array length of line 309-312 where its division is defined. *)
Definition descriptor_blocks (op : InitTileOp) (shape1 innerBlk1 : Z) : Z :=
  if init_isForLoad op && bool_decide (innerBlk1 < shape1)
  then 64 * 8 / tile_elementType (init_type op) / innerBlk1
  else 1.

(** The part of the tile a descriptor stands for, in rows and columns
    counted from the offsets of the tile: the rows of one block, and the
    columns of [array_length] blocks side by side. *)
Definition covers (descriptor : Value) (row col : Z) : Prop :=
  match descriptor with
  | CreateNdDescOp tDescTy _ (AddIOp (ConstantOp x) _) (AddIOp (ConstantOp y) _) =>
      match td_shape tDescTy with
      | [height; width] =>
          x ≤ row < x + height ∧ y ≤ col < y + td_array_length tDescTy * width
      | _ => False
      end
  | _ => False
  end.

Record LoadTileOp := {
  load_type : TileType;
  (** the answers of [isForDPASA] and [isForDPASB], which are not of this
      file *)
  load_isForDPASA : bool;
  load_isForDPASB : bool
}.

(** The shape of the loaded vector (lines 460-470). *)
Definition load_shape (shape : list Z) (vnniAttr : option Z)
    (factor array_length : Z) : Exec (list Z) :=
  shape ← match vnniAttr with
          | Some axis =>
              match shape !! Z.to_nat axis with
              | Some dim =>
                  quotient ← div64 dim factor;
                  mret (<[Z.to_nat axis := quotient]> shape ++ [factor])
              | None => Undefined
              end
          | None => mret shape
          end;
  mret (if bool_decide (array_length ≠ 1) then array_length :: shape else shape).

(** The body of the loop over the sources (lines 457-484). *)
Definition load_source (elemTy : Z) (vnniAttr : option Z) (factor : Z)
    (src : Value) : Exec (list Value) :=
  match getType src with
  | TensorDescTy tdescTy =>
      let array_length := td_array_length tdescTy in
      shape ← load_shape (td_shape tdescTy) vnniAttr factor array_length;
      let vectorTy := {| vector_shape := shape; vector_elementType := elemTy |} in
      let ldOp := LoadNDOp vectorTy src vnniAttr in
      if bool_decide (array_length = 1) then mret [ldOp]
      else mret (ExtractOp ldOp <$> seqZ 0 array_length)
  | _ => AssertionFailed 459
  end.

(** [SgLoadTileOpPattern::matchAndRewrite] (lines 424-488).  The bit width
    is [unsigned], and so is the division that gives [factor]. *)
Definition SgLoadTileOpPattern (op : LoadTileOp) (sources : list Value)
    : Exec Rewrite :=
  let tileTy := load_type op in
  match tile_innerBlocks tileTy with
  | None => mret failure
  | Some _ =>
      let elemTy := tile_elementType tileTy in
      if bool_decide (elemTy = 0) then Undefined
      else
        let factor := 32 / elemTy in
        let vnniAttr :=
          if (load_isForDPASA op || load_isForDPASB op) && bool_decide (1 < factor)
          then Some (if load_isForDPASB op then 0 else 1)
          else None in
        xegpuOps ← for_each (load_source elemTy vnniAttr factor) sources;
        mret (replaceOp (concat xegpuOps))
  end.

(** The number of elements of a shape. *)
Definition numElements (shape : list Z) : Z := foldr Z.mul 1 shape.

(** ** The regrouping of blocks *)

(** An element of a vector or of an array; outside it nothing is
    defined. *)
Definition index {A : Type} (l : list A) (i : Z) : Exec A :=
  if bool_decide (0 ≤ i) then
    match l !! Z.to_nat i with
    | Some x => Ok x
    | None => Undefined
    end
  else Undefined.

(** The values [0 .. bound - 1] of an [int] counter.  A counter that
    would leave the range of [int] is given no behaviour. *)
Definition int_range (bound : Z) : Exec (list Z) :=
  if bool_decide (int_max < bound) then Undefined else Ok (seqZ 0 bound).

(** The values of an [int] counter that goes up by [step]: with a step
    that is not positive the loop does not end in a defined way. *)
Definition step_range (bound step : Z) : Exec (list Z) :=
  if bool_decide (bound ≤ 0) then Ok []
  else if bool_decide (step ≤ 0 ∨ int_max < bound + step) then Undefined
  else Ok ((λ g, g * step) <$> seqZ 0 ((bound + step - 1) / step)).

(** A loop that carries a state. *)
Fixpoint foldM {S A : Type} (body : S → A → Exec S) (range : list A) (s : S)
    : Exec S :=
  match range with
  | [] => mret s
  | i :: range => s ← body s i; foldM body range s
  end.

Definition is_null (value : Value) : bool :=
  match value with
  | Null => true
  | _ => false
  end.

(** [++value] on an [int]. *)
Definition incr_int (value : Z) : Exec Z :=
  if bool_decide (value < int_max) then Ok (value + 1) else Undefined.

(** [std::iota(first, last, value)] with a counter of the type [int], as
    the literal [0] of line 51 makes it: [count] elements are written from
    [first] on, and the counter goes up after each of them, the last one
    included. *)
Fixpoint iota_int (mask : list Z) (first count : nat) (value : Z) : Exec (list Z) :=
  match count with
  | O => mret mask
  | S count =>
      let mask := <[first := value]> mask in
      value ← incr_int value;
      iota_int mask (S first) count value
  end.

(** [stack] (lines 41-54).  The type of a null value cannot be read, and
    [llvm::cast] checks on its own account. *)
Definition stack (v1 v2 : Value) : Exec Value :=
  if is_null v1 || is_null v2 then Undefined
  else
    assert_ 45 (bool_decide (getType v1 = getType v2));;
    match getType v1 with
    | VectorTy vecTy =>
        match vector_shape vecTy with
        | [shape0; _] =>
            size ← add64 shape0 shape0;
            if bool_decide (size < 0) then Undefined
            else
              mask ← iota_int (replicate (Z.to_nat size) 0) 0 (Z.to_nat size) 0;
              mret (ShuffleOp v1 v2 mask)
        | _ => AssertionFailed 48
        end
    | _ => Undefined
    end.

(** [concat] (lines 84-104). *)
Definition concat (v1 v2 : Value) : Exec Value :=
  if is_null v1 || is_null v2 then Undefined
  else
    match getType v1 with
    | VectorTy vecTy =>
        assert_ 89 (bool_decide (getType v1 = getType v2));;
        match vector_shape vecTy with
        | [shape0; shape1] =>
            size ← mul64 shape0 shape1;
            let elemTy := vector_elementType vecTy in
            let flatTy := {| vector_shape := [size]; vector_elementType := elemTy |} in
            let cast1 := ShapeCastOp flatTy v1 in
            let cast2 := ShapeCastOp flatTy v2 in
            mask ← getMask [shape0; shape1] [shape0; shape1];
            let shuffleOp := ShuffleOp cast1 cast2 mask in
            width ← add64 shape1 shape1;
            let targetTy :=
              {| vector_shape := [shape0; width]; vector_elementType := elemTy |} in
            mret (ShapeCastOp targetTy shuffleOp)
        | _ => AssertionFailed 91
        end
    | _ => Undefined
    end.

(** [transform] run to its end: by [transform_terminates] the turns
    allowed here are never used up. *)
Definition transform_all (merge : Value → Value → Exec Value)
    (ins : list Value) : Exec Value :=
  match transform (S (length ins)) merge ins with
  | Some outcome => outcome
  | None => Undefined
  end.

Inductive User :=
  | TilePackOp (outTy : list Z) (innerBlocks : list Z)
  | OtherUser.

Record TileUnpackOp := {
  unpack_users : list User;
  (** the shape of the type of the operand *)
  unpack_inTy : list Z;
  unpack_innerBlocks : list Z;
  (** the [LoadTileOp] that defines the operand, where one does *)
  unpack_loadOp : option LoadTileOp
}.

Definition isVnniFormat (op : TileUnpackOp) : bool :=
  match unpack_loadOp op with
  | Some loadOp => load_isForDPASA loadOp || load_isForDPASB loadOp
  | None => false
  end.

(** The body of the first pair of loops of the branch that stacks
    (lines 170-176), for the column [j] and the row [i]. *)
Definition gather_input (inGrids1 nums : Z) (inputs : list Value) (j : Z)
    (state : list Value * list Value) (i : Z) : Exec (list Value * list Value) :=
  let '(valSet, intermediates) := state in
  full ← (if bool_decide (i = 0) then mret false
          else if bool_decide (nums = 0) then Undefined
          else mret (bool_decide (Z.rem i nums = 0)));
  '(valSet, intermediates) ←
    (if full : bool then
       newOp ← transform_all stack valSet;
       mret ([], intermediates ++ [newOp])
     else mret (valSet, intermediates));
  row ← mul64 i inGrids1;
  idx ← add64 row j;
  input ← index inputs idx;
  mret (valSet ++ [input], intermediates).

(** The first pair of loops of the branch that stacks (lines 167-178). *)
Definition stack_gather (inGrids0 inGrids1 nums : Z) (inputs : list Value)
    : Exec (list Value * list Value) :=
  j_range ← int_range inGrids1;
  foldM (λ state j,
           i_range ← int_range inGrids0;
           foldM (gather_input inGrids1 nums inputs j) i_range state)
        j_range ([], []).

(** The second group of loops of that branch (lines 180-190). *)
Definition stack_columns (inGrids0 inGrids1 nums : Z) (inputs : list Value)
    (intermediates : list Value) : Exec (list Value) :=
  rows ← step_range inGrids0 nums;
  foldM (λ intermediates i,
           j_range ← int_range inGrids1;
           foldM (λ intermediates j,
                    k_range ← int_range nums;
                    values ← for_each (λ k, row ← mul64 (i + k) inGrids1;
                                            idx ← add64 row j;
                                            index inputs idx) k_range;
                    newOp ← transform_all stack values;
                    mret (intermediates ++ [newOp]))
                 j_range intermediates)
        rows intermediates.

(** The branch that stacks on dimension 0 (lines 164-190). *)
Definition stack_on_dim0 (inGrids outGrids : list Z) (inputs : list Value)
    : Exec (list Value) :=
  inGrids0 ← index inGrids 0;
  outGrids0 ← index outGrids 0;
  nums ← div64 inGrids0 outGrids0;
  inGrids1 ← index inGrids 1;
  state ← stack_gather inGrids0 inGrids1 nums inputs;
  stack_columns inGrids0 inGrids1 nums inputs state.2.

(** The block sizes of a slice, which the vnni format divides by its
    factor, the last dimension of the first input (lines 196-201 and
    253-258). *)
Definition slice_sizes (op : TileUnpackOp) (inputs : list Value)
    (blkSizes : list Z) : Exec (list Z) :=
  if isVnniFormat op then
    let vnniAxis :=
      match unpack_loadOp op with
      | Some loadOp => if load_isForDPASB loadOp then 0 else 1
      | None => 1
      end in
    match inputs with
    | front :: _ =>
        match getType front with
        | VectorTy vecTy =>
            match last (vector_shape vecTy) with
            | Some factor =>
                size ← index blkSizes vnniAxis;
                size ← div64 size factor;
                mret (<[Z.to_nat vnniAxis := size]> blkSizes)
            | None => Undefined
            end
        | _ => Undefined
        end
    | [] => Undefined
    end
  else mret blkSizes.

(** The branch that cuts on dimension 0 (lines 191-218). *)
Definition extract_on_dim0 (op : TileUnpackOp) (inGrids outGrids : list Z)
    (outBlkSizes0 : Z) (inputs : list Value) : Exec (list Value) :=
  outGrids0 ← index outGrids 0;
  inGrids1 ← index inGrids 1;
  size ← mul64 outGrids0 inGrids1;
  if bool_decide (size < 0) then Undefined
  else
    let intermediates := replicate (Z.to_nat size) Null in
    inBlkSizes1 ← index (unpack_innerBlocks op) 1;
    blkSizes ← slice_sizes op inputs [outBlkSizes0; inBlkSizes1];
    inGrids0 ← index inGrids 0;
    nums ← div64 outGrids0 inGrids0;
    let strides := [1; 1] in
    i_range ← int_range inGrids0;
    foldM (λ intermediates i,
             j_range ← int_range inGrids1;
             foldM (λ intermediates j,
                      start ← mul64 i nums;
                      start ← mul64 start inGrids1;
                      startPos ← add64 start j;
                      row ← mul64 i inGrids1;
                      at_ ← add64 row j;
                      v ← index inputs at_;
                      k_range ← int_range nums;
                      foldM (λ intermediates k,
                               blkSizes0 ← index blkSizes 0;
                               offset ← mul64 k blkSizes0;
                               let newOp :=
                                 ExtractStridedSliceOp v [offset; 0] blkSizes strides in
                               step ← mul64 k inGrids1;
                               idx ← add64 startPos step;
                               _ ← index intermediates idx;
                               mret (<[Z.to_nat idx := newOp]> intermediates))
                            k_range intermediates)
                   j_range intermediates)
          i_range intermediates.

(** The message of lines 230-234. *)
Definition rare_case : string :=
  "[Unexpected rare case]: It rarly happens that we need to do concat on vnni transformed vectors (which is 3D instead of 2D). It is essentially a stack on the 2nd dim, but it is not implemented yet."
  +:+ LF.

(** The branch that joins on dimension 1 (lines 227-248); [nums] is a
    [size_t]. *)
Definition concat_on_dim1 (op : TileUnpackOp) (inGrids outGrids interGrids : list Z)
    (intermediates : list Value) : Exec Rewrite :=
  if isVnniFormat op then mret (emitOpError rare_case)
  else
    inGrids1 ← index inGrids 1;
    outGrids1 ← index outGrids 1;
    nums ← div64 inGrids1 outGrids1;
    let nums := nums `mod` 2 ^ 64 in
    interGrids0 ← index interGrids 0;
    i_range ← int_range interGrids0;
    state ←
      foldM (λ state i,
               interGrids1 ← index interGrids 1;
               j_range ← int_range interGrids1;
               foldM (λ '(valSet, newOps) j,
                        row ← mul64 i interGrids1;
                        idx ← add64 row j;
                        v ← index intermediates idx;
                        let valSet := valSet ++ [v] in
                        if bool_decide (Z.of_nat (length valSet) = nums) then
                          newOp ← transform_all concat valSet;
                          mret ([], newOps ++ [newOp])
                        else mret (valSet, newOps))
                     j_range state)
            i_range ([], []);
    mret (replaceOp state.2).

(** The branch that cuts on dimension 1 (lines 249-272). *)
Definition extract_on_dim1 (op : TileUnpackOp) (outGrids interGrids : list Z)
    (outBlkSizes : list Z) (inputs intermediates : list Value) : Exec Rewrite :=
  outBlkSizes0 ← index outBlkSizes 0;
  outBlkSizes1 ← index outBlkSizes 1;
  blkSizes ← slice_sizes op inputs [outBlkSizes0; outBlkSizes1];
  let strides := [1; 1] in
  outGrids1 ← index outGrids 1;
  interGrids1 ← index interGrids 1;
  nums ← div64 outGrids1 interGrids1;
  interGrids0 ← index interGrids 0;
  i_range ← int_range interGrids0;
  newOps ←
    foldM (λ newOps i,
             j_range ← int_range interGrids1;
             foldM (λ newOps j,
                      row ← mul64 i interGrids1;
                      idx ← add64 row j;
                      v ← index intermediates idx;
                      foldM (λ newOps k,
                               blkSizes1 ← index blkSizes 1;
                               offset ← mul64 k blkSizes1;
                               mret (newOps ++
                                     [ExtractStridedSliceOp v [0; offset] blkSizes
                                                            strides]))
                            (seqZ 0 nums) newOps)
                   j_range newOps)
          i_range [];
  mret (replaceOp newOps).

(** The message of lines 140-143. *)
Definition unexpected_pattern : string :=
  "[Uexpected Code Pattern]: Upack/Pack should appear as pairs. And unpack can be only used by pack. Duplicate unpack if necessarry."
  +:+ LF.

(** [SgTileUnpackPackOpPattern::matchAndRewrite] (lines 117-277). *)
Definition SgTileUnpackPackOpPattern (op : TileUnpackOp) (inputs : list Value)
    : Exec Rewrite :=
  match unpack_users op with
  | [] => Undefined
  | [TilePackOp outTy outBlkSizes] =>
      let inGrids := take 2 (unpack_inTy op) in
      let outGrids := take 2 outTy in
      let inBlkSizes := unpack_innerBlocks op in
      inBlkSizes0 ← index inBlkSizes 0;
      outBlkSizes0 ← index outBlkSizes 0;
      intermediates ←
        (if bool_decide (inBlkSizes0 = outBlkSizes0) then mret inputs
         else if bool_decide (inBlkSizes0 < outBlkSizes0)
              then stack_on_dim0 inGrids outGrids inputs
              else extract_on_dim0 op inGrids outGrids outBlkSizes0 inputs);
      outGrids0 ← index outGrids 0;
      inGrids1 ← index inGrids 1;
      let interGrids := [outGrids0; inGrids1] in
      inBlkSizes1 ← index inBlkSizes 1;
      outBlkSizes1 ← index outBlkSizes 1;
      if bool_decide (inBlkSizes1 = outBlkSizes1) then mret (replaceOp intermediates)
      else if bool_decide (inBlkSizes1 < outBlkSizes1)
           then concat_on_dim1 op inGrids outGrids interGrids intermediates
           else extract_on_dim1 op outGrids interGrids outBlkSizes inputs intermediates
  | _ => mret (emitOpError unexpected_pattern)
  end.

End XeTile.

(** Sample tiles.  A tile of 16 x 64 elements of 16 bits in blocks of
    8 x 16, for a load, at a dynamic and a static offset; a tile of 16 x 48
    elements in the same blocks; and a load of the blocks of the first tile
    for the second operand of a [dpas]. *)
Definition sample_init_tile : XeTile.InitTileOp :=
  {| XeTile.init_source := XeTile.Operand 0 XeTile.OtherType;
     XeTile.init_type :=
       {| XeTile.tile_shape := [16; 64]%Z;
          XeTile.tile_innerBlocks := Some [8; 16]%Z;
          XeTile.tile_elementType := 16 |};
     XeTile.init_static_offsets := [XeTile.kDynamic; 4%Z];
     XeTile.init_offsets := [XeTile.Operand 1 XeTile.IndexType];
     XeTile.init_isForLoad := true |}.

Definition ragged_init_tile : XeTile.InitTileOp :=
  {| XeTile.init_source := XeTile.Operand 0 XeTile.OtherType;
     XeTile.init_type :=
       {| XeTile.tile_shape := [16; 48]%Z;
          XeTile.tile_innerBlocks := Some [8; 16]%Z;
          XeTile.tile_elementType := 16 |};
     XeTile.init_static_offsets := [0%Z; 0%Z];
     XeTile.init_offsets := [];
     XeTile.init_isForLoad := true |}.

Definition sample_load_tile : XeTile.LoadTileOp :=
  {| XeTile.load_type := XeTile.init_type sample_init_tile;
     XeTile.load_isForDPASA := false;
     XeTile.load_isForDPASB := true |}.

Definition sample_tdesc : XeTile.TensorDescType :=
  {| XeTile.td_shape := [8; 16]%Z;
     XeTile.td_elementType := 16;
     XeTile.td_array_length := 2 |}.

(** Sample vectors of 16-bit elements, and an unpack of two blocks of
    16 x 16 that feeds a pack into blocks of 8 x 8. *)
Definition sample_vector (n : nat) (rows cols : Z) : XeTile.Value :=
  XeTile.Operand n
    (XeTile.VectorTy {| XeTile.vector_shape := [rows; cols];
                        XeTile.vector_elementType := 16 |}).

Definition sample_unpack : XeTile.TileUnpackOp :=
  {| XeTile.unpack_users := [XeTile.TilePackOp [2; 4; 8; 8]%Z [8; 8]%Z];
     XeTile.unpack_inTy := [1; 2; 16; 16]%Z;
     XeTile.unpack_innerBlocks := [16; 16]%Z;
     XeTile.unpack_loadOp := None |}.

(** * Properties *)

Section Executor.

Context {Body : Type}.
Implicit Types (s : PassManagerSchedule (Body := Body)).
Implicit Types (st : PassManagerStage (Body := Body)).
Implicit Types (module : ModuleOp (Body := Body)).
Implicit Types (c : Config (Body := Body)).

(** ** get_jump *)

Lemma get_jump_names_Some (it : StringAttr * StageId) (ns : list StringAttr) target str :
  get_jump_names it ns = Some (target, str) ↔
  target = it.2 ∧ str = it.1 ∧ it.1 ∈ ns.
Proof.
  induction ns as [|n ns IH]; simpl.
  - split; [done | intros (_ & _ & H); by apply elem_of_nil in H].
  - case_bool_decide as Heq.
    + split.
      * intros [= <- <-]. rewrite Heq. repeat split. left.
      * intros (-> & -> & _). by rewrite Heq.
    + rewrite IH. split; intros (-> & -> & H); repeat split; try done.
      * by right.
      * apply elem_of_cons in H as [H|H]; [done | exact H].
Qed.

Lemma get_jump_names_None (it : StringAttr * StageId) (ns : list StringAttr) :
  get_jump_names it ns = None ↔ it.1 ∉ ns.
Proof.
  induction ns as [|n ns IH]; simpl.
  - split; [intros _; apply not_elem_of_nil | done].
  - case_bool_decide as Heq.
    + split; [done | intros H; exfalso; apply H; rewrite Heq; left].
    + rewrite IH, not_elem_of_cons. split; [by split | by intros [_ ?]].
Qed.

Lemma get_jump_jumps_match (js : list (StringAttr * StageId)) (ns : list StringAttr)
    target name :
  get_jump_jumps js ns = (Some target, Some name) ↔
  ∃ before after, js = before ++ (name, target) :: after ∧ name ∈ ns ∧
                  ∀ it, it ∈ before → it.1 ∉ ns.
Proof.
  induction js as [|it js IH]; simpl.
  - split; [done | intros (before & after & H & _); by destruct before].
  - destruct (get_jump_names it ns) as [[t str]|] eqn:Hit.
    + apply get_jump_names_Some in Hit as (-> & -> & Hin). split.
      * intros [= <- <-]. exists [], js. destruct it; simpl in *.
        split_and!; [done | done | intros ? H; by apply elem_of_nil in H].
      * intros (before & after & Hjs & Hname & Hbefore).
        destruct before as [|b before]; simpl in Hjs.
        -- by injection Hjs as ->.
        -- injection Hjs as -> _. exfalso. eapply Hbefore; [left | done].
    + apply get_jump_names_None in Hit. rewrite IH. split.
      * intros (before & after & -> & Hname & Hbefore).
        exists (it :: before), after. split_and!; [done | done |].
        intros it' [->|H]%elem_of_cons; auto.
      * intros (before & after & Hjs & Hname & Hbefore).
        destruct before as [|b before]; simpl in Hjs.
        -- injection Hjs as -> _. done.
        -- injection Hjs as -> ->. exists before, after.
           split_and!; [done | done |]. intros it' H. apply Hbefore. by right.
Qed.

Lemma get_jump_jumps_none (js : list (StringAttr * StageId)) (ns : list StringAttr) :
  get_jump_jumps js ns = (None, None) ↔ ∀ it, it ∈ js → it.1 ∉ ns.
Proof.
  induction js as [|it js IH]; simpl.
  - split; [intros _ ? H; by apply elem_of_nil in H | done].
  - destruct (get_jump_names it ns) as [[t str]|] eqn:Hit.
    + apply get_jump_names_Some in Hit as (_ & _ & Hin).
      split; [done | intros H; exfalso; eapply H; [left | done]].
    + apply get_jump_names_None in Hit. rewrite IH. split.
      * intros H it' [->|H']%elem_of_cons; auto.
      * intros H it' H'. apply H. by right.
Qed.

Lemma get_jump_jumps_cases (js : list (StringAttr * StageId)) (ns : list StringAttr) :
  (∃ target name, get_jump_jumps js ns = (Some target, Some name)) ∨
  get_jump_jumps js ns = (None, None).
Proof.
  induction js as [|it js IH]; simpl; [by right |].
  destruct (get_jump_names it ns) as [[t str]|]; [left; eauto | exact IH].
Qed.

Lemma get_jump_shape st (names : option (list StringAttr)) :
  (∃ target name, get_jump st names = (Some target, Some name)) ∨
  get_jump st names = (None, None).
Proof. destruct names as [ns|]; simpl; [apply get_jump_jumps_cases | by right]. Qed.

(** C7.  [get_jump] returns the target and the name of the first declared
    edge whose marker name occurs among the candidates: the edges declared
    before it match no candidate.  It returns the pair of nulls exactly when
    no declared edge matches a candidate, which covers an absent and an
    empty candidate list; there is no other shape of result. *)
Theorem get_jump_declaration_order st (names : option (list StringAttr)) :
  (∀ target name,
     get_jump st names = (Some target, Some name) ↔
     ∃ ns before after,
       names = Some ns ∧ jumps st = before ++ (name, target) :: after ∧
       name ∈ ns ∧ ∀ it, it ∈ before → it.1 ∉ ns) ∧
  (get_jump st names = (None, None) ↔
     ∀ ns, names = Some ns → ∀ it, it ∈ jumps st → it.1 ∉ ns) ∧
  get_jump st None = (None, None) ∧
  get_jump st (Some []) = (None, None) ∧
  ((∃ target name, get_jump st names = (Some target, Some name)) ∨
   get_jump st names = (None, None)).
Proof.
  split_and!.
  - intros target name. destruct names as [ns|]; simpl.
    + rewrite get_jump_jumps_match. split.
      * intros (before & after & ?). exists ns, before, after. by split.
      * intros (ns' & before & after & [= <-] & ?). eauto.
    + split; [done | intros (? & ? & ? & ? & _); done].
  - destruct names as [ns|]; simpl.
    + rewrite get_jump_jumps_none. split; [intros H ns' [= <-]; done | eauto].
    + split; [intros _ ? ?; done | done].
  - done.
  - simpl. apply get_jump_jumps_none. intros ? _. apply not_elem_of_nil.
  - destruct names as [ns|]; simpl; [apply get_jump_jumps_cases | by right].
Qed.

Lemma get_jump_names_member (it : StringAttr * StageId) (ns : list StringAttr) :
  get_jump_names it ns = if bool_decide (it.1 ∈ ns) then Some (it.2, it.1) else None.
Proof.
  case_bool_decide as Hin.
  - apply get_jump_names_Some. done.
  - by apply get_jump_names_None.
Qed.

(** X1.  The result of [get_jump] depends on which names are among the
    candidates only, not on their order in the attribute nor on repetitions:
    the declaration order of the stage decides alone. *)
Theorem get_jump_ignores_channel_order st (ns ns' : list StringAttr) :
  (∀ name, name ∈ ns ↔ name ∈ ns') →
  get_jump st (Some ns) = get_jump st (Some ns').
Proof.
  intros Hsame. simpl. induction (jumps st) as [|it js IH]; [done |].
  simpl. rewrite !get_jump_names_member.
  rewrite (bool_decide_ext _ _ (Hsame it.1)).
  case_bool_decide; [done | exact IH].
Qed.

(** ** The marker channel *)

Lemma remove_marker_gone module name :
  ¬ marker_active (remove_pipeline_jump_marker module name) name.
Proof.
  intros (ns & Hns & Hin). unfold get_pipeline_jump_markers in Hns. simpl in Hns.
  destruct (jump_markers module) as [l|]; simpl in Hns; [|done].
  injection Hns as <-. apply list_elem_of_filter in Hin as [Hne _]. done.
Qed.

Lemma remove_marker_other module name other :
  other ≠ name →
  marker_active (remove_pipeline_jump_marker module name) other ↔
  marker_active module other.
Proof.
  intros Hne. unfold marker_active, get_pipeline_jump_markers. simpl.
  destruct (jump_markers module) as [l|]; simpl.
  - split.
    + intros (ns & [= <-] & Hin). apply list_elem_of_filter in Hin as [_ Hin]. eauto.
    + intros (ns & [= <-] & Hin). eexists. split; [done |].
      apply list_elem_of_filter. done.
  - split; intros (? & ? & _); done.
Qed.

(** ** The loop *)

Lemma steps_S s n c : steps s (S n) c = step s (steps s n c).
Proof. reflexivity. Qed.

Lemma step_halted s c : (∀ current, control c ≠ At current) → step s c = c.
Proof. unfold step. destruct (control c); [intros H; by destruct (H current) | done..]. Qed.

Lemma steps_halted s n c : (∀ current, control c ≠ At current) → steps s n c = c.
Proof.
  intros H. induction n as [|n IH]; [done |].
  rewrite steps_S, IH. by apply step_halted.
Qed.

Lemma steps_add s n k c : steps s (n + k) c = steps s k (steps s n c).
Proof.
  induction k as [|k IH]; [by rewrite Nat.add_0_r |].
  by rewrite Nat.add_succ_r, !steps_S, IH.
Qed.

Lemma steps_succ_l s n c : steps s (S n) c = steps s n (step s c).
Proof. change (S n) with (1 + n). by rewrite steps_add. Qed.

Lemma step_events_prefix s c : events c `prefix_of` events (step s c).
Proof.
  unfold step. destruct (control c) as [current| |]; [|done..].
  destruct (loop_body s current (the_module c)) as [[[next m] evs] ds]. simpl.
  by apply prefix_app_r.
Qed.

Lemma steps_events_prefix s n c : events c `prefix_of` events (steps s n c).
Proof.
  induction n as [|n IH]; [done |].
  rewrite steps_S. etrans; [exact IH | apply step_events_prefix].
Qed.

(** C1.  After the current stage succeeded, with the markers [ns] on the
    module, the executor takes the first edge in the stage's declaration
    order whose name is among [ns] (every edge declared before it matches no
    marker), whatever the order of [ns] and however many later edges match
    too.  It removes that one name and nothing else: the name is no longer
    active, every other name is active afterwards exactly when it was
    before, and the rest of the module is untouched. *)
Theorem jump_resolution_declaration_order s current st module module1 diags
    (ns : list StringAttr) before after name target :
  stages s !! current = Some st →
  Stage_run st module = (success, module1, diags) →
  get_pipeline_jump_markers module1 = Some ns →
  jumps st = before ++ (name, target) :: after →
  name ∈ ns →
  (∀ it, it ∈ before → it.1 ∉ ns) →
  loop_body s current module =
    (At target, remove_pipeline_jump_marker module1 name,
     [EvRun current; EvGetMarkers; EvRemoveMarker name], diags) ∧
  ¬ marker_active (remove_pipeline_jump_marker module1 name) name ∧
  (∀ other, other ≠ name →
     marker_active (remove_pipeline_jump_marker module1 name) other ↔
     marker_active module1 other) ∧
  body (remove_pipeline_jump_marker module1 name) = body module1.
Proof.
  intros Hst Hrun Hns Hjumps Hin Hbefore. split_and!.
  - unfold loop_body. rewrite Hst, Hrun. simpl. rewrite Hns.
    assert (get_jump st (Some ns) = (Some target, Some name)) as ->; [|done].
    simpl. apply get_jump_jumps_match. eauto.
  - apply remove_marker_gone.
  - intros other Hne. by apply remove_marker_other.
  - done.
Qed.

(** C3.  When the stage the loop stands at fails, the run returns failure
    from there: the last thing the executor did is to run that stage, on the
    module as the failed stage left it; the markers are not read, no marker
    is removed, no successor is looked up and no further stage runs, with
    whatever fuel is left. *)
Theorem failure_stops_the_run s module n c current st module1 diags :
  steps s n (enter s module) = c →
  control c = At current →
  stages s !! current = Some st →
  Stage_run st (the_module c) = (failure, module1, diags) →
  ∀ fuel, n < fuel →
    Schedule_run fuel s module =
      Some (Ok failure,
            {| control := Returned failure; the_module := module1;
               events := events c ++ [EvRun current];
               emitted := emitted c ++ diags |}).
Proof.
  intros Hc Hat Hst Hrun fuel Hlt.
  replace fuel with (S n + (fuel - S n)) by lia.
  unfold Schedule_run. rewrite steps_add, steps_S, Hc.
  assert (step s c = {| control := Returned failure; the_module := module1;
                        events := events c ++ [EvRun current];
                        emitted := emitted c ++ diags |}) as ->.
  { unfold step. rewrite Hat. unfold loop_body. rewrite Hst, Hrun. done. }
  by rewrite steps_halted.
Qed.

Lemma step_emitted_prefix s c : emitted c `prefix_of` emitted (step s c).
Proof.
  unfold step. destruct (control c) as [current| |]; [|done..].
  destruct (loop_body s current (the_module c)) as [[[next m] evs] ds]. simpl.
  by apply prefix_app_r.
Qed.

Lemma steps_emitted_prefix s n c : emitted c `prefix_of` emitted (steps s n c).
Proof.
  induction n as [|n IH]; [done |].
  rewrite steps_S. etrans; [exact IH | apply step_emitted_prefix].
Qed.

(** C10.  Over no stage at all the run has no defined behaviour: the first
    element of the array is read before anything else.  Over at least one
    stage the loop is entered at the first declared stage and its body comes
    before its test.  The first turn runs the passes of that stage on the
    module as given, and what they leave decides the rest of the turn: on
    failure the run returns failure with the module as the passes left it,
    and nothing else is done; on success the markers of that module are read
    next, and either the first matching edge is taken and its marker removed
    from that module, or the default successor is looked up and the module
    is handed on as it is.  Every later configuration, and so every run that
    ends, has the run of the first stage as its first event and the
    diagnostics of its passes as its first diagnostics. *)
Theorem run_enters_first_stage s module :
  match stages s with
  | [] => ∀ fuel, Schedule_run fuel s module = Some (Undefined, enter s module)
  | st :: _ =>
      let ran := pm_run (pm st) module in
      let module1 := ran.1.2 in
      let diags := ran.2 in
      let markers := get_pipeline_jump_markers module1 in
      let first := step s (enter s module) in
      control (enter s module) = At 0 ∧
      Schedule_run 0 s module = None ∧
      (ran.1.1 = failure →
         first = {| control := Returned failure; the_module := module1;
                    events := [EvRun 0]; emitted := diags |} ∧
         ∀ fuel, Schedule_run (S fuel) s module = Some (Ok failure, first)) ∧
      (ran.1.1 = success →
         ((∃ target name, get_jump st markers = (Some target, Some name)) ∨
          get_jump st markers = (None, None)) ∧
         (∀ target name, get_jump st markers = (Some target, Some name) →
            first = {| control := At target;
                       the_module := remove_pipeline_jump_marker module1 name;
                       events := [EvRun 0; EvGetMarkers; EvRemoveMarker name];
                       emitted := diags |}) ∧
         (get_jump st markers = (None, None) →
            first = {| control := match next_stage st with
                                  | Some next => At next
                                  | None => Returned success
                                  end;
                       the_module := module1;
                       events := [EvRun 0; EvGetMarkers; EvGetNextStage];
                       emitted := diags |})) ∧
      (∀ fuel, ∃ evs ds,
         events (steps s (S fuel) (enter s module)) = EvRun 0 :: evs ∧
         emitted (steps s (S fuel) (enter s module)) = diags ++ ds) ∧
      (∀ fuel r c, Schedule_run fuel s module = Some (r, c) →
                   ∃ evs ds, events c = EvRun 0 :: evs ∧ emitted c = diags ++ ds)
  end.
Proof.
  destruct (stages s) as [|st rest] eqn:Hs.
  - intros fuel. unfold Schedule_run.
    assert (control (enter s module) = Lost) as Hlost.
    { unfold enter. by rewrite Hs. }
    rewrite steps_halted; [by rewrite Hlost | intros ?; by rewrite Hlost].
  - intros ran module1 diags markers first.
    assert (control (enter s module) = At 0) as Hat.
    { unfold enter. by rewrite Hs. }
    assert (stages s !! 0 = Some st) as Hst by (by rewrite Hs).
    assert (first =
            let '(next, module', evs, ds) := loop_body s 0 module in
            {| control := next; the_module := module';
               events := evs; emitted := ds |}) as Hfirst.
    { unfold first, step. rewrite Hat. cbn [the_module enter events emitted app].
      by destruct (loop_body s 0 module) as [[[next m] evs] ds]. }
    unfold loop_body in Hfirst. rewrite Hs in Hfirst. cbn [lookup list_lookup] in Hfirst.
    unfold Stage_run in Hfirst.
    fold ran in Hfirst.
    assert (ran = (ran.1.1, module1, diags)) as Hran.
    { unfold module1, diags. by destruct ran as [[??]?]. }
    rewrite Hran in Hfirst.
    assert (∃ evs, events first = EvRun 0 :: evs ∧ emitted first = diags)
      as (evs1 & Hevs1 & Hds1).
    { rewrite Hfirst. destruct (ran.1.1); cbn [failed].
      - destruct (get_jump st (get_pipeline_jump_markers module1)) as [[t|] [name|]];
          cbn [fst snd]; try destruct (get_next_stage st); cbn; eauto.
      - cbn. eauto. }
    assert (∀ fuel, ∃ evs ds,
              events (steps s (S fuel) (enter s module)) = EvRun 0 :: evs ∧
              emitted (steps s (S fuel) (enter s module)) = diags ++ ds) as Hev.
    { intros fuel. rewrite steps_succ_l. fold first.
      destruct (steps_events_prefix s fuel first) as [k Hk].
      destruct (steps_emitted_prefix s fuel first) as [k' Hk'].
      rewrite Hk, Hk', Hevs1, Hds1. cbn [app]. eauto. }
    split_and!; [done | | | | done |].
    + unfold Schedule_run. change (steps s 0 (enter s module)) with (enter s module).
      by rewrite Hat.
    + intros Hfail. rewrite Hfail in Hfirst. cbn [failed] in Hfirst.
      split; [done |]. intros fuel. unfold Schedule_run.
      rewrite steps_succ_l. fold first.
      rewrite steps_halted by (rewrite Hfirst; done). by rewrite Hfirst.
    + intros Hok. rewrite Hok in Hfirst. cbn [failed] in Hfirst. fold markers in Hfirst.
      split_and!.
      * apply get_jump_shape.
      * intros target name Hjump. by rewrite Hjump in Hfirst.
      * intros Hjump. rewrite Hjump in Hfirst. cbn [fst snd] in Hfirst.
        unfold get_next_stage in Hfirst. by destruct (next_stage st).
    + intros fuel r c Hr. destruct fuel as [|fuel].
      * unfold Schedule_run in Hr.
        change (steps s 0 (enter s module)) with (enter s module) in Hr.
        by rewrite Hat in Hr.
      * destruct (Hev fuel) as (evs' & ds' & Hevs & Hds). unfold Schedule_run in Hr.
        destruct (control (steps s (S fuel) (enter s module)));
          [done | injection Hr as <- <- | injection Hr as <- <-]; eauto.
Qed.

End Executor.

Section Construction.

Context {Body : Type}.
Implicit Types (d : StageInfo (Body := Body)).
Implicit Types (registry done rest : list (StageInfo (Body := Body))).
Implicit Types (st : PassManagerStage (Body := Body)).
Implicit Types (b : Building (Body := Body)).

(** ** The constructor of a stage *)

Lemma configure_pm (context context' : MLIRContext) (settings : Settings) :
  (configure (Body := Body) context settings).2 = (configure context' settings).2.
Proof.
  unfold configure.
  destruct (irDumpStderr settings), (irPrinting settings); reflexivity.
Qed.

Lemma configure_context (context : MLIRContext) (settings : Settings) :
  (configure (Body := Body) context settings).1 = configured context settings.
Proof.
  unfold configure, configured, serializing.
  destruct (irDumpStderr settings), (irPrinting settings); reflexivity.
Qed.

Lemma configured_twice (context : MLIRContext) (settings : Settings) :
  configured (configured context settings) settings = configured context settings.
Proof. unfold configured. by destruct (serializing settings). Qed.

Lemma Stage_new_built context settings done (f : @PassManager Body → @PassManager Body) :
  PassManagerStage_new (ctx (built context settings done)) settings f =
  (configured context settings,
   {| pm := f (configure context settings).2; jumps := []; next_stage := None |}).
Proof.
  unfold PassManagerStage_new.
  pose proof (configure_context (ctx (built context settings done)) settings) as H1.
  pose proof (configure_pm (ctx (built context settings done)) context settings) as H2.
  destruct (configure (ctx (built context settings done)) settings) as [c p].
  simpl in H1, H2. subst c p. f_equal.
  destruct done; simpl; [done | apply configured_twice].
Qed.

(** ** The first loop: [add_stage] *)

Lemma stages_map_lookup_from (k : nat) registry (p : N) :
  (list_to_map (imap (λ i d, (data (info_name d), k + i)) registry) : gmap N StageId) !! p
  = (λ x, k + x.1) <$> list_find (λ d, data (info_name d) = p) registry.
Proof.
  revert k. induction registry as [|d registry IH]; intros k; [done |].
  rewrite imap_cons. cbn [list_to_map foldr list_find]. simpl.
  case_decide as Hd.
  - rewrite Hd, lookup_insert_eq. simpl. by rewrite Nat.add_0_r.
  - rewrite lookup_insert_ne by done.
    rewrite (imap_ext _ (λ i d, (data (info_name d), S k + i))).
    2:{ intros i x _. simpl. f_equal. lia. }
    rewrite IH. destruct (list_find _ registry) as [[i x]|]; simpl; [|done].
    f_equal. lia.
Qed.

Lemma stages_map_built context settings registry (p : N) :
  stages_map (built context settings registry) !! p = stage_of_buffer registry p.
Proof.
  unfold built, stage_of_buffer. simpl.
  rewrite (stages_map_lookup_from 0).
  by destruct (list_find _ registry) as [[i x]|].
Qed.

Lemma stage_of_buffer_None registry (p : N) :
  stage_of_buffer registry p = None ↔ p ∉ buffers registry.
Proof.
  unfold stage_of_buffer, buffers. rewrite fmap_None, list_find_None, Forall_forall.
  rewrite list_elem_of_fmap. split.
  - intros H (d & -> & Hd). by apply (H d).
  - intros H d Hd Heq. apply H. exists d. by split.
Qed.

Lemma stage_of_buffer_Some registry (p : N) (i : StageId) :
  stage_of_buffer registry p = Some i →
  ∃ d, registry !! i = Some d ∧ data (info_name d) = p.
Proof.
  unfold stage_of_buffer. intros H. apply fmap_Some in H as ([j d] & Hfind & ->).
  apply list_find_Some in Hfind as (Hd & Hp & _). eauto.
Qed.

Lemma stages_map_empty context settings registry :
  size (stages_map (built context settings registry)) = 0 ↔ registry = [].
Proof.
  rewrite map_size_empty_iff. destruct registry as [|d registry]; [done |].
  split; [|done]. intros H. exfalso.
  apply (f_equal (λ m : gmap N StageId, m !! data (info_name d))) in H.
  revert H. unfold built. simpl. rewrite lookup_insert_eq, lookup_empty. done.
Qed.

Lemma length_stages_temp context settings registry :
  length (stages_temp (built context settings registry)) = length registry.
Proof. unfold built. simpl. apply length_imap. Qed.

Lemma stages_temp_lookup context settings registry (i : nat) :
  stages_temp (built context settings registry) !! i =
  (λ d, {| desc_name := info_name d; desc_jumps := info_jumps d;
           desc_stage :=
             {| pm := info_init d (configure context settings).2; jumps := [];
                next_stage := default_next (length registry) i |} |})
  <$> registry !! i.
Proof. unfold built. simpl. by rewrite list_lookup_imap. Qed.

Lemma default_next_last (n : nat) : default_next (S n) n = None.
Proof. unfold default_next. case_bool_decide; [lia | done]. Qed.

Lemma default_next_inner (n i : nat) : S i < n → default_next n i = Some (S i).
Proof. unfold default_next. intros. case_bool_decide; [done | lia]. Qed.

Lemma imap_keys {A B C} (key : A → B) (g : nat → A → C) (l : list A) :
  (imap (λ i x, (key x, g i x)) l).*1 = key <$> l.
Proof.
  revert g. induction l as [|x l IH]; intros g; [done |].
  rewrite imap_cons. simpl. f_equal. apply (IH (λ i, g (S i))).
Qed.

Lemma stages_map_snoc context settings done d :
  data (info_name d) ∉ buffers done →
  <[data (info_name d) := length done]> (stages_map (built context settings done))
  = stages_map (built context settings (done ++ [d])).
Proof.
  intros Hfresh. unfold built. simpl. rewrite imap_app. simpl.
  rewrite list_to_map_snoc, Nat.add_0_r; [done |].
  by rewrite (imap_keys (λ d, data (info_name d)) (λ i _, i)).
Qed.

Lemma back_stage_snoc context settings done (x : StageDesc (Body := Body)) :
  back_stage (stages_temp (built context settings done) ++ [x]) = length done.
Proof.
  unfold back_stage. rewrite length_app, length_stages_temp. simpl. lia.
Qed.

(** The new stage becomes the successor of the stage pushed before it. *)
Lemma link_previous context settings done d :
  done ≠ [] →
  with_stage
    (stages_temp (built context settings done) ++
     [{| desc_name := info_name d; desc_jumps := info_jumps d;
         desc_stage := {| pm := info_init d (configure context settings).2;
                          jumps := []; next_stage := None |} |}])
    (back_stage (stages_temp (built context settings done)))
    (λ st, set_next_stage st (length done))
  = Ok (stages_temp (built context settings (done ++ [d]))).
Proof.
  intros Hne.
  assert (0 < length done) as Hpos by (destruct done; [done | simpl; lia]).
  unfold with_stage, back_stage. rewrite length_stages_temp.
  destruct (lookup_lt_is_Some_2 done (length done - 1)) as [dp Hdp]; [lia |].
  rewrite lookup_app_l by (rewrite length_stages_temp; lia).
  rewrite stages_temp_lookup, Hdp.
  cbn [fmap option_fmap option_map desc_stage desc_name desc_jumps].
  unfold set_next_stage. cbn [next_stage pm jumps].
  replace (default_next (length done) (length done - 1)) with (@None StageId).
  2:{ unfold default_next. case_bool_decide; [lia | done]. }
  cbn [bool_decide decide_rel assert_ mbind Exec_bind mret Exec_ret].
  rewrite bool_decide_eq_true_2 by done.
  cbn [bool_decide decide_rel assert_ mbind Exec_bind mret Exec_ret].
  f_equal. apply list_eq. intros i.
  rewrite stages_temp_lookup, length_app. cbn [length].
  destruct (decide (i = length done - 1)) as [->|Hi].
  - rewrite list_lookup_insert_eq
      by (rewrite length_app, length_stages_temp; simpl; lia).
    rewrite lookup_app_l by lia. rewrite Hdp.
    cbn [fmap option_fmap option_map].
    rewrite default_next_inner by lia.
    do 4 f_equal. lia.
  - rewrite list_lookup_insert_ne by done.
    destruct (decide (i < length done)) as [Hlt|Hge].
    + rewrite !lookup_app_l by (rewrite ?length_stages_temp; done).
      rewrite stages_temp_lookup. destruct (done !! i); [|done].
      cbn [fmap option_fmap option_map].
      rewrite !default_next_inner by lia. done.
    + rewrite !lookup_app_r by (rewrite ?length_stages_temp; lia).
      rewrite length_stages_temp.
      destruct (i - length done) as [|k] eqn:Hk; [|done].
      assert (i = length done) as -> by lia.
      cbn [lookup list_lookup fmap option_fmap option_map].
      rewrite Nat.add_1_r, default_next_last. done.
Qed.

(** [add_stage] after the descriptors [done]: the two assertions, and
    otherwise the locals for [done] followed by the new descriptor. *)
Lemma add_stage_built context settings done d :
  add_stage settings (built context settings done)
            (info_name d) (info_jumps d) (info_init d) =
  if StringRef_empty (info_name d) then AssertionFailed 131
  else if bool_decide (data (info_name d) ∈ buffers done) then AssertionFailed 137
  else Ok (built context settings (done ++ [d])).
Proof.
  unfold add_stage. destruct (StringRef_empty (info_name d)); [done |].
  cbn [negb assert_ mbind Exec_bind].
  rewrite Stage_new_built, stages_map_built, back_stage_snoc.
  destruct (decide (data (info_name d) ∈ buffers done)) as [Hin|Hin].
  - rewrite (bool_decide_eq_true_2 (_ ∈ _)) by done.
    rewrite (bool_decide_eq_false_2 (stage_of_buffer _ _ = None)); [done |].
    by intros H%stage_of_buffer_None.
  - rewrite (bool_decide_eq_false_2 (_ ∈ _)) by done.
    rewrite (bool_decide_eq_true_2 (stage_of_buffer _ _ = None))
      by (by apply stage_of_buffer_None).
    cbn [assert_ mbind Exec_bind].
    rewrite stages_map_snoc by done.
    destruct (decide (done = [])) as [->|Hne].
    + done.
    + rewrite bool_decide_eq_false_2 by (by rewrite stages_map_empty).
      rewrite link_previous by done.
      destruct done; done.
Qed.

Lemma StringRef_empty_false (r : StringRef) :
  StringRef_empty r = false ↔ length_ r ≠ 0.
Proof. unfold StringRef_empty. by rewrite Nat.eqb_neq. Qed.

Lemma buffers_snoc done d : buffers (done ++ [d]) = buffers done ++ [data (info_name d)].
Proof. unfold buffers. by rewrite fmap_app. Qed.

(** The first loop over a whole description. *)
Lemma populate_built context settings rest : ∀ done b',
  populate_pass_manager rest (add_stage settings) (built context settings done) = Ok b' ↔
  (∀ d, d ∈ rest → length_ (info_name d) ≠ 0) ∧
  NoDup (buffers rest) ∧
  (∀ d, d ∈ rest → data (info_name d) ∉ buffers done) ∧
  b' = built context settings (done ++ rest).
Proof.
  induction rest as [|d rest IH]; intros done b'.
  - simpl. rewrite app_nil_r. split.
    + intros [= <-]. split_and!; [by intros ? ?%elem_of_nil | constructor
                                  | by intros ? ?%elem_of_nil | done].
    + by intros (_ & _ & _ & ->).
  - cbn [populate_pass_manager]. rewrite add_stage_built.
    destruct (StringRef_empty (info_name d)) eqn:Hempty.
    { split; [done |]. intros (Hne & _). exfalso.
      apply (Hne d); [left |]. unfold StringRef_empty in Hempty.
      by apply Nat.eqb_eq in Hempty. }
    apply StringRef_empty_false in Hempty.
    case_bool_decide as Hin.
    { split; [done |]. intros (_ & _ & Hfresh & _). exfalso.
      apply (Hfresh d); [left | done]. }
    cbn [mbind Exec_bind]. rewrite IH, buffers_snoc, <-(assoc_L (++)). simpl.
    rewrite NoDup_cons. split.
    + intros (Hne & Hnd & Hfresh & ->). split_and!; [| |done| |done].
      * intros d' [->|H]%elem_of_cons; auto.
      * intros Hd. apply list_elem_of_fmap in Hd as (d' & Heq & Hd').
        apply (Hfresh d' Hd'). rewrite <-Heq. apply elem_of_app. right. left.
      * intros d' [->|H]%elem_of_cons; [done |].
        intros Hd'. apply (Hfresh d' H). apply elem_of_app. by left.
    + intros (Hne & (Hd & Hnd) & Hfresh & ->). split_and!; [|done| |done].
      * intros d' H. apply Hne. by right.
      * intros d' H [Hold|Hnew%list_elem_of_singleton]%elem_of_app.
        -- apply (Hfresh d'); [by right | done].
        -- apply Hd. rewrite <-Hnew. apply list_elem_of_fmap. eauto.
Qed.

Lemma populate_defined context settings rest : ∀ done,
  populate_pass_manager rest (add_stage settings) (built context settings done)
  ≠ Undefined.
Proof.
  induction rest as [|d rest IH]; intros prior; [done |].
  cbn [populate_pass_manager]. rewrite add_stage_built.
  destruct (StringRef_empty (info_name d)); [done |].
  case_bool_decide; [done |]. apply IH.
Qed.

(** ** The second loop: the jump edges *)

Lemma read_chars_nonempty (mem : Memory) (r : StringRef) :
  length_ r ≠ 0 → StringRef_str mem r ≠ EmptyString.
Proof. unfold StringRef_str. destruct (length_ r); [done | discriminate]. Qed.

Lemma resolve_jumps_spec (mem : Memory) (map : gmap N StageId) js : ∀ st st',
  resolve_jumps mem map st js = Ok st' ↔
  (∀ j, j ∈ js → length_ j ≠ 0 ∧ is_Some (map !! data j)) ∧
  st' = {| pm := pm st; jumps := jumps st ++ resolved mem map js;
           next_stage := next_stage st |}.
Proof.
  induction js as [|j js IH]; intros st st'.
  - simpl. rewrite app_nil_r. destruct st. simpl. split.
    + intros [= <-]. split; [by intros ? ?%elem_of_nil | done].
    + by intros [_ ->].
  - cbn [resolve_jumps]. unfold resolve_jump.
    destruct (StringRef_empty j) eqn:Hempty.
    { split; [done |]. intros [H _]. exfalso.
      destruct (H j) as [Hne _]; [left |]. unfold StringRef_empty in Hempty.
      by apply Nat.eqb_eq in Hempty. }
    apply StringRef_empty_false in Hempty. cbn [negb assert_ mbind Exec_bind].
    destruct (map !! data j) as [t|] eqn:Ht.
    2:{ split; [done |]. intros [H _]. exfalso.
        destruct (H j) as [_ [? Hsome]]; [left |]. by rewrite Ht in Hsome. }
    unfold add_jump.
    rewrite bool_decide_eq_false_2 by (by apply read_chars_nonempty).
    cbn [negb assert_ mbind Exec_bind mret Exec_ret]. rewrite IH.
    cbn [pm jumps next_stage]. unfold resolved. cbn [omap list_omap].
    rewrite Ht. cbn [fmap option_fmap option_map]. rewrite <-(assoc_L (++)).
    split.
    + intros [H ->]. split; [|done].
      intros j' [->|Hj']%elem_of_cons; [by rewrite Ht | by apply H].
    + intros [H ->]. split; [|done]. intros j' Hj'. apply H. by right.
Qed.

Lemma resolve_jumps_defined (mem : Memory) (map : gmap N StageId) js : ∀ st,
  resolve_jumps mem map st js ≠ Undefined.
Proof.
  induction js as [|j js IH]; intros st; [done |].
  cbn [resolve_jumps]. unfold resolve_jump.
  destruct (StringRef_empty j); [done |]. cbn [negb assert_ mbind Exec_bind].
  destruct (map !! data j); [|done]. unfold add_jump.
  destruct (negb _); [|done]. cbn [assert_ mbind Exec_bind mret Exec_ret]. apply IH.
Qed.

Lemma wire_jumps_spec (mem : Memory) (map : gmap N StageId)
    (temp : list (StageDesc (Body := Body))) : ∀ temp',
  wire_jumps mem map temp = Ok temp' ↔
  (∀ sd j, sd ∈ temp → j ∈ desc_jumps sd →
           length_ j ≠ 0 ∧ is_Some (map !! data j)) ∧
  temp' = with_edges mem map <$> temp.
Proof.
  induction temp as [|sd temp IH]; intros temp'.
  - simpl. split.
    + intros [= <-]. split; [by intros ? ? ?%elem_of_nil | done].
    + by intros [_ ->].
  - cbn [wire_jumps].
    destruct (resolve_jumps mem map (desc_stage sd) (desc_jumps sd)) as [st| |] eqn:Hst.
    + apply resolve_jumps_spec in Hst as [Hjs ->]. cbn [mbind Exec_bind].
      destruct (wire_jumps mem map temp) as [rest| |].
      * destruct (IH rest) as [[Hrest ->] _]; [done |].
        cbn [mbind Exec_bind mret Exec_ret]. split.
        -- intros [= <-]. split; [|done].
           intros sd' j [->|H]%elem_of_cons; eauto.
        -- by intros [_ ->].
      * cbn [mbind Exec_bind]. split; [done |]. intros [H _]. exfalso.
        destruct (IH (with_edges mem map <$> temp)) as [_ Hok].
        discriminate Hok. split; [|done].
        intros sd' j ? ?. apply (H sd'); [by right | done].
      * cbn [mbind Exec_bind]. split; [done |]. intros [H _]. exfalso.
        destruct (IH (with_edges mem map <$> temp)) as [_ Hok].
        discriminate Hok. split; [|done].
        intros sd' j ? ?. apply (H sd'); [by right | done].
    + cbn [mbind Exec_bind]. split; [done |]. intros [H _]. exfalso.
      assert (resolve_jumps mem map (desc_stage sd) (desc_jumps sd)
              = Ok (desc_stage (with_edges mem map sd))) as Hok.
      { apply resolve_jumps_spec. split; [|done]. intros j ?. apply (H sd); [left | done]. }
      by rewrite Hok in Hst.
    + by apply resolve_jumps_defined in Hst.
Qed.

Lemma wire_jumps_defined (mem : Memory) (map : gmap N StageId)
    (temp : list (StageDesc (Body := Body))) :
  wire_jumps mem map temp ≠ Undefined.
Proof.
  induction temp as [|sd temp IH]; [done |]. cbn [wire_jumps].
  destruct (resolve_jumps mem map (desc_stage sd) (desc_jumps sd)) as [st| |] eqn:Hst;
    [|done|by apply resolve_jumps_defined in Hst].
  cbn [mbind Exec_bind]. by destruct (wire_jumps mem map temp).
Qed.

Lemma resolved_built (mem : Memory) context settings registry js :
  resolved mem (stages_map (built context settings registry)) js
  = edges mem registry js.
Proof.
  unfold resolved, edges. apply list_eq. intros i.
  induction js as [|j js IH] in i |- *; [done |].
  cbn [omap list_omap]. rewrite stages_map_built.
  destruct (stage_of_buffer registry (data j)); simpl; [|apply IH].
  destruct i; [done | apply IH].
Qed.

Lemma wired_stages (mem : Memory) context settings registry :
  desc_stage <$> (with_edges mem (stages_map (built context settings registry))
                  <$> stages_temp (built context settings registry))
  = stages (wired mem context settings registry).
Proof.
  apply list_eq. intros i. unfold wired. cbn [stages].
  rewrite !list_lookup_fmap, stages_temp_lookup, list_lookup_imap.
  destruct (registry !! i); [|done].
  cbn [fmap option_fmap option_map]. unfold with_edges.
  cbn [desc_stage desc_jumps desc_name pm jumps next_stage app].
  by rewrite resolved_built.
Qed.

(** The constructor returns exactly on the accepted descriptions, with the
    wired schedule; it aborts on an assertion on every other one. *)
Lemma construction_spec (mem : Memory) context settings registry ctx' s :
  PassManagerSchedule_new mem context settings registry = Ok (ctx', s) ↔
  accepted registry ∧
  ctx' = match registry with [] => context | _ :: _ => configured context settings end ∧
  s = wired mem context settings registry.
Proof.
  unfold PassManagerSchedule_new.
  change {| ctx := context; stages_temp := []; stages_map := ∅ |}
    with (built (Body := Body) context settings []).
  pose proof (populate_built context settings registry [] ) as Hpop.
  destruct (populate_pass_manager registry (add_stage settings)
              (built context settings [])) as [b| |].
  - destruct (Hpop b) as [(Hne & Hnd & _ & ->) _]; [done |]. simpl in *.
    cbn [mbind Exec_bind].
    pose proof (wire_jumps_spec mem (stages_map (built context settings registry))
                  (stages_temp (built context settings registry))) as Hwire.
    pose proof (wire_jumps_defined mem (stages_map (built context settings registry))
                  (stages_temp (built context settings registry))) as Hdef.
    destruct (wire_jumps mem _ _) as [temp| |].
    + destruct (Hwire temp) as [[Hjs ->] _]; [done |].
      cbn [mbind Exec_bind mret Exec_ret]. rewrite wired_stages.
      split.
      * intros [= <- <-]. split_and!; [|by destruct registry | done].
        split_and!; [done | done |].
        intros d j Hd Hj. apply list_elem_of_lookup in Hd as [i Hd].
        destruct (Hjs {| desc_name := info_name d; desc_jumps := info_jumps d;
                         desc_stage := {| pm := info_init d (configure context settings).2;
                                          jumps := [];
                                          next_stage := default_next (length registry) i |} |} j)
          as [Hlen Hsome]; [|done|].
        { apply list_elem_of_lookup. exists i. by rewrite stages_temp_lookup, Hd. }
        split; [done |]. rewrite stages_map_built in Hsome.
        apply dec_stable. intros Hnot%stage_of_buffer_None.
        rewrite Hnot in Hsome. by destruct Hsome.
      * intros (_ & -> & ->). by destruct registry.
    + cbn [mbind Exec_bind]. split; [done |]. intros ((_ & _ & Hjs) & _). exfalso.
      destruct (Hwire (with_edges mem (stages_map (built context settings registry))
                       <$> stages_temp (built context settings registry))) as [_ Hok].
      discriminate Hok. split; [|done]. intros sd j Hsd Hj.
      apply list_elem_of_lookup in Hsd as [i Hsd].
      rewrite stages_temp_lookup in Hsd. apply fmap_Some in Hsd as (d & Hd & ->).
      destruct (Hjs d j) as [Hlen Hin]; [by eapply list_elem_of_lookup_2 | done |].
      split; [done |]. rewrite stages_map_built.
      destruct (stage_of_buffer registry (data j)) eqn:Hsome; [done |].
      by apply stage_of_buffer_None in Hsome.
    + done.
  - cbn [mbind Exec_bind]. split; [done |]. intros ((Hne & Hnd & _) & _). exfalso.
    destruct (Hpop (built context settings registry)) as [_ Hok].
    discriminate Hok. split_and!; [done | done | | done].
    intros ? _. apply not_elem_of_nil.
  - cbn [mbind Exec_bind]. split; [done |]. intros ((Hne & Hnd & _) & _). exfalso.
    destruct (Hpop (built context settings registry)) as [_ Hok].
    discriminate Hok. split_and!; [done | done | | done].
    intros ? _. apply not_elem_of_nil.
Qed.

Lemma construction_defined (mem : Memory) context settings registry :
  PassManagerSchedule_new mem context settings registry ≠ Undefined.
Proof.
  unfold PassManagerSchedule_new.
  change {| ctx := context; stages_temp := []; stages_map := ∅ |}
    with (built (Body := Body) context settings []).
  pose proof (populate_defined context settings registry []) as Hpop.
  destruct (populate_pass_manager registry (add_stage settings)
              (built context settings [])) as [b| |]; [|done..].
  cbn [mbind Exec_bind].
  pose proof (wire_jumps_defined mem (stages_map b) (stages_temp b)) as Hwire.
  by destruct (wire_jumps mem (stages_map b) (stages_temp b)).
Qed.

(** C5, as amended.  A description in which some jump starts at an address
    at which no stage name starts, or in which two stage descriptors have
    names that start at the same address, makes the constructor abort on an
    assertion: it yields no schedule, so that no run can start. *)
Theorem construction_rejects_unknown_buffers (mem : Memory) context settings registry :
  (∃ d j, d ∈ registry ∧ j ∈ info_jumps d ∧ data j ∉ buffers registry) ∨
  (∃ i k d d', i ≠ k ∧ registry !! i = Some d ∧ registry !! k = Some d' ∧
               data (info_name d) = data (info_name d')) →
  ∃ line, PassManagerSchedule_new mem context settings registry = AssertionFailed line.
Proof.
  intros Hbad.
  destruct (PassManagerSchedule_new mem context settings registry) as [[ctx' s]|line|] eqn:Hnew.
  - exfalso. apply construction_spec in Hnew as ((_ & Hnd & Hjs) & _).
    destruct Hbad as [(d & j & Hd & Hj & Hout)|(i & k & d & d' & Hne & Hi & Hk & Heq)].
    + by destruct (Hjs d j Hd Hj).
    + apply Hne. eapply NoDup_lookup; [exact Hnd | |].
      * unfold buffers. by rewrite list_lookup_fmap, Hi.
      * unfold buffers. rewrite list_lookup_fmap, Hk. simpl. by rewrite Heq.
  - eauto.
  - by apply construction_defined in Hnew.
Qed.

(** C9.  The constructor returns exactly when names and jumps are not empty,
    no two stage names start at the same address and every jump starts at
    the address of a stage name: the characters the names hold play no part,
    so that names with equal characters in distinct buffers pass.  When it
    returns, the edges of a stage are its declared jumps in order, each
    under the characters of the jump, to a stage whose name starts at the
    address the jump starts at. *)
Theorem stage_lookup_keyed_on_buffer (mem : Memory) context settings registry :
  ((∃ ctx' s, PassManagerSchedule_new mem context settings registry = Ok (ctx', s))
   ↔ accepted registry) ∧
  (∀ ctx' s, PassManagerSchedule_new mem context settings registry = Ok (ctx', s) →
     ∀ i d, registry !! i = Some d →
       ∃ st, stages s !! i = Some st ∧
         Forall2 (λ j it, it.1 = StringRef_str mem j ∧
                          ∃ d', registry !! it.2 = Some d' ∧
                                data (info_name d') = data j)
                 (info_jumps d) (jumps st)).
Proof.
  split.
  - split.
    + intros (ctx' & s & Hnew). by apply construction_spec in Hnew as (? & _).
    + intros Hacc. eexists _, _. apply construction_spec. done.
  - intros ctx' s Hnew i d Hd.
    apply construction_spec in Hnew as ((_ & _ & Hjs) & _ & ->).
    unfold wired. cbn [stages]. rewrite list_lookup_imap, Hd. eexists. split; [done |].
    cbn [jumps]. assert (∀ j, j ∈ info_jumps d → data j ∈ buffers registry) as Hin.
    { intros j Hj. by destruct (Hjs d j (list_elem_of_lookup_2 _ _ _ Hd) Hj). }
    clear Hjs Hd. unfold edges.
    induction (info_jumps d) as [|j js IH]; [constructor |].
    cbn [omap list_omap].
    destruct (stage_of_buffer registry (data j)) as [t|] eqn:Ht.
    + cbn [fmap option_fmap option_map]. constructor.
      * split; [done |]. by apply stage_of_buffer_Some.
      * apply IH. intros j' Hj'. apply Hin. by right.
    + apply stage_of_buffer_None in Ht. destruct Ht. apply Hin. left.
Qed.


(** C8, as amended.  The constructor of a stage, on the settings.  With
    [irPrinting] supplied the context is left serialized, and the pass
    manager handed to [init_func] received, as its last configuration of IR
    printing, the two checkers over the configured name lists, module scope,
    printing after a pass only on change and not only on failure, to the
    configured stream.  When [irDumpStderr] is not set that call is the only
    one, and the IR is printed before (after) a pass exactly when its name,
    without the prefixes of an anonymous namespace, is in the list of names
    to print before (after).  When [irDumpStderr] is set too the printer with
    the default arguments comes first, and the IR is printed before and
    after every pass.  With [irDumpStderr] set the context is left
    serialized as well, and with neither option it is left as it was. *)
Theorem ir_printing_serializes (context : MLIRContext) (settings : Settings)
    (init_func : @PassManager Body → @PassManager Body) :
  let made := PassManagerStage_new context settings init_func in
  let handed := (configure (Body := Body) context settings).2 in
  pm made.2 = init_func handed ∧
  (∀ printing, irPrinting settings = Some printing →
     multithreading made.1 = false ∧
     pm_ir_printing handed =
       (if irDumpStderr settings then [IRPrintingDefault] else []) ++
       [IRPrintingConfig {| names := printBefore printing |}
                         {| names := printAfter printing |}
                         true true false (out printing)]) ∧
  (irDumpStderr settings = true →
     multithreading made.1 = false ∧ IRPrintingDefault ∈ pm_ir_printing handed) ∧
  (irDumpStderr settings = false → irPrinting settings = None →
     made.1 = context ∧ pm_ir_printing handed = []) ∧
  (∀ (allowed : list string) (pass_name : string),
     Checker_call {| names := allowed |} pass_name = true ↔
     consume_front "{anonymous}::"
       (consume_front "`anonymous-namespace'::" pass_name) ∈ allowed) ∧
  (∀ printing, irPrinting settings = Some printing →
     irDumpStderr settings = false →
     ∀ pass_name,
       let name := consume_front "{anonymous}::"
                     (consume_front "`anonymous-namespace'::" pass_name) in
       (prints_before handed pass_name = true ↔ name ∈ printBefore printing) ∧
       (prints_after handed pass_name = true ↔ name ∈ printAfter printing)) ∧
  (∀ printing, irPrinting settings = Some printing →
     irDumpStderr settings = true →
     ∀ pass_name,
       prints_before handed pass_name = true ∧ prints_after handed pass_name = true).
Proof.
  intros made handed.
  assert (pm_ir_printing handed =
          (if irDumpStderr settings then [IRPrintingDefault] else []) ++
          match irPrinting settings with
          | Some printing =>
              [IRPrintingConfig {| names := printBefore printing |}
                                {| names := printAfter printing |}
                                true true false (out printing)]
          | None => []
          end) as Hprinting.
  { unfold handed, configure.
    by destruct (passStatistics settings), (passTimings settings),
               (irDumpStderr settings), (irPrinting settings). }
  assert (made = (configured context settings,
                  {| pm := init_func handed; jumps := []; next_stage := None |}))
    as ->.
  { unfold made, PassManagerStage_new, handed.
    rewrite <-(configure_context context settings).
    by destruct (configure context settings). }
  cbn [fst snd pm]. unfold configured, serializing. split_and!.
  - done.
  - intros printing Hsome. rewrite Hprinting, Hsome. done.
  - intros Hdump. rewrite Hprinting, Hdump.
    split; [by destruct (irPrinting settings) | left].
  - intros Hdump Hnone. rewrite Hprinting, Hdump, Hnone. done.
  - intros allowed pass_name. unfold Checker_call. cbn [names].
    by rewrite bool_decide_eq_true.
  - intros printing Hsome Hdump pass_name.
    unfold prints_before, prints_after. rewrite Hprinting, Hsome, Hdump.
    cbn [app existsb shouldPrintBeforePass shouldPrintAfterPass].
    rewrite !orb_false_r. unfold Checker_call. cbn [names].
    by rewrite !bool_decide_eq_true.
  - intros printing Hsome Hdump pass_name.
    unfold prints_before, prints_after. rewrite Hprinting, Hsome, Hdump. done.
Qed.

End Construction.

(** * The failure report *)

Section Report.

Context {Body : Type} (ModuleOp_print : ModuleOp (Body := Body) → string).
Implicit Types (err text part : string) (d : Diagnostic).

Lemma string_app_assoc (a b c : string) : (a +:+ b) +:+ c = a +:+ b +:+ c.
Proof.
  induction a as [|x a IH]; [done |].
  change (String x ((a +:+ b) +:+ c) = String x (a +:+ b +:+ c)). by rewrite IH.
Qed.

Lemma string_app_nil_r (a : string) : a +:+ EmptyString = a.
Proof.
  induction a as [|x a IH]; [done |].
  change (String x (a +:+ EmptyString) = String x a). by rewrite IH.
Qed.

Lemma occurs_in_refl part : occurs_in part part.
Proof. exists EmptyString, EmptyString. by rewrite string_app_nil_r. Qed.

Lemma occurs_in_app_l part text more : occurs_in part text → occurs_in part (text +:+ more).
Proof.
  intros (before & after & ->). exists before, (after +:+ more).
  by rewrite !string_app_assoc.
Qed.

Lemma occurs_in_app_r part text more : occurs_in part text → occurs_in part (more +:+ text).
Proof.
  intros (before & after & ->). exists (more +:+ before), after.
  by rewrite !string_app_assoc.
Qed.

(** The notes of an error are appended one by one, each on a new line. *)
Lemma notes_extend (notes : list Diagnostic) : ∀ err,
  ∃ more, fold_left (λ err note, err +:+ LF +:+ diag_str note) notes err = err +:+ more.
Proof.
  induction notes as [|n notes IH]; intros err; simpl.
  - exists EmptyString. by rewrite string_app_nil_r.
  - destruct (IH (err +:+ LF +:+ diag_str n)) as [more ->].
    eexists. by rewrite string_app_assoc.
Qed.

Lemma notes_occur (notes : list Diagnostic) : ∀ err note,
  note ∈ notes →
  occurs_in (diag_str note)
    (fold_left (λ err note, err +:+ LF +:+ diag_str note) notes err).
Proof.
  induction notes as [|n notes IH]; intros err note Hin; [by apply elem_of_nil in Hin |].
  simpl. apply elem_of_cons in Hin as [->|Hin]; [|by apply IH].
  destruct (notes_extend notes (err +:+ LF +:+ diag_str n)) as [more ->].
  apply occurs_in_app_l, occurs_in_app_r, occurs_in_app_r, occurs_in_refl.
Qed.

Lemma diag_handler_extends err d : ∃ more, diag_handler err d = err +:+ more.
Proof.
  unfold diag_handler. destruct (is_error (getSeverity d)).
  - destruct (notes_extend (getNotes d) (err +:+ diag_str d)) as [more ->].
    eexists. by rewrite string_app_assoc.
  - exists EmptyString. by rewrite string_app_nil_r.
Qed.

Lemma scoped_extends (raised : list Diagnostic) : ∀ err,
  ∃ more, scoped_diag_handler diag_handler err raised = err +:+ more.
Proof.
  unfold scoped_diag_handler.
  induction raised as [|d raised IH]; intros err; simpl.
  - exists EmptyString. by rewrite string_app_nil_r.
  - destruct (diag_handler_extends err d) as [m1 ->].
    destruct (IH (err +:+ m1)) as [m2 ->]. eexists. by rewrite string_app_assoc.
Qed.

(** Every error raised under the handler, and every note of it, is in the
    text the handler has gathered. *)
Lemma scoped_gathers (raised : list Diagnostic) : ∀ err d,
  d ∈ raised → getSeverity d = Error →
  occurs_in (diag_str d) (scoped_diag_handler diag_handler err raised) ∧
  ∀ note, note ∈ getNotes d →
    occurs_in (diag_str note) (scoped_diag_handler diag_handler err raised).
Proof.
  induction raised as [|d' raised IH]; intros err d Hin Herr;
    [by apply elem_of_nil in Hin |].
  apply elem_of_cons in Hin as [<-|Hin]; [|by apply IH].
  unfold scoped_diag_handler. simpl.
  destruct (scoped_extends raised (diag_handler err d)) as [more Hmore].
  unfold scoped_diag_handler in Hmore. rewrite Hmore.
  unfold diag_handler. rewrite Herr. cbn [is_error]. split.
  - destruct (notes_extend (getNotes d) (err +:+ diag_str d)) as [m ->].
    apply occurs_in_app_l, occurs_in_app_l, occurs_in_app_r, occurs_in_refl.
  - intros note Hnote. by apply occurs_in_app_l, notes_occur.
Qed.

(** C4.  [CompilerContextImpl::run] ends in the fatal error exactly when the
    run of the schedule returns failure.  The text of the error is the
    heading, the text gathered from the errors raised during the run, a line
    feed and the printed module as the failed run left it: the printed
    module occurs in it, and so do the message of every error raised and of
    each of its notes.  When the run of the schedule returns success the
    call returns normally with the module and carries no text. *)
Theorem fatal_error_iff_schedule_fails (fuel : nat)
    (schedule : PassManagerSchedule (Body := Body)) (module : ModuleOp (Body := Body)) :
  ((∃ text, CompilerContextImpl_run ModuleOp_print fuel schedule module
            = Some (Ok (Fatal text)))
   ↔ ∃ c, Schedule_run fuel schedule module = Some (Ok failure, c)) ∧
  (∀ c, Schedule_run fuel schedule module = Some (Ok failure, c) →
     ∃ text,
       CompilerContextImpl_run ModuleOp_print fuel schedule module
         = Some (Ok (Fatal text)) ∧
       text = "MLIR pipeline failed" +:+ LF +:+
              scoped_diag_handler diag_handler EmptyString (emitted c) +:+ LF +:+
              ModuleOp_print (the_module c) ∧
       occurs_in (ModuleOp_print (the_module c)) text ∧
       ∀ d, d ∈ emitted c → getSeverity d = Error →
         occurs_in (diag_str d) text ∧
         ∀ note, note ∈ getNotes d → occurs_in (diag_str note) text) ∧
  (∀ c, Schedule_run fuel schedule module = Some (Ok success, c) →
     CompilerContextImpl_run ModuleOp_print fuel schedule module
       = Some (Ok (Normal (the_module c)))).
Proof.
  unfold CompilerContextImpl_run.
  destruct (Schedule_run fuel schedule module) as [[[[|]|line|] c]|].
  - (* success *)
    cbn [failed]. split_and!.
    + split; [intros [? [=]] | intros [? [=]]].
    + intros ? [=].
    + by intros c' [= <-].
  - (* failure *)
    cbn [failed report_error]. split_and!.
    + split; eauto.
    + intros c' [= <-]. eexists. split; [done |].
      split; [by rewrite string_app_assoc |]. split.
      * apply occurs_in_app_r, occurs_in_app_r, occurs_in_app_r, occurs_in_refl.
      * intros d Hd Herr.
        destruct (scoped_gathers (emitted c) EmptyString d Hd Herr) as [Hmsg Hnotes].
        split.
        -- by apply occurs_in_app_r, occurs_in_app_r, occurs_in_app_l, occurs_in_app_l.
        -- intros note Hnote.
           by apply occurs_in_app_r, occurs_in_app_r, occurs_in_app_l,
                    occurs_in_app_l, Hnotes.
    + intros ? [=].
  - split_and!; [split; intros [? [=]] | intros ? [=] | intros ? [=]].
  - split_and!; [split; intros [? [=]] | intros ? [=] | intros ? [=]].
  - split_and!; [split; intros [? [=]] | intros ? [=] | intros ? [=]].
Qed.

End Report.

(** * Runs of constructed schedules *)

Section Runs.

Context {Body : Type}.
Implicit Types (s : PassManagerSchedule (Body := Body)).
Implicit Types (st : PassManagerStage (Body := Body)).
Implicit Types (module : ModuleOp (Body := Body)).
Implicit Types (c : Config (Body := Body)).
Implicit Types (A B C : StageInfo (Body := Body)).

Lemma get_jump_no_edges st (names : option (list StringAttr)) :
  jumps st = [] → get_jump st names = (None, None).
Proof. intros H. unfold get_jump. rewrite H. by destruct names. Qed.

(** A turn of the loop at a stage that succeeds and takes no jump. *)
Lemma step_fall_through s c current st module1 diags :
  control c = At current →
  stages s !! current = Some st →
  Stage_run st (the_module c) = (success, module1, diags) →
  get_jump st (get_pipeline_jump_markers module1) = (None, None) →
  step s c =
    {| control := match next_stage st with
                  | Some next => At next
                  | None => Returned success
                  end;
       the_module := module1;
       events := events c ++ [EvRun current; EvGetMarkers; EvGetNextStage];
       emitted := emitted c ++ diags |}.
Proof.
  intros Hat Hst Hrun Hjump. unfold step. rewrite Hat. unfold loop_body.
  rewrite Hst, Hrun. cbn [failed]. rewrite Hjump. cbn [fst].
  unfold get_next_stage. by destruct (next_stage st).
Qed.

(** A turn of the loop at a stage that succeeds and takes the jump [name]. *)
Lemma step_jump s c current st module1 diags target name :
  control c = At current →
  stages s !! current = Some st →
  Stage_run st (the_module c) = (success, module1, diags) →
  get_jump st (get_pipeline_jump_markers module1) = (Some target, Some name) →
  step s c =
    {| control := At target;
       the_module := remove_pipeline_jump_marker module1 name;
       events := events c ++ [EvRun current; EvGetMarkers; EvRemoveMarker name];
       emitted := emitted c ++ diags |}.
Proof.
  intros Hat Hst Hrun Hjump. unfold step. rewrite Hat. unfold loop_body.
  rewrite Hst, Hrun. cbn [failed]. by rewrite Hjump.
Qed.

Lemma Schedule_run_returned s module fuel n r :
  control (steps s n (enter s module)) = Returned r →
  n ≤ fuel →
  Schedule_run fuel s module = Some (Ok r, steps s n (enter s module)).
Proof.
  intros Hr Hle. unfold Schedule_run.
  replace fuel with (n + (fuel - n)) by lia. rewrite steps_add.
  rewrite steps_halted by (by rewrite Hr). by rewrite Hr.
Qed.

(** C2.  A schedule built from the descriptors A, B, C, none of which
    declares a jump, on a module on which the passes of A, then of B, then
    of C succeed: the run takes exactly three turns of the loop, runs the
    stages 0, 1, 2 of the descriptors in this order, each once, reads the
    markers after each without removing any, and returns success with the
    module as C left it. *)
Theorem three_stages_run_in_order (mem : Memory) context settings A B C ctx' s
    stA stB stC module mA mB mC dA dB dC :
  info_jumps A = [] → info_jumps B = [] → info_jumps C = [] →
  PassManagerSchedule_new mem context settings [A; B; C] = Ok (ctx', s) →
  stages s !! 0 = Some stA → stages s !! 1 = Some stB → stages s !! 2 = Some stC →
  Stage_run stA module = (success, mA, dA) →
  Stage_run stB mA = (success, mB, dB) →
  Stage_run stC mB = (success, mC, dC) →
  let final :=
    {| control := Returned success; the_module := mC;
       events := [EvRun 0; EvGetMarkers; EvGetNextStage;
                  EvRun 1; EvGetMarkers; EvGetNextStage;
                  EvRun 2; EvGetMarkers; EvGetNextStage];
       emitted := dA ++ dB ++ dC |} in
  length (stages s) = 3 ∧
  pm stA = info_init A (configure context settings).2 ∧
  pm stB = info_init B (configure context settings).2 ∧
  pm stC = info_init C (configure context settings).2 ∧
  (∀ fuel, fuel < 3 → Schedule_run fuel s module = None) ∧
  (∀ fuel, 3 ≤ fuel → Schedule_run fuel s module = Some (Ok success, final)) ∧
  visited (events final) = [0; 1; 2].
Proof.
  intros HA HB HC Hnew H0 H1 H2 HrunA HrunB HrunC final.
  apply construction_spec in Hnew as (_ & _ & Hs).
  assert (stA = {| pm := info_init A (configure context settings).2;
                   jumps := []; next_stage := Some 1 |}) as HstA.
  { rewrite Hs in H0. unfold wired in H0. cbn in H0. rewrite HA in H0.
    by injection H0 as <-. }
  assert (stB = {| pm := info_init B (configure context settings).2;
                   jumps := []; next_stage := Some 2 |}) as HstB.
  { rewrite Hs in H1. unfold wired in H1. cbn in H1. rewrite HB in H1.
    by injection H1 as <-. }
  assert (stC = {| pm := info_init C (configure context settings).2;
                   jumps := []; next_stage := None |}) as HstC.
  { rewrite Hs in H2. unfold wired in H2. cbn in H2. rewrite HC in H2.
    by injection H2 as <-. }
  assert (control (enter s module) = At 0) as Hat0.
  { unfold enter. by rewrite H0. }
  assert (steps s 1 (enter s module) =
          {| control := At 1; the_module := mA;
             events := [EvRun 0; EvGetMarkers; EvGetNextStage]; emitted := dA |})
    as Hstep1.
  { change (steps s 1 (enter s module)) with (step s (enter s module)).
    rewrite (step_fall_through s _ 0 stA mA dA Hat0 H0 HrunA)
      by (apply get_jump_no_edges; by rewrite HstA).
    by rewrite HstA. }
  assert (steps s 2 (enter s module) =
          {| control := At 2; the_module := mB;
             events := [EvRun 0; EvGetMarkers; EvGetNextStage;
                        EvRun 1; EvGetMarkers; EvGetNextStage];
             emitted := dA ++ dB |}) as Hstep2.
  { rewrite steps_S, Hstep1.
    erewrite step_fall_through;
      [|reflexivity|exact H1|exact HrunB|apply get_jump_no_edges; by rewrite HstB].
    by rewrite HstB. }
  assert (steps s 3 (enter s module) = final) as Hstep3.
  { rewrite steps_S, Hstep2.
    erewrite step_fall_through;
      [|reflexivity|exact H2|exact HrunC|apply get_jump_no_edges; by rewrite HstC].
    rewrite HstC. unfold final. cbn [next_stage events emitted app].
    by rewrite <-(assoc_L (++)). }
  split_and!.
  - rewrite Hs. done.
  - by rewrite HstA.
  - by rewrite HstB.
  - by rewrite HstC.
  - intros fuel Hlt. unfold Schedule_run.
    destruct fuel as [|[|[|fuel]]]; [| | |lia].
    + change (steps s 0 (enter s module)) with (enter s module). by rewrite Hat0.
    + by rewrite Hstep1.
    + by rewrite Hstep2.
  - intros fuel Hle. rewrite <-Hstep3.
    apply Schedule_run_returned; [by rewrite Hstep3 | done].
  - done.
Qed.

Lemma get_jump_single_active st module name target :
  jumps st = [(name, target)] →
  marker_active module name →
  get_jump st (get_pipeline_jump_markers module) = (Some target, Some name).
Proof.
  intros Hjumps (ns & -> & Hin). simpl. rewrite Hjumps.
  apply get_jump_jumps_match. exists [], []. split_and!; [done | done |].
  by intros ? ?%elem_of_nil.
Qed.

Lemma get_jump_single_inactive st module name target :
  jumps st = [(name, target)] →
  ¬ marker_active module name →
  get_jump st (get_pipeline_jump_markers module) = (None, None).
Proof.
  intros Hjumps Hnot. unfold marker_active in Hnot.
  destruct (get_pipeline_jump_markers module) as [ns|]; [|done]. simpl.
  rewrite Hjumps. apply get_jump_jumps_none.
  intros it ->%list_elem_of_singleton Hin. apply Hnot. eauto.
Qed.

Lemma visited_app (evs evs' : list Event) :
  visited (evs ++ evs') = visited evs ++ visited evs'.
Proof. unfold visited. apply omap_app. Qed.

(** Every successor and every jump target of a wired schedule is a stage of
    the schedule. *)
Lemma wired_links (mem : Memory) context settings
    (registry : list (StageInfo (Body := Body))) (i : StageId) st :
  stages (wired mem context settings registry) !! i = Some st →
  (∀ next, next_stage st = Some next → next = S i ∧ next < length registry) ∧
  (∀ it, it ∈ jumps st → it.2 < length registry).
Proof.
  unfold wired. cbn [stages]. rewrite list_lookup_imap.
  intros H. apply fmap_Some in H as (d & Hd & ->). cbn [next_stage jumps]. split.
  - intros next. unfold default_next. case_bool_decide; [|done].
    intros [= <-]. done.
  - intros [name target] Hit. unfold edges in Hit.
    apply list_elem_of_omap in Hit as (j & _ & Hj).
    apply fmap_Some in Hj as (t & Ht & [= -> ->]).
    apply stage_of_buffer_Some in Ht as (d' & Hd' & _).
    by apply lookup_lt_Some in Hd'.
Qed.

Lemma get_jump_target_declared st (names : option (list StringAttr)) target name :
  get_jump st names = (Some target, Some name) → (name, target) ∈ jumps st.
Proof.
  destruct names as [ns|]; [|done]. simpl.
  intros (before & after & -> & _)%get_jump_jumps_match.
  apply elem_of_app. right. left.
Qed.

(** A turn of the loop over a schedule whose links stay inside it. *)
Lemma step_stays_inside s c :
  (∀ i st, stages s !! i = Some st →
     (∀ next, next_stage st = Some next → next < length (stages s)) ∧
     (∀ it, it ∈ jumps st → it.2 < length (stages s))) →
  (∀ current, control c = At current → current < length (stages s)) →
  control c ≠ Lost →
  (∀ current, control (step s c) = At current → current < length (stages s)) ∧
  control (step s c) ≠ Lost.
Proof.
  intros Hlinks Hat Hlost. unfold step.
  destruct (control c) as [current|r|] eqn:Hc; [|by rewrite Hc..].
  unfold loop_body. destruct (stages s !! current) as [st|] eqn:Hst.
  2:{ apply lookup_ge_None in Hst. specialize (Hat current eq_refl). lia. }
  destruct (Hlinks current st Hst) as [Hnexts Hjumps].
  destruct (Stage_run st (the_module c)) as [[result m1] ds].
  destruct result; cbn [failed]; [|done].
  destruct (get_jump st (get_pipeline_jump_markers m1)) as [[target|] [name|]] eqn:Hjump;
    cbn [fst snd control].
  - apply get_jump_target_declared in Hjump. split; [|done].
    intros ? [= <-]. apply (Hjumps _ Hjump).
  - destruct (get_jump_shape st (get_pipeline_jump_markers m1))
      as [(t & nm & H)|H]; congruence.
  - destruct (get_jump_shape st (get_pipeline_jump_markers m1))
      as [(t & nm & H)|H]; congruence.
  - unfold get_next_stage. destruct (next_stage st) as [next|] eqn:Hnext;
      cbn [control]; [|done].
    split; [|done]. intros ? [= <-]. by apply Hnexts.
Qed.

(** X2.  A schedule the constructor returned for a description with at least
    one stage never leaves its array of stages: at every turn the loop stands
    at a stage of the schedule or has returned, so a run that ends returns a
    result. *)
Theorem constructed_run_stays_inside (mem : Memory) context settings
    (registry : list (StageInfo (Body := Body))) ctx' s module :
  PassManagerSchedule_new mem context settings registry = Ok (ctx', s) →
  registry ≠ [] →
  (∀ n, (∀ current, control (steps s n (enter s module)) = At current →
                    current < length (stages s)) ∧
        control (steps s n (enter s module)) ≠ Lost) ∧
  (∀ fuel r c, Schedule_run fuel s module = Some (r, c) → ∃ result, r = Ok result).
Proof.
  intros Hnew Hne. apply construction_spec in Hnew as (_ & _ & ->).
  assert (length (stages (wired mem context settings registry)) = length registry)
    as Hlen.
  { unfold wired. cbn [stages]. apply length_imap. }
  assert (∀ n, (∀ current,
                  control (steps (wired mem context settings registry) n
                                 (enter (wired mem context settings registry) module))
                  = At current →
                  current < length (stages (wired mem context settings registry))) ∧
               control (steps (wired mem context settings registry) n
                              (enter (wired mem context settings registry) module))
               ≠ Lost) as Hinv.
  { induction n as [|n IH].
    - change (steps ?s 0 ?c) with c. unfold enter.
      destruct (stages (wired mem context settings registry) !! 0) eqn:H0;
        cbn [control].
      + split; [|done]. intros ? [= <-]. by apply lookup_lt_Some in H0.
      + apply lookup_ge_None in H0. rewrite Hlen in H0.
        destruct registry; [done | simpl in H0; lia].
    - rewrite steps_S. destruct IH as [Hat Hlost].
      apply step_stays_inside; [|done..].
      intros i st Hst. destruct (wired_links _ _ _ _ _ _ Hst) as [Hnexts Hjumps].
      rewrite Hlen. split; [|done]. intros next Hnext. by apply Hnexts. }
  split; [exact Hinv |].
  intros fuel r c. unfold Schedule_run. destruct (Hinv fuel) as [_ Hlost].
  destruct (control (steps _ fuel _)); [done | | done].
  intros [= <- _]. eauto.
Qed.

(** X3.  The stages of a schedule the constructor returned are those of the
    description, in its order: stage [i] holds the pass manager that the
    [i]-th descriptor filled, and its default successor is stage [i + 1],
    absent for the last stage only. *)
Theorem constructed_default_successors (mem : Memory) context settings
    (registry : list (StageInfo (Body := Body))) ctx' s :
  PassManagerSchedule_new mem context settings registry = Ok (ctx', s) →
  length (stages s) = length registry ∧
  ∀ i st, stages s !! i = Some st →
    (∃ d, registry !! i = Some d ∧
          pm st = info_init d (configure context settings).2) ∧
    next_stage st = (if bool_decide (S i < length registry) then Some (S i) else None).
Proof.
  intros Hnew. apply construction_spec in Hnew as (_ & _ & ->).
  unfold wired. cbn [stages]. split; [apply length_imap |].
  intros i st. rewrite list_lookup_imap.
  intros H. apply fmap_Some in H as (d & Hd & ->). cbn [pm next_stage]. eauto.
Qed.

Lemma cycle_entry_S (stA stB : PassManagerStage (Body := Body)) (marker : StringAttr)
    (k : nat) module :
  cycle_entry stA stB marker (S k) module =
  remove_pipeline_jump_marker
    (after_both stA stB (cycle_entry stA stB marker k module)) marker.
Proof. reflexivity. Qed.

Section Cycle.

Context (s : PassManagerSchedule (Body := Body)).
Context (stA stB : PassManagerStage (Body := Body)) (marker : StringAttr).
Context (module : ModuleOp (Body := Body)).
Hypothesis HA : stages s !! 0 = Some stA.
Hypothesis HB : stages s !! 1 = Some stB.
Hypothesis HjumpsA : jumps stA = [].
Hypothesis HnextA : next_stage stA = Some 1.
Hypothesis HjumpsB : jumps stB = [(marker, 0)].
Hypothesis HnextB : next_stage stB = None.
Hypothesis HrunA : ∀ m, (Stage_run stA m).1.1 = success.
Hypothesis HrunB : ∀ m, (Stage_run stB m).1.1 = success.


(** The turn at A: on to B, whatever the markers. *)
Lemma cycle_half c :
  control c = At 0 →
  control (step s c) = At 1 ∧
  the_module (step s c) = (Stage_run stA (the_module c)).1.2 ∧
  visited (events (step s c)) = visited (events c) ++ [0].
Proof using HA HjumpsA HnextA HrunA.
  intros Hat. pose proof (HrunA (the_module c)) as Hok.
  destruct (Stage_run stA (the_module c)) as [[r mA] dA] eqn:Hrun.
  simpl in Hok. subst r.
  rewrite (step_fall_through s c 0 stA mA dA Hat HA Hrun)
    by (by apply get_jump_no_edges).
  rewrite HnextA. cbn [control the_module events]. by rewrite visited_app.
Qed.

(** After [2 * k] turns with the marker asserted each time, the loop is
    back at A for the [k]-th time. *)
Lemma cycle_turns k :
  (∀ i, i < k → marker_asserted stA stB marker module i) →
  control (steps s (2 * k) (enter s module)) = At 0 ∧
  the_module (steps s (2 * k) (enter s module)) = cycle_entry stA stB marker k module ∧
  visited (events (steps s (2 * k) (enter s module))) = concat (replicate k [0; 1]).
Proof using HA HB HjumpsA HnextA HjumpsB HrunA HrunB.
  induction k as [|k IH]; intros Hk.
  - change (steps s (2 * 0) (enter s module)) with (enter s module).
    unfold enter. rewrite HA. done.
  - destruct IH as (Hat & Hmod & Hvis); [intros i ?; apply Hk; lia |].
    replace (2 * S k) with (S (S (2 * k))) by lia. rewrite !steps_S.
    set (c := steps s (2 * k) (enter s module)) in *.
    destruct (cycle_half c Hat) as (Hat1 & Hmod1 & Hvis1).
    pose proof (HrunB (the_module (step s c))) as Hok.
    destruct (Stage_run stB (the_module (step s c))) as [[r mB] dB] eqn:Hrun.
    simpl in Hok. subst r.
    assert (mB = after_both stA stB (cycle_entry stA stB marker k module)) as HmB.
    { unfold after_both. rewrite <-Hmod, <-Hmod1, Hrun. done. }
    assert (marker_active mB marker) as Hactive.
    { rewrite HmB. apply Hk. lia. }
    rewrite (step_jump s (step s c) 1 stB mB dB 0 marker Hat1 HB Hrun)
      by (by apply get_jump_single_active).
    cbn [control the_module events]. split_and!; [done | by rewrite HmB |].
    rewrite visited_app, Hvis1, Hvis, replicate_S_end, concat_app.
    by rewrite <-(assoc_L (++)).
Qed.

Lemma cycle_diverges :
  (∀ k, marker_asserted stA stB marker module k) → run_diverges s module.
Proof using HA HB HjumpsA HnextA HjumpsB HrunA HrunB.
  intros Hall fuel. unfold Schedule_run.
  destruct (Nat.Even_or_Odd fuel) as [[k ->]|[k ->]].
  - destruct (cycle_turns k) as (Hat & _); [by intros |]. by rewrite Hat.
  - destruct (cycle_turns k) as (Hat & _); [by intros |].
    replace (2 * k + 1) with (S (2 * k)) by lia. rewrite steps_S.
    destruct (cycle_half _ Hat) as (Hat1 & _). by rewrite Hat1.
Qed.

Lemma cycle_ends k :
  (∀ i, i < k → marker_asserted stA stB marker module i) →
  ¬ marker_asserted stA stB marker module k →
  ∃ c, Schedule_run (2 * S k) s module = Some (Ok success, c) ∧
       (∀ fuel, fuel < 2 * S k → Schedule_run fuel s module = None) ∧
       the_module c = after_both stA stB (cycle_entry stA stB marker k module) ∧
       visited (events c) = concat (replicate (S k) [0; 1]).
Proof using HA HB HjumpsA HnextA HjumpsB HnextB HrunA HrunB.
  intros Hk Hnot.
  destruct (cycle_turns k Hk) as (Hat & Hmod & Hvis).
  set (c := steps s (2 * k) (enter s module)) in *.
  destruct (cycle_half c Hat) as (Hat1 & Hmod1 & Hvis1).
  pose proof (HrunB (the_module (step s c))) as Hok.
  destruct (Stage_run stB (the_module (step s c))) as [[r mB] dB] eqn:Hrun.
  simpl in Hok. subst r.
  assert (mB = after_both stA stB (cycle_entry stA stB marker k module)) as HmB.
  { unfold after_both. rewrite <-Hmod, <-Hmod1, Hrun. done. }
  assert (¬ marker_active mB marker) as Hinactive by (by rewrite HmB).
  pose proof (step_fall_through s (step s c) 1 stB mB dB Hat1 HB Hrun
                (get_jump_single_inactive stB mB marker 0 HjumpsB Hinactive)) as Hlast.
  rewrite HnextB in Hlast.
  assert (steps s (2 * S k) (enter s module) = step s (step s c)) as Hsteps.
  { replace (2 * S k) with (S (S (2 * k))) by lia. by rewrite !steps_S. }
  exists (step s (step s c)). split_and!.
  - unfold Schedule_run. rewrite Hsteps, Hlast. cbn [control]. by rewrite <-Hlast.
  - intros fuel Hlt. unfold Schedule_run.
    destruct (Nat.Even_or_Odd fuel) as [[i ->]|[i ->]].
    + destruct (cycle_turns i) as (Hati & _); [intros ? ?; apply Hk; lia |].
      by rewrite Hati.
    + destruct (cycle_turns i) as (Hati & _); [intros ? ?; apply Hk; lia |].
      replace (2 * i + 1) with (S (2 * i)) by lia. rewrite steps_S.
      destruct (cycle_half _ Hati) as (Hati1 & _). by rewrite Hati1.
  - rewrite Hlast. cbn [the_module]. done.
  - rewrite Hlast. cbn [events]. rewrite visited_app, Hvis1, Hvis.
    rewrite replicate_S_end, concat_app.
    by rewrite <-(assoc_L (++)).
Qed.

End Cycle.

(** C6.  A schedule built from two descriptors A and B, of which B declares
    a jump back to A, with passes that always succeed.  As long as the module
    B leaves carries the marker of that jump, the loop goes back to A: after
    [2 * k] turns it stands at A for the [k]-th time.  If the marker is there
    after every visit of B the run never returns, whatever the fuel.  If it
    is there after the first [k] visits and not after the next, the run
    falls through the default successors and returns success after exactly
    [2 * (k + 1)] turns; [k] is arbitrary, so no number bounds the turns. *)
Theorem jump_cycle_has_no_bound (mem : Memory) context settings A B back ctx' s
    stA stB module :
  info_jumps A = [] → info_jumps B = [back] →
  data back = data (info_name A) →
  PassManagerSchedule_new mem context settings [A; B] = Ok (ctx', s) →
  stages s !! 0 = Some stA → stages s !! 1 = Some stB →
  (∀ m, (Stage_run stA m).1.1 = success) →
  (∀ m, (Stage_run stB m).1.1 = success) →
  let marker := StringRef_str mem back in
  let asserted := marker_asserted stA stB marker module in
  jumps stB = [(marker, 0)] ∧
  (∀ k, (∀ i, i < k → asserted i) →
     control (steps s (2 * k) (enter s module)) = At 0 ∧
     the_module (steps s (2 * k) (enter s module)) = cycle_entry stA stB marker k module ∧
     visited (events (steps s (2 * k) (enter s module))) = concat (replicate k [0; 1])) ∧
  ((∀ k, asserted k) → run_diverges s module) ∧
  (∀ k, (∀ i, i < k → asserted i) → ¬ asserted k →
     ∃ c, Schedule_run (2 * S k) s module = Some (Ok success, c) ∧
          (∀ fuel, fuel < 2 * S k → Schedule_run fuel s module = None) ∧
          the_module c = after_both stA stB (cycle_entry stA stB marker k module) ∧
          visited (events c) = concat (replicate (S k) [0; 1])).
Proof.
  intros HjA HjB Hback Hnew H0 H1 HrunA HrunB marker asserted.
  apply construction_spec in Hnew as (_ & _ & Hs).
  assert (stA = {| pm := info_init A (configure context settings).2;
                   jumps := []; next_stage := Some 1 |}) as HstA.
  { rewrite Hs in H0. unfold wired in H0. cbn in H0. rewrite HjA in H0.
    by injection H0 as <-. }
  assert (stB = {| pm := info_init B (configure context settings).2;
                   jumps := [(marker, 0)]; next_stage := None |}) as HstB.
  { rewrite Hs in H1. unfold wired in H1. cbn in H1. rewrite HjB in H1.
    unfold edges, stage_of_buffer in H1. cbn in H1.
    rewrite decide_True in H1 by done. by injection H1 as <-. }
  assert (jumps stA = []) as HjumpsA by (by rewrite HstA).
  assert (next_stage stA = Some 1) as HnextA by (by rewrite HstA).
  assert (jumps stB = [(marker, 0)]) as HjumpsB by (by rewrite HstB).
  assert (next_stage stB = None) as HnextB by (by rewrite HstB).
  split_and!.
  - done.
  - intros k. by apply cycle_turns.
  - by apply cycle_diverges.
  - intros k. by apply cycle_ends.
Qed.

End Runs.

(** ** The construction on the samples *)

(** C5, refuted as stated: two descriptors that declare the same name "A",
    held in two buffers, are accepted, and so is the jump "A" of a
    description whose only stage is named "AB". *)
Lemma same_name_in_two_buffers_accepted :
  (StringRef_str names_memory (StringRef_at 0 1) = "A" ∧
   StringRef_str names_memory (StringRef_at 3 1) = "A" ∧
   ∃ s, PassManagerSchedule_new names_memory fresh_context plain_settings twin_registry
        = Ok (fresh_context, s) ∧ length (stages s) = 2) ∧
  (StringRef_str names_memory (StringRef_at 0 2) = "AB" ∧
   ∃ s, PassManagerSchedule_new names_memory fresh_context plain_settings prefix_registry
        = Ok (fresh_context, s) ∧
        (jumps <$> stages s) = [[("A", 0)]]).
Proof.
  split_and!; [done | done | | done |].
  - eexists. split; [vm_compute; reflexivity | done].
  - eexists. split; [vm_compute; reflexivity | done].
Qed.

(** C8, refuted as stated: with [irPrinting] supplied and [irDumpStderr]
    set, the pass manager has received the printer with the default
    arguments before the one with the checkers, and the IR is printed before
    and after the pass "Canonicalize", which is in neither list of names. *)
Lemma dump_prints_unlisted_passes :
  irPrinting dumping_settings
  = Some {| printBefore := ["Lower"]; printAfter := ["Lower"]; out := 2%N |} ∧
  pm_ir_printing (configure (Body := nat) fresh_context dumping_settings).2
  = [IRPrintingDefault;
     IRPrintingConfig {| names := ["Lower"] |} {| names := ["Lower"] |}
                      true true false 2%N] ∧
  Checker_call {| names := ["Lower"] |} "Canonicalize" = false ∧
  prints_before (configure (Body := nat) fresh_context dumping_settings).2
    "Canonicalize" = true ∧
  prints_after (configure (Body := nat) fresh_context dumping_settings).2
    "Canonicalize" = true.
Proof. by split_and!. Qed.

Lemma construction_rejects_unknown_buffers_witness :
  ∃ line, PassManagerSchedule_new names_memory fresh_context plain_settings stray_registry
          = AssertionFailed line.
Proof.
  apply construction_rejects_unknown_buffers. left.
  exists (stage_info (StringRef_at 0 1) [StringRef_at 3 1] counting), (StringRef_at 3 1).
  split_and!.
  - left.
  - left.
  - vm_compute. intros H. repeat (apply elem_of_cons in H as [H|H]; [discriminate H|]).
    by apply elem_of_nil in H.
Defined.

(** ** The executor on the samples *)

Lemma jump_resolution_declaration_order_witness :
  loop_body (sample_schedule fork_registry) 0 (empty_module 0) =
    (At 2, {| jump_markers := Some ["B"]; body := 0 |},
     [EvRun 0; EvGetMarkers; EvRemoveMarker "C"], []) ∧
  ¬ marker_active {| jump_markers := Some ["B"]; body := 0 |} "C" ∧
  marker_active {| jump_markers := Some ["B"]; body := 0 |} "B".
Proof.
  destruct (jump_resolution_declaration_order
              (sample_schedule fork_registry) 0
              {| pm := with_passes (raising_both "B" "C")
                         (configure fresh_context plain_settings).2;
                 jumps := [("C", 2); ("B", 1)]; next_stage := Some 1 |}
              (empty_module 0)
              {| jump_markers := Some ["B"; "C"]; body := 0 |} []
              ["B"; "C"] [] [("B", 1)] "C" 2)
    as (Hbody & Hgone & Hkept & _).
  - reflexivity.
  - reflexivity.
  - reflexivity.
  - reflexivity.
  - right. left.
  - intros it Hit. by apply elem_of_nil in Hit.
  - split_and!.
    + exact Hbody.
    + exact Hgone.
    + apply (Hkept "B"); [discriminate |]. eexists. split; [reflexivity | left].
Defined.

Lemma three_stages_run_in_order_witness :
  (∀ fuel, fuel < 3 →
     Schedule_run fuel (sample_schedule linear_registry) (empty_module 0) = None) ∧
  (∀ fuel, 3 ≤ fuel →
     Schedule_run fuel (sample_schedule linear_registry) (empty_module 0) =
       Some (Ok success,
             {| control := Returned success;
                the_module := {| jump_markers := None; body := 3 |};
                events := [EvRun 0; EvGetMarkers; EvGetNextStage;
                           EvRun 1; EvGetMarkers; EvGetNextStage;
                           EvRun 2; EvGetMarkers; EvGetNextStage];
                emitted := [] |})).
Proof.
  edestruct (three_stages_run_in_order names_memory fresh_context plain_settings
               (stage_info (StringRef_at 0 1) [] counting)
               (stage_info (StringRef_at 1 1) [] counting)
               (stage_info (StringRef_at 2 1) [] counting)
               fresh_context (sample_schedule linear_registry))
    with (module := empty_module 0)
    as (_ & _ & _ & _ & Hshort & Hlong & _).
  - reflexivity.
  - reflexivity.
  - reflexivity.
  - vm_compute. reflexivity.
  - reflexivity.
  - reflexivity.
  - reflexivity.
  - reflexivity.
  - reflexivity.
  - reflexivity.
  - split; [exact Hshort | exact Hlong].
Defined.

Lemma failure_stops_the_run_witness :
  let stopped :=
    {| control := Returned failure;
       the_module := {| jump_markers := None; body := 2 |};
       events := [EvRun 0; EvGetMarkers; EvGetNextStage; EvRun 1];
       emitted := [MkDiagnostic Warning "unused" [];
                   MkDiagnostic Error "cannot lower"
                     [MkDiagnostic Note "see here" []]] |} in
  Schedule_run 2 (sample_schedule failing_registry) (empty_module 0)
    = Some (Ok failure, stopped) ∧
  Schedule_run 9 (sample_schedule failing_registry) (empty_module 0)
    = Some (Ok failure, stopped).
Proof.
  pose proof (failure_stops_the_run (sample_schedule failing_registry) (empty_module 0) 1
           {| control := At 1; the_module := {| jump_markers := None; body := 1 |};
              events := [EvRun 0; EvGetMarkers; EvGetNextStage]; emitted := [] |}
           1
           {| pm := with_passes failing (configure fresh_context plain_settings).2;
              jumps := []; next_stage := Some 2 |}
           {| jump_markers := None; body := 2 |}
           [MkDiagnostic Warning "unused" [];
            MkDiagnostic Error "cannot lower" [MkDiagnostic Note "see here" []]]
           eq_refl eq_refl eq_refl eq_refl) as Hstops.
  split.
  - apply (Hstops 2). lia.
  - apply (Hstops 9). lia.
Defined.

(** The countdown: the module at the start of the turn [i], and the marker
    after the visits of B. *)
Lemma countdown_entry (n i : nat) :
  i ≤ n →
  cycle_entry countdown_A countdown_B "A" i (empty_module n) =
  {| jump_markers := match i with O => None | S _ => Some [] end; body := n - i |}.
Proof.
  induction i as [|i IH]; intros Hi.
  - unfold empty_module. by rewrite Nat.sub_0_r.
  - rewrite cycle_entry_S, IH by lia.
    unfold after_both, Stage_run. cbn. unfold raising_while_positive. cbn.
    destruct (n - i) as [|k] eqn:Hk; [lia |].
    unfold remove_pipeline_jump_marker. cbn.
    rewrite decide_False by (intros H; by apply H). f_equal. lia.
Qed.

Lemma countdown_asserted (n i : nat) :
  i < n → marker_asserted countdown_A countdown_B "A" (empty_module n) i.
Proof.
  intros Hi. unfold marker_asserted. rewrite countdown_entry by lia.
  unfold after_both, Stage_run. cbn. unfold raising_while_positive. cbn.
  destruct (n - i) as [|k] eqn:Hk; [lia |].
  eexists. split; [reflexivity | left].
Qed.

Lemma countdown_released (n : nat) :
  ¬ marker_asserted countdown_A countdown_B "A" (empty_module n) n.
Proof.
  unfold marker_asserted. rewrite countdown_entry by lia.
  unfold after_both, Stage_run. cbn. unfold raising_while_positive. cbn.
  rewrite Nat.sub_diag. intros (ns & Hns & Hin).
  destruct n; [discriminate Hns |]. injection Hns as <-. by apply elem_of_nil in Hin.
Qed.

Lemma jump_cycle_has_no_bound_witness :
  run_diverges (sample_schedule endless_registry) (empty_module 0) ∧
  (∀ n, ∃ c,
     Schedule_run (2 * S n) (sample_schedule countdown_registry) (empty_module n)
       = Some (Ok success, c) ∧
     (∀ fuel, fuel < 2 * S n →
        Schedule_run fuel (sample_schedule countdown_registry) (empty_module n) = None) ∧
     visited (events c) = concat (replicate (S n) [0; 1])).
Proof.
  split.
  - edestruct (jump_cycle_has_no_bound names_memory fresh_context plain_settings
                 (stage_info (StringRef_at 0 1) [] idle)
                 (stage_info (StringRef_at 1 1) [StringRef_at 0 1] (raising_always "A"))
                 (StringRef_at 0 1) fresh_context (sample_schedule endless_registry))
      with (module := empty_module 0) as (_ & _ & Hdiverges & _).
    + reflexivity.
    + reflexivity.
    + reflexivity.
    + vm_compute. reflexivity.
    + reflexivity.
    + reflexivity.
    + intros m. reflexivity.
    + intros m. reflexivity.
    + apply Hdiverges. intros k. eexists. split; [reflexivity | left].
  - intros n.
    destruct (jump_cycle_has_no_bound names_memory fresh_context plain_settings
                (stage_info (StringRef_at 0 1) [] idle)
                (stage_info (StringRef_at 1 1) [StringRef_at 0 1]
                            (raising_while_positive "A"))
                (StringRef_at 0 1) fresh_context (sample_schedule countdown_registry)
                countdown_A countdown_B (empty_module n))
      as (_ & _ & _ & Hends).
    + reflexivity.
    + reflexivity.
    + reflexivity.
    + vm_compute. reflexivity.
    + reflexivity.
    + reflexivity.
    + intros m. reflexivity.
    + intros m. unfold Stage_run. cbn. unfold raising_while_positive.
      by destruct (body m).
    + destruct (Hends n) as (c & Hrun & Hshort & _ & Hvisited).
      * intros i Hi. by apply countdown_asserted.
      * apply countdown_released.
      * exists c. split_and!; [exact Hrun | exact Hshort | exact Hvisited].
Defined.

(** ** The report on the samples *)

Lemma fatal_error_iff_schedule_fails_witness :
  ∃ text,
    CompilerContextImpl_run print_counter 5 (sample_schedule failing_registry)
      (empty_module 0) = Some (Ok (Fatal text)) ∧
    text = "MLIR pipeline failed" +:+ LF +:+ "cannot lower" +:+ LF +:+ "see here"
           +:+ LF +:+ "moduleII" ∧
    occurs_in "moduleII" text ∧
    occurs_in "cannot lower" text ∧
    occurs_in "see here" text.
Proof.
  destruct (fatal_error_iff_schedule_fails print_counter 5
              (sample_schedule failing_registry) (empty_module 0))
    as (_ & Hfails & _).
  destruct (Hfails
              {| control := Returned failure;
                 the_module := {| jump_markers := None; body := 2 |};
                 events := [EvRun 0; EvGetMarkers; EvGetNextStage; EvRun 1];
                 emitted := [MkDiagnostic Warning "unused" [];
                             MkDiagnostic Error "cannot lower"
                               [MkDiagnostic Note "see here" []]] |})
    as (text & Hrun & Htext & Hmodule & Herrors).
  - reflexivity.
  - destruct (Herrors (MkDiagnostic Error "cannot lower" [MkDiagnostic Note "see here" []]))
      as [Hmsg Hnotes].
    + right. left.
    + reflexivity.
    + exists text. split_and!.
      * exact Hrun.
      * rewrite Htext. reflexivity.
      * exact Hmodule.
      * exact Hmsg.
      * apply (Hnotes (MkDiagnostic Note "see here" [])). left.
Defined.

(** ** Further instances *)

Lemma get_jump_declaration_order_witness :
  get_jump {| pm := PassManager_new (Body := nat);
              jumps := [("C", 2); ("B", 1)]; next_stage := Some 1 |}
           (Some ["B"; "C"]) = (Some 2, Some "C") ∧
  get_jump {| pm := PassManager_new (Body := nat);
              jumps := [("C", 2); ("B", 1)]; next_stage := Some 1 |}
           (Some ["Z"]) = (None, None).
Proof.
  split.
  - apply get_jump_declaration_order. exists ["B"; "C"], [], [("B", 1)].
    split_and!; [reflexivity | reflexivity | right; left |].
    intros it Hit. by apply elem_of_nil in Hit.
  - apply get_jump_declaration_order. intros ns [= <-] it Hit Hin.
    apply list_elem_of_singleton in Hin.
    apply elem_of_cons in Hit as [->|Hit]; [discriminate Hin |].
    apply list_elem_of_singleton in Hit as ->. discriminate Hin.
Defined.

Lemma ir_printing_serializes_witness :
  multithreading
    (PassManagerStage_new fresh_context tracing_settings (with_passes counting)).1
  = false ∧
  Checker_call {| names := ["Lower"] |} "{anonymous}::Lower" = true ∧
  Checker_call {| names := ["Lower"] |} "Canonicalize" = false ∧
  prints_before (configure (Body := nat) fresh_context tracing_settings).2
    "{anonymous}::Lower" = true ∧
  prints_after (configure (Body := nat) fresh_context tracing_settings).2
    "Canonicalize" ≠ true ∧
  prints_before (configure (Body := nat) fresh_context dumping_settings).2
    "Canonicalize" = true.
Proof.
  destruct (ir_printing_serializes fresh_context tracing_settings (with_passes counting))
    as (_ & Hprinting & _ & _ & Hchecker & Hfiltered & _).
  destruct (ir_printing_serializes fresh_context dumping_settings (with_passes counting))
    as (_ & _ & _ & _ & _ & _ & Hall).
  destruct (Hprinting _ eq_refl) as [Hserial _].
  split_and!.
  - exact Hserial.
  - apply Hchecker. left.
  - reflexivity.
  - apply (Hfiltered _ eq_refl eq_refl "{anonymous}::Lower"). left.
  - intros Hprints.
    apply (Hfiltered _ eq_refl eq_refl "Canonicalize") in Hprints.
    apply list_elem_of_singleton in Hprints. discriminate Hprints.
  - apply (Hall _ eq_refl eq_refl "Canonicalize").
Defined.

Lemma stage_lookup_keyed_on_buffer_witness :
  StringRef_str names_memory (StringRef_at 0 1)
  = StringRef_str names_memory (StringRef_at 3 1) ∧
  ∃ ctx' s, PassManagerSchedule_new names_memory fresh_context plain_settings
              twin_registry = Ok (ctx', s).
Proof.
  split; [reflexivity |].
  apply (stage_lookup_keyed_on_buffer names_memory fresh_context plain_settings
           twin_registry).
  split_and!.
  - intros d Hd.
    repeat (apply elem_of_cons in Hd as [->|Hd]; [discriminate |]).
    by apply elem_of_nil in Hd.
  - apply (bool_decide_unpack (NoDup (buffers twin_registry))). vm_compute. exact I.
  - intros d j Hd Hj.
    repeat (apply elem_of_cons in Hd as [->|Hd]; [by apply elem_of_nil in Hj |]).
    by apply elem_of_nil in Hd.
Defined.

Lemma run_enters_first_stage_witness :
  (∀ fuel, Schedule_run fuel {| stages := [] |} (empty_module 0)
           = Some (Undefined, enter {| stages := [] |} (empty_module 0))) ∧
  step (sample_schedule failing_registry)
       (enter (sample_schedule failing_registry) (empty_module 0))
  = {| control := At 1; the_module := {| jump_markers := None; body := 1 |};
       events := [EvRun 0; EvGetMarkers; EvGetNextStage]; emitted := [] |} ∧
  Schedule_run 1 (sample_schedule [stage_info (StringRef_at 0 1) [] failing])
    (empty_module 0)
  = Some (Ok failure,
          {| control := Returned failure;
             the_module := {| jump_markers := None; body := 1 |};
             events := [EvRun 0]; emitted := (failing (empty_module 0)).2 |}).
Proof.
  split_and!.
  - exact (run_enters_first_stage {| stages := [] |} (empty_module 0)).
  - destruct (run_enters_first_stage (sample_schedule failing_registry) (empty_module 0))
      as (_ & _ & _ & Hok & _).
    destruct (Hok eq_refl) as (_ & _ & Hnone). exact (Hnone eq_refl).
  - destruct (run_enters_first_stage
                (sample_schedule [stage_info (StringRef_at 0 1) [] failing])
                (empty_module 0))
      as (_ & _ & Hfail & _).
    destruct (Hfail eq_refl) as [Hfirst Hrun]. rewrite (Hrun 0%nat), Hfirst. done.
Defined.

Lemma get_jump_ignores_channel_order_witness :
  get_jump countdown_B (Some ["B"; "A"]) = get_jump countdown_B (Some ["A"; "B"; "A"]).
Proof.
  apply get_jump_ignores_channel_order. intros name. split.
  - intros H. repeat (apply elem_of_cons in H as [->|H]; [set_solver |]).
    by apply elem_of_nil in H.
  - intros H. repeat (apply elem_of_cons in H as [->|H]; [set_solver |]).
    by apply elem_of_nil in H.
Defined.

Lemma constructed_run_stays_inside_witness :
  (∀ n, (∀ current,
           control (steps (sample_schedule fork_registry) n
                          (enter (sample_schedule fork_registry) (empty_module 0)))
           = At current →
           current < length (stages (sample_schedule fork_registry))) ∧
        control (steps (sample_schedule fork_registry) n
                       (enter (sample_schedule fork_registry) (empty_module 0)))
        ≠ Lost) ∧
  (∀ fuel r c,
     Schedule_run fuel (sample_schedule fork_registry) (empty_module 0) = Some (r, c) →
     ∃ result, r = Ok result).
Proof.
  apply (constructed_run_stays_inside names_memory fresh_context plain_settings
           fork_registry fresh_context (sample_schedule fork_registry) (empty_module 0)).
  - vm_compute. reflexivity.
  - discriminate.
Defined.

Lemma constructed_default_successors_witness :
  length (stages (sample_schedule linear_registry)) = length linear_registry ∧
  ∀ i st, stages (sample_schedule linear_registry) !! i = Some st →
    (∃ d, linear_registry !! i = Some d ∧
          pm st = info_init d (configure fresh_context plain_settings).2) ∧
    next_stage st =
      (if bool_decide (S i < length linear_registry) then Some (S i) else None).
Proof.
  apply (constructed_default_successors names_memory fresh_context plain_settings
           linear_registry fresh_context).
  vm_compute. reflexivity.
Defined.

(** * More on the construction *)

Section ConstructionFailures.

Context {Body : Type}.
Implicit Types (registry done rest : list (StageInfo (Body := Body))).
Implicit Types (st : PassManagerStage (Body := Body)).

Lemma populate_failure_line context settings rest : ∀ prior line,
  populate_pass_manager rest (add_stage settings) (built context settings prior)
  = AssertionFailed line →
  line = 131 ∨ line = 137.
Proof.
  induction rest as [|d rest IH]; intros prior line; [done |].
  cbn [populate_pass_manager]. rewrite add_stage_built.
  destruct (StringRef_empty (info_name d)); [intros [= <-]; by left |].
  case_bool_decide; [intros [= <-]; by right |]. apply IH.
Qed.

Lemma resolve_jumps_failure_line (mem : Memory) (map : gmap N StageId) js : ∀ st line,
  resolve_jumps mem map st js = AssertionFailed line → line = 148 ∨ line = 150.
Proof.
  induction js as [|j js IH]; intros st line; [done |].
  cbn [resolve_jumps]. unfold resolve_jump.
  destruct (StringRef_empty j) eqn:Hempty; [intros [= <-]; by left |].
  apply StringRef_empty_false in Hempty. cbn [negb assert_ mbind Exec_bind].
  destruct (map !! data j); [|intros [= <-]; by right].
  unfold add_jump.
  rewrite bool_decide_eq_false_2 by (by apply read_chars_nonempty).
  cbn [negb assert_ mbind Exec_bind mret Exec_ret]. apply IH.
Qed.

Lemma wire_jumps_failure_line (mem : Memory) (map : gmap N StageId)
    (temp : list (StageDesc (Body := Body))) line :
  wire_jumps mem map temp = AssertionFailed line → line = 148 ∨ line = 150.
Proof.
  induction temp as [|sd temp IH]; [done |]. cbn [wire_jumps].
  destruct (resolve_jumps mem map (desc_stage sd) (desc_jumps sd)) as [st|l|] eqn:Hst.
  - cbn [mbind Exec_bind]. destruct (wire_jumps mem map temp) as [rest|l|];
      cbn [mbind Exec_bind mret Exec_ret]; [done | | done].
    intros [= <-]. by apply IH.
  - cbn [mbind Exec_bind]. intros [= <-]. by eapply resolve_jumps_failure_line.
  - done.
Qed.

(** X4.  The constructor aborts on four assertions only: on an empty stage
    name (line 131) or a stage name whose buffer is already registered (line
    137) while the descriptors are read, and, once all of them passed, on an
    empty jump (line 148) or a jump whose buffer is not registered (line
    150).  A fault among the names hides every fault among the jumps; the
    assertions of [add_jump] and [set_next_stage] never fire. *)
Theorem construction_failure_lines (mem : Memory) context settings registry line :
  PassManagerSchedule_new mem context settings registry = AssertionFailed line →
  ((∀ d, d ∈ registry → length_ (info_name d) ≠ 0) ∧ NoDup (buffers registry) →
   (line = 148 ∨ line = 150) ∧ ¬ accepted registry) ∧
  (¬ ((∀ d, d ∈ registry → length_ (info_name d) ≠ 0) ∧ NoDup (buffers registry)) →
   line = 131 ∨ line = 137).
Proof.
  intros Hnew.
  assert (¬ accepted registry) as Hnot.
  { intros Hacc.
    assert (PassManagerSchedule_new mem context settings registry
            = Ok (match registry with [] => context | _ :: _ => configured context settings end,
                  wired mem context settings registry)) as Hok
      by (by apply construction_spec).
    by rewrite Hok in Hnew. }
  revert Hnew. unfold PassManagerSchedule_new.
  change {| ctx := context; stages_temp := []; stages_map := ∅ |}
    with (built (Body := Body) context settings []).
  pose proof (populate_built context settings registry []) as Hpop.
  pose proof (populate_failure_line context settings registry []) as Hline.
  destruct (populate_pass_manager registry (add_stage settings)
              (built context settings [])) as [b|l|].
  - destruct (Hpop b) as [(Hne & Hnd & _ & ->) _]; [done |]. simpl in Hne, Hnd.
    cbn [mbind Exec_bind].
    pose proof (wire_jumps_failure_line mem
                  (stages_map (built context settings registry))
                  (stages_temp (built context settings registry))) as Hwire.
    destruct (wire_jumps mem _ _) as [temp|l|]; cbn [mbind Exec_bind mret Exec_ret];
      [done | | done].
    intros [= <-]. split; [intros _; split; [by apply Hwire | done] |].
    intros Hbad. destruct Hbad. done.
  - cbn [mbind Exec_bind]. intros [= <-]. split; [|intros _; by apply Hline].
    intros [Hne Hnd]. exfalso.
    destruct (Hpop (built context settings registry)) as [_ Hok].
    discriminate Hok. split_and!; [done | done | | done].
    intros ? _. apply not_elem_of_nil.
  - done.
Qed.

End ConstructionFailures.

Lemma construction_failure_lines_witness :
  PassManagerSchedule_new names_memory fresh_context plain_settings stray_registry
  = AssertionFailed 150 ∧
  ((150 = 148 ∨ 150 = 150) ∧ ¬ accepted stray_registry).
Proof.
  split; [vm_compute; reflexivity |].
  apply (construction_failure_lines names_memory fresh_context plain_settings
           stray_registry 150).
  - vm_compute. reflexivity.
  - split.
    + intros d Hd. apply list_elem_of_singleton in Hd as ->. discriminate.
    + apply (bool_decide_unpack (NoDup (buffers stray_registry))). vm_compute. exact I.
Defined.

(** * More on the executor *)

Section Turns.

Context {Body : Type}.
Implicit Types (s : PassManagerSchedule (Body := Body)).
Implicit Types (st : PassManagerStage (Body := Body)).
Implicit Types (module : ModuleOp (Body := Body)).
Implicit Types (c : Config (Body := Body)).
Implicit Types (cur : StageId).

(** What a turn at the stage [cur] can lead to. *)
Lemma step_outcome s c cur st :
  control c = At cur →
  stages s !! cur = Some st →
  visited (events (step s c)) = visited (events c) ++ [cur] ∧
  control (step s c) ≠ Lost ∧
  ∀ nxt, control (step s c) = At nxt →
         next_stage st = Some nxt ∨ ∃ name, (name, nxt) ∈ jumps st.
Proof.
  intros Hat Hst. unfold step. rewrite Hat. unfold loop_body. rewrite Hst.
  destruct (Stage_run st (the_module c)) as [[result m1] ds].
  destruct result; cbn [failed].
  2:{ cbn [control events]. rewrite visited_app. split_and!; [done | done |].
      intros nxt [=]. }
  destruct (get_jump st (get_pipeline_jump_markers m1)) as [[target|] [name|]] eqn:Hjump;
    cbn [fst snd].
  - cbn [control events]. rewrite visited_app. split_and!; [done | done |].
    intros nxt [= <-]. right. exists name. by eapply get_jump_target_declared.
  - destruct (get_jump_shape st (get_pipeline_jump_markers m1))
      as [(t & nm & H)|H]; congruence.
  - destruct (get_jump_shape st (get_pipeline_jump_markers m1))
      as [(t & nm & H)|H]; congruence.
  - unfold get_next_stage. destruct (next_stage st) as [next|];
      cbn [control events]; rewrite visited_app; (split_and!; [done | done |]).
    + intros nxt [= <-]. by left.
    + intros nxt [=].
Qed.

(** Over a schedule whose successors and jump targets all lie further on,
    the loop moves on by at least one stage per turn. *)
Lemma forward_turns s module :
  (∀ cur st, stages s !! cur = Some st →
     (∀ next, next_stage st = Some next → cur < next) ∧
     (∀ it, it ∈ jumps st → cur < it.2)) →
  (∀ cur st, stages s !! cur = Some st →
     (∀ next, next_stage st = Some next → next < length (stages s)) ∧
     (∀ it, it ∈ jumps st → it.2 < length (stages s))) →
  stages s ≠ [] →
  ∀ n, control (steps s n (enter s module)) ≠ Lost ∧
       (∀ cur, control (steps s n (enter s module)) = At cur →
               n ≤ cur < length (stages s) ∧
               Forall (λ v, v < cur) (visited (events (steps s n (enter s module))))) ∧
       StronglySorted lt (visited (events (steps s n (enter s module)))).
Proof.
  intros Hforward Hinside Hne n. induction n as [|n IH].
  - change (steps s 0 (enter s module)) with (enter s module). unfold enter.
    destruct (stages s !! 0) as [st0|] eqn:H0; cbn [control events].
    + split_and!; [done | | constructor].
      intros cur [= <-]. apply lookup_lt_Some in H0. split; [lia | constructor].
    + apply lookup_ge_None in H0. destruct (stages s); [done | simpl in H0; lia].
  - rewrite steps_S. set (c := steps s n (enter s module)) in *.
    destruct IH as (Hlost & Hat & Hsorted).
    destruct (control c) as [cur|r|] eqn:Hc; [| |done].
    + destruct (Hat cur eq_refl) as ([Hn Hcur] & Hbelow).
      destruct (stages s !! cur) as [st|] eqn:Hst.
      2:{ apply lookup_ge_None in Hst. lia. }
      destruct (step_outcome s c cur st Hc Hst) as (Hvis & Hnot & Hnext).
      destruct (Hforward cur st Hst) as [Hfn Hfj].
      destruct (Hinside cur st Hst) as [Hin Hij].
      rewrite Hvis. split_and!; [done | |].
      * intros nxt Hnxt. destruct (Hnext nxt Hnxt) as [Hn'|(name & Hn')].
        -- specialize (Hfn _ Hn'). specialize (Hin _ Hn'). split; [lia |].
           apply Forall_app. split; [|by repeat constructor].
           eapply Forall_impl; [exact Hbelow | simpl; lia].
        -- specialize (Hfj _ Hn'). specialize (Hij _ Hn'). simpl in *. split; [lia |].
           apply Forall_app. split; [|by repeat constructor].
           eapply Forall_impl; [exact Hbelow | simpl; lia].
      * apply StronglySorted_app. split_and!; [|done | repeat constructor].
        intros x1 x2 Hx1 ->%list_elem_of_singleton.
        by eapply Forall_forall in Hbelow.
    + rewrite step_halted by (by rewrite Hc). rewrite Hc.
      split_and!; [done | by intros ? [=] | done].
Qed.

(** X5.  A schedule the constructor returned in which every jump edge leads
    to a stage declared later cannot loop: whatever the passes do, the run
    returns within as many turns as there are stages, and it runs the stages
    in increasing order, each at most once; [CompilerContextImpl::run] then
    ends normally or in the fatal error. *)
Theorem forward_jumps_terminate (mem : Memory) context settings
    (registry : list (StageInfo (Body := Body))) ctx' s module :
  PassManagerSchedule_new mem context settings registry = Ok (ctx', s) →
  registry ≠ [] →
  (∀ cur st it, stages s !! cur = Some st → it ∈ jumps st → cur < it.2) →
  (∃ r c, Schedule_run (length registry) s module = Some (Ok r, c) ∧
          StronglySorted lt (visited (events c))) ∧
  (∀ print, ∃ outcome,
     CompilerContextImpl_run print (length registry) s module = Some (Ok outcome)).
Proof.
  intros Hnew Hne Hforward.
  apply construction_spec in Hnew as (_ & _ & ->).
  assert (length (stages (wired mem context settings registry)) = length registry)
    as Hlen.
  { unfold wired. cbn [stages]. apply length_imap. }
  destruct (forward_turns (wired mem context settings registry) module)
    with (n := length registry) as (Hlost & Hat & Hsorted).
  - intros cur st Hst. split; [|intros it Hit; by eapply Hforward].
    intros next Hnext. destruct (wired_links _ _ _ _ _ _ Hst) as [Hnexts _].
    destruct (Hnexts _ Hnext). lia.
  - intros cur st Hst. destruct (wired_links _ _ _ _ _ _ Hst) as [Hnexts Hjumps].
    rewrite Hlen. split; [|done]. intros next Hnext. by apply Hnexts.
  - intros Hnil. apply (f_equal length) in Hnil. rewrite Hlen in Hnil.
    by destruct registry.
  - assert (∃ r c, Schedule_run (length registry) (wired mem context settings registry)
                     module = Some (Ok r, c) ∧
                   StronglySorted lt (visited (events c))) as (r & c & Hrun & Hs).
    { unfold Schedule_run.
      destruct (control (steps _ (length registry) _)) as [cur|r|] eqn:Hc.
      - destruct (Hat cur eq_refl) as [? _]. lia.
      - eauto.
      - done. }
    split; [eauto |]. intros print. unfold CompilerContextImpl_run. rewrite Hrun.
    destruct (failed r); eauto.
Qed.

(** X6.  After the current stage succeeded, the executor leaves the default
    path exactly when a name the stage declared is on the module.  With no
    such marker it goes to the default successor, or returns success after
    the last stage, and hands the module on as the passes left it, other
    markers included; with one, it goes to a declared target and removes a
    declared name that was on the module. *)
Theorem jump_only_on_declared_marker s cur st module module1 diags :
  stages s !! cur = Some st →
  Stage_run st module = (success, module1, diags) →
  ((∀ it, it ∈ jumps st → ¬ marker_active module1 it.1) →
   loop_body s cur module =
     (match next_stage st with Some next => At next | None => Returned success end,
      module1, [EvRun cur; EvGetMarkers; EvGetNextStage], diags)) ∧
  (∀ it, it ∈ jumps st → marker_active module1 it.1 →
     ∃ target name,
       (name, target) ∈ jumps st ∧ marker_active module1 name ∧
       loop_body s cur module =
         (At target, remove_pipeline_jump_marker module1 name,
          [EvRun cur; EvGetMarkers; EvRemoveMarker name], diags)).
Proof.
  intros Hst Hrun. unfold loop_body. rewrite Hst, Hrun. cbn [failed]. split.
  - intros Hnone.
    assert (get_jump st (get_pipeline_jump_markers module1) = (None, None)) as ->.
    { destruct (get_pipeline_jump_markers module1) as [ns|] eqn:Hns; [|done].
      simpl. apply get_jump_jumps_none. intros it Hit Hin.
      apply (Hnone it Hit). by exists ns. }
    cbn [fst]. unfold get_next_stage. by destruct (next_stage st).
  - intros it Hit (ns & Hns & Hin).
    destruct (get_jump_shape st (get_pipeline_jump_markers module1))
      as [(target & name & Hjump)|Hjump].
    + rewrite Hjump. cbn [fst snd]. exists target, name. split_and!; [| |done].
      * by eapply get_jump_target_declared.
      * rewrite Hns in Hjump. simpl in Hjump.
        apply get_jump_jumps_match in Hjump as (? & ? & _ & ? & _). by exists ns.
    + exfalso. rewrite Hns in Hjump. simpl in Hjump.
      eapply get_jump_jumps_none in Hjump; [|exact Hit]. done.
Qed.

(** X7.  The edge [get_jump] returns is the first one the stage declared
    under that name: an edge declared later under a name already declared
    is never taken, whatever the markers. *)
Theorem get_jump_first_edge_of_name st (names : option (list StringAttr)) target name :
  get_jump st names = (Some target, Some name) →
  ∃ before after,
    jumps st = before ++ (name, target) :: after ∧ name ∉ before.*1.
Proof.
  destruct names as [ns|]; [|done]. simpl.
  intros (before & after & Hjumps & Hin & Hbefore)%get_jump_jumps_match.
  exists before, after. split; [done |].
  intros ([n t] & Hn & Hit)%list_elem_of_fmap. simpl in Hn. subst n.
  by apply (Hbefore _ Hit).
Qed.


End Turns.

(** * More on the report and on the tracing filter *)

Lemma concat_empty_separator (x : string) (l : list string) :
  String.concat EmptyString (x :: l) = x +:+ String.concat EmptyString l.
Proof. destruct l; [by rewrite string_app_nil_r | done]. Qed.

Lemma notes_closed_form (notes : list Diagnostic) : ∀ err,
  fold_left (λ err note, err +:+ LF +:+ diag_str note) notes err =
  err +:+ String.concat EmptyString ((λ note, LF +:+ diag_str note) <$> notes).
Proof.
  induction notes as [|n notes IH]; intros err.
  - simpl. by rewrite string_app_nil_r.
  - cbn [fold_left fmap list_fmap]. rewrite IH, concat_empty_separator.
    by rewrite !string_app_assoc.
Qed.

(** X9.  The text the handler has gathered when the run ends is the text it
    started from followed, with nothing in between, by the errors raised in
    their order, each as its message and then each of its notes after a line
    feed.  Diagnostics of any other severity leave no trace, and the notes a
    note may carry are not printed. *)
Theorem report_keeps_errors_only (raised : list Diagnostic) (err : string) :
  scoped_diag_handler diag_handler err raised =
  err +:+ String.concat EmptyString
            (render_error <$> filter (λ d, is_error (getSeverity d)) raised).
Proof.
  unfold scoped_diag_handler. revert err.
  induction raised as [|d raised IH]; intros err.
  - simpl. by rewrite string_app_nil_r.
  - cbn [fold_left]. rewrite IH. unfold diag_handler.
    destruct (is_error (getSeverity d)) eqn:Herr.
    + rewrite filter_cons_True by (by rewrite Herr).
      cbn [fmap list_fmap]. rewrite concat_empty_separator.
      unfold render_error. rewrite notes_closed_form.
      by rewrite !string_app_assoc.
    + rewrite filter_cons_False by (rewrite Herr; intros H; exact H). done.
Qed.

Lemma prefix_app (p x : string) : String.prefix p (p +:+ x) = true.
Proof.
  induction p as [|a p IH]; [by destruct x |].
  change (String.prefix (String a p) (String a (p +:+ x)) = true).
  simpl. destruct (Ascii.ascii_dec a a); [exact IH | done].
Qed.

Lemma string_drop_app (p x : string) : string_drop (String.length p) (p +:+ x) = x.
Proof. induction p as [|a p IH]; [by destruct x | exact IH]. Qed.

(** [consume_front] takes a leading [p] off, once. *)
Lemma consume_front_app (p x : string) : consume_front p (p +:+ x) = x.
Proof. unfold consume_front. by rewrite prefix_app, string_drop_app. Qed.

Lemma consume_front_other (p s : string) :
  String.prefix p s = false → consume_front p s = s.
Proof. unfold consume_front. by intros ->. Qed.

(** X10.  The checker of the tracing filter sees through an anonymous
    namespace, as GCC and as MSVC spell it: a pass named with the prefix
    "{anonymous}::" before [x] is accepted exactly when [x] is in the list; with
    the MSVC prefix before [x], exactly when [x] without a following
    "{anonymous}::" is in the list; and a name that starts with neither
    prefix, exactly when it is in the list itself. *)
Theorem checker_strips_anonymous_namespace (allowed : list string) (x : string) :
  Checker_call {| names := allowed |} ("{anonymous}::" +:+ x)
    = bool_decide (x ∈ allowed) ∧
  Checker_call {| names := allowed |} ("`anonymous-namespace'::" +:+ x)
    = bool_decide (consume_front "{anonymous}::" x ∈ allowed) ∧
  (String.prefix "`anonymous-namespace'::" x = false →
   String.prefix "{anonymous}::" x = false →
   Checker_call {| names := allowed |} x = bool_decide (x ∈ allowed)).
Proof.
  unfold Checker_call. cbn [names]. split_and!.
  - rewrite (consume_front_other "`anonymous-namespace'::") by reflexivity.
    by rewrite consume_front_app.
  - by rewrite consume_front_app.
  - intros H1 H2.
    by rewrite (consume_front_other _ x H1), (consume_front_other _ x H2).
Qed.

(** ** Instances *)

Lemma forward_jumps_terminate_witness :
  ∃ r c, Schedule_run 3 (sample_schedule fork_registry) (empty_module 0)
           = Some (Ok r, c) ∧
         StronglySorted lt (visited (events c)).
Proof.
  refine (proj1 (forward_jumps_terminate names_memory fresh_context plain_settings
                   fork_registry fresh_context (sample_schedule fork_registry)
                   (empty_module 0) _ _ _)).
  - vm_compute. reflexivity.
  - discriminate.
  - intros cur st it Hst Hit.
    destruct cur as [|[|[|cur]]]; cbn in Hst; [| | |done]; injection Hst as <-;
      cbn in Hit.
    + repeat (apply elem_of_cons in Hit as [->|Hit]; [cbn; lia |]).
      by apply elem_of_nil in Hit.
    + by apply elem_of_nil in Hit.
    + by apply elem_of_nil in Hit.
Defined.

Lemma jump_only_on_declared_marker_witness :
  loop_body (sample_schedule fork_registry) 1 {| jump_markers := Some ["B"]; body := 0 |}
  = (At 2, {| jump_markers := Some ["B"]; body := 1 |},
     [EvRun 1; EvGetMarkers; EvGetNextStage], []).
Proof.
  refine (proj1 (jump_only_on_declared_marker (sample_schedule fork_registry) 1
                   {| pm := with_passes counting (configure fresh_context plain_settings).2;
                      jumps := []; next_stage := Some 2 |}
                   {| jump_markers := Some ["B"]; body := 0 |}
                   {| jump_markers := Some ["B"]; body := 1 |} [] eq_refl eq_refl) _).
  intros it Hit. by apply elem_of_nil in Hit.
Defined.

Lemma get_jump_first_edge_of_name_witness :
  ∃ before after,
    jumps twice_declared = before ++ ("A", 0) :: after ∧ "A" ∉ before.*1.
Proof.
  apply (get_jump_first_edge_of_name twice_declared (Some ["A"]) 0 "A").
  reflexivity.
Defined.


Lemma report_keeps_errors_only_witness :
  scoped_diag_handler diag_handler "MLIR"
    [MkDiagnostic Warning "unused" [MkDiagnostic Note "declared here" []];
     MkDiagnostic Error "cannot lower"
       [MkDiagnostic Note "see here" [MkDiagnostic Note "hidden" []]];
     MkDiagnostic Error "gave up" []]
  = "MLIR" +:+ "cannot lower" +:+ LF +:+ "see here" +:+ "gave up".
Proof.
  exact (eq_trans (report_keeps_errors_only _ _) eq_refl).
Defined.

Lemma checker_strips_anonymous_namespace_witness :
  Checker_call {| names := ["Lower"] |} "{anonymous}::Lower" = true ∧
  Checker_call {| names := ["Lower"] |} "`anonymous-namespace'::Lower" = true ∧
  Checker_call {| names := ["{anonymous}::Lower"] |} "{anonymous}::Lower" = false.
Proof.
  destruct (checker_strips_anonymous_namespace ["Lower"] "Lower") as (Hgcc & Hmsvc & _).
  destruct (checker_strips_anonymous_namespace ["{anonymous}::Lower"] "Lower")
    as (Hown & _ & _).
  split_and!.
  - exact Hgcc.
  - exact Hmsvc.
  - exact Hown.
Defined.

(** * The lowering of XeTile operations *)

Section Masks.

Local Open Scope Z_scope.

Lemma int64_in_range (z : Z) :
  XeTile.int64_min ≤ z ≤ XeTile.int64_max → XeTile.int64 z = Ok z.
Proof. intros H. unfold XeTile.int64. by rewrite bool_decide_eq_true_2. Qed.

Lemma iota_fill_segment (pre zs post : list Z) (value : Z) :
  XeTile.iota_fill (pre ++ zs ++ post) (length pre) (length zs) value
  = pre ++ seqZ value (Z.of_nat (length zs)) ++ post.
Proof.
  revert pre value. induction zs as [|z zs IH]; intros pre value; [done |].
  cbn [length XeTile.iota_fill].
  rewrite insert_app_r_alt, Nat.sub_diag by done. cbn [app insert list_insert].
  rewrite (cons_middle value pre), (assoc_L (++) pre [value]).
  replace (S (length pre)) with (length (pre ++ [value]))
    by (rewrite length_app; simpl; lia).
  rewrite IH, <-(assoc_L (++)). cbn [app].
  rewrite (seqZ_cons value (Z.of_nat (S (length zs)))) by lia.
  replace (Z.pred (Z.of_nat (S (length zs)))) with (Z.of_nat (length zs)) by lia.
  replace (Z.succ value) with (value + 1) by lia. done.
Qed.

(** [std::iota] over a range of zeros that follows [pre]. *)
Lemma iota_zeros (pre post : list Z) (count value : Z) :
  0 ≤ count →
  XeTile.iota (pre ++ replicate (Z.to_nat count) 0 ++ post)
              (Z.of_nat (length pre)) (Z.of_nat (length pre) + count) value
  = Ok (pre ++ seqZ value count ++ post).
Proof.
  intros Hcount. unfold XeTile.iota.
  rewrite bool_decide_eq_true_2.
  2:{ rewrite !length_app, length_replicate. lia. }
  rewrite Nat2Z.id.
  replace (Z.to_nat (Z.of_nat (length pre) + count - Z.of_nat (length pre)))
    with (length (replicate (Z.to_nat count) 0%Z))
    by (rewrite length_replicate; lia).
  rewrite iota_fill_segment, length_replicate, Z2Nat.id by done. done.
Qed.

Lemma getMask_rows_fills (cols1 cols2 rows : Z) (count : nat) :
  ∀ (i : Z) (filled : list Z),
    0 ≤ cols1 → 0 ≤ cols2 → 0 ≤ i →
    i + Z.of_nat count = rows →
    rows * (cols1 + cols2) ≤ XeTile.int64_max →
    Z.of_nat (length filled) = i * (cols1 + cols2) →
    XeTile.getMask_rows cols1 cols2 (rows * cols1) count i
      (filled ++ replicate (Z.to_nat (Z.of_nat count * (cols1 + cols2))) 0)
    = Ok (filled ++
          (k ← seqZ i (Z.of_nat count);
           seqZ (k * cols1) cols1 ++ seqZ (rows * cols1 + k * cols2) cols2)).
Proof.
  induction count as [|count IH]; intros i filled Hc1 Hc2 Hi Hrows Hmax Hlen.
  - simpl. by rewrite !app_nil_r.
  - cbn [XeTile.getMask_rows]. unfold XeTile.add64, XeTile.mul64.
    assert (XeTile.int64_min ≤ 0) as Hmin by (by compute).
    rewrite (int64_in_range (cols1 + cols2)) by nia. cbn [mbind Exec_bind].
    rewrite (int64_in_range (i * (cols1 + cols2))) by nia. cbn [mbind Exec_bind].
    rewrite (int64_in_range (i * (cols1 + cols2) + cols1)) by nia.
    cbn [mbind Exec_bind].
    rewrite (int64_in_range (i * (cols1 + cols2) + cols1 + cols2)) by nia.
    cbn [mbind Exec_bind].
    rewrite (int64_in_range (i * cols1)) by nia. cbn [mbind Exec_bind].
    rewrite (int64_in_range (i * cols2)) by nia. cbn [mbind Exec_bind].
    rewrite (int64_in_range (rows * cols1 + i * cols2)) by nia.
    cbn [mbind Exec_bind].
    replace (Z.to_nat (Z.of_nat (S count) * (cols1 + cols2)))
      with (Z.to_nat cols1 + (Z.to_nat cols2
            + Z.to_nat (Z.of_nat count * (cols1 + cols2))))%nat by nia.
    rewrite !replicate_add, <-Hlen.
    rewrite iota_zeros by done. cbn [mbind Exec_bind].
    rewrite (assoc_L (++) filled).
    replace (Z.of_nat (length filled) + cols1)
      with (Z.of_nat (length (filled ++ seqZ (i * cols1) cols1)))
      by (rewrite length_app, length_seqZ; lia).
    rewrite iota_zeros by done. cbn [mbind Exec_bind].
    rewrite (assoc_L (++) (filled ++ _)).
    rewrite IH; [| done | done | lia | lia | done |].
    + rewrite (seqZ_cons i (Z.of_nat (S count))) by lia.
      cbn [mbind list_bind]. rewrite <-!(assoc_L (++)).
      replace (Z.pred (Z.of_nat (S count))) with (Z.of_nat count) by lia.
      replace (Z.succ i) with (i + 1) by lia. done.
    + rewrite !length_app, !length_seqZ. nia.
Qed.

Lemma row_blocks_length (f g : Z → Z) (cols1 cols2 : Z) (count : nat) (start : Z) :
  0 ≤ cols1 → 0 ≤ cols2 →
  Z.of_nat (length (k ← seqZ start (Z.of_nat count);
                    seqZ (f k) cols1 ++ seqZ (g k) cols2))
  = Z.of_nat count * (cols1 + cols2).
Proof.
  intros Hc1 Hc2. revert start.
  induction count as [|n IH]; intros start; [done |].
  rewrite (seqZ_cons start (Z.of_nat (S n))) by lia.
  cbn [mbind list_bind]. rewrite !length_app, !length_seqZ.
  replace (Z.pred (Z.of_nat (S n))) with (Z.of_nat n) by lia.
  rewrite !Nat2Z.inj_add, IH. nia.
Qed.

(** The arithmetic of [getMask] stays within [int64_t] and the mask is
    filled row by row. *)
Lemma getMask_defined (rows cols1 cols2 : Z) :
  0 ≤ rows → 0 ≤ cols1 → 0 ≤ cols2 →
  rows * (cols1 + cols2) ≤ XeTile.int64_max →
  XeTile.getMask [rows; cols1] [rows; cols2]
  = Ok (XeTile.row_major_merge rows cols1 cols2).
Proof.
  intros Hrows Hc1 Hc2 Hmax.
  assert (XeTile.int64_min ≤ 0) as Hmin by (by compute).
  unfold XeTile.getMask. rewrite bool_decide_eq_true_2 by done.
  cbn [assert_ mbind Exec_bind]. unfold XeTile.mul64, XeTile.add64.
  rewrite (int64_in_range (rows * cols1)) by nia. cbn [mbind Exec_bind].
  rewrite (int64_in_range (rows * cols2)) by nia. cbn [mbind Exec_bind].
  rewrite (int64_in_range (rows * cols1 + rows * cols2)) by nia.
  cbn [mbind Exec_bind]. rewrite bool_decide_eq_false_2 by nia.
  pose proof (getMask_rows_fills cols1 cols2 rows (Z.to_nat rows) 0 []) as Hfill.
  rewrite Z2Nat.id in Hfill by done. cbn [app] in Hfill.
  replace (rows * cols1 + rows * cols2) with (rows * (cols1 + cols2)) by lia.
  rewrite Hfill; [done | done | done | done | lia | done | simpl; lia].
Qed.

(** X11.  [getMask] aborts on its assertion exactly when a shape is not of
    rank two or the leading dimensions differ.  For shapes with the same
    number of rows, dimensions that are not negative and a total size within
    [int64_t], it returns the row-major mask of the horizontal merge: for
    each row in turn the indices of that row of the first operand, then the
    indices of that row of the second, which start after the whole first
    operand. *)
Theorem getMask_row_major (shape1 shape2 : list Z) :
  (∀ line, XeTile.getMask shape1 shape2 = AssertionFailed line ↔
           line = 59%nat ∧
           ¬ (length shape1 = 2%nat ∧ length shape2 = 2%nat ∧
              shape1 !! 0%nat = shape2 !! 0%nat)) ∧
  (∀ rows cols1 cols2,
     shape1 = [rows; cols1] → shape2 = [rows; cols2] →
     0 ≤ rows → 0 ≤ cols1 → 0 ≤ cols2 →
     rows * (cols1 + cols2) ≤ XeTile.int64_max →
     XeTile.getMask shape1 shape2 = Ok (XeTile.row_major_merge rows cols1 cols2) ∧
     Z.of_nat (length (XeTile.row_major_merge rows cols1 cols2))
       = rows * (cols1 + cols2)).
Proof.
  split.
  - intros line. unfold XeTile.getMask.
    destruct shape1 as [|rows1 [|cols1 [|? ?]]];
      try (split; [intros [= <-]; split; [done | intros (? & ? & ?); done]
                  | by intros [-> _]]).
    destruct shape2 as [|rows2 [|cols2 [|? ?]]];
      try (split; [intros [= <-]; split; [done | intros (? & ? & ?); done]
                  | by intros [-> _]]).
    case_bool_decide as Hrows; cbn [assert_ mbind Exec_bind].
    + subst rows2. split; [|intros [_ H]; by destruct H].
      unfold XeTile.mul64, XeTile.add64, XeTile.int64.
      repeat (case_bool_decide; cbn [mbind Exec_bind]; try done).
      intros Hrun. exfalso. revert Hrun.
      generalize (replicate (Z.to_nat (rows1 * cols1 + rows1 * cols2)) 0) as mask.
      generalize 0 as i. generalize (rows1 * cols1) as size1.
      induction (Z.to_nat rows1) as [|count IH]; intros size1 i mask; [done |].
      cbn [XeTile.getMask_rows].
      unfold XeTile.mul64, XeTile.add64, XeTile.int64, XeTile.iota.
      repeat (case_bool_decide; cbn [mbind Exec_bind]; try done).
      apply IH.
    + split; [intros [= <-]; split; [done |] | by intros [-> _]].
      intros (_ & _ & [= ?]). done.
  - intros rows cols1 cols2 -> -> Hrows Hc1 Hc2 Hmax. split.
    + by apply getMask_defined.
    + unfold XeTile.row_major_merge.
      rewrite <-(Z2Nat.id rows) at 1 by done.
      rewrite row_blocks_length by done. lia.
Qed.

Lemma bind_app_Permutation {A B : Type} (f g : A → list B) (l : list A) :
  (x ← l; f x ++ g x) ≡ₚ (l ≫= f) ++ (l ≫= g).
Proof.
  induction l as [|x l IH]; [done |]. cbn [mbind list_bind].
  rewrite IH, <-!(assoc_L (++)). f_equiv.
  rewrite !(assoc_L (++)). f_equiv. apply Permutation_app_comm.
Qed.

Lemma row_blocks_consecutive (base cols : Z) (count : nat) (start : Z) :
  0 ≤ cols →
  (k ← seqZ start (Z.of_nat count); seqZ (base + k * cols) cols)
  = seqZ (base + start * cols) (Z.of_nat count * cols).
Proof.
  intros Hcols. revert start. induction count as [|n IH]; intros start.
  - by rewrite Z.mul_0_l.
  - rewrite (seqZ_cons start (Z.of_nat (S n))) by lia.
    cbn [mbind list_bind].
    replace (Z.pred (Z.of_nat (S n))) with (Z.of_nat n) by lia.
    rewrite IH.
    replace (Z.of_nat (S n) * cols) with (cols + Z.of_nat n * cols) by lia.
    rewrite seqZ_app by nia. do 2 f_equal. lia.
Qed.

(** X12.  The mask of [getMask] is a permutation of the positions of the
    two operands laid end to end: the shuffle that [concat] builds from it
    takes every element of either operand exactly once. *)
Theorem getMask_permutation (rows cols1 cols2 : Z) :
  0 ≤ rows → 0 ≤ cols1 → 0 ≤ cols2 →
  rows * (cols1 + cols2) ≤ XeTile.int64_max →
  ∃ mask, XeTile.getMask [rows; cols1] [rows; cols2] = Ok mask ∧
          mask ≡ₚ seqZ 0 (rows * cols1 + rows * cols2).
Proof.
  intros Hrows Hc1 Hc2 Hmax. eexists. split; [by apply getMask_defined |].
  unfold XeTile.row_major_merge. rewrite bind_app_Permutation.
  destruct (Z_of_nat_complete rows Hrows) as [n ->].
  rewrite (row_blocks_consecutive (Z.of_nat n * cols1) cols2) by done.
  rewrite (list_bind_ext _ (λ k, seqZ (0 + k * cols1) cols1)
             (seqZ 0 (Z.of_nat n)) (seqZ 0 (Z.of_nat n)))
    by (intros; by rewrite ?Z.add_0_l).
  rewrite (row_blocks_consecutive 0 cols1) by done.
  rewrite (seqZ_app 0) by nia.
  replace (0 + 0 * cols1) with 0 by lia.
  replace (Z.of_nat n * cols1 + 0 * cols2) with (0 + Z.of_nat n * cols1) by lia.
  done.
Qed.

Section Shuffle.

Context {T : Type}.

Lemma shuffle_segment (v1 v2 : list T) (first count : nat) :
  (first + count ≤ length (v1 ++ v2))%nat →
  XeTile.shuffle v1 v2 (seqZ (Z.of_nat first) (Z.of_nat count))
  = Some <$> take count (drop first (v1 ++ v2)).
Proof.
  intros Hlen. unfold XeTile.shuffle.
  apply list_eq. intros i. rewrite !list_lookup_fmap.
  destruct (decide (i < count)%nat) as [Hi|Hi].
  - rewrite lookup_seqZ_lt by lia. cbn [fmap option_fmap option_map].
    rewrite bool_decide_eq_true_2 by lia.
    rewrite lookup_take_lt, lookup_drop by done.
    replace (Z.to_nat (Z.of_nat first + Z.of_nat i)) with (first + i)%nat by lia.
    destruct (lookup_lt_is_Some_2 (v1 ++ v2) (first + i)%nat) as [x Hx]; [lia |].
    by rewrite Hx.
  - rewrite lookup_seqZ_ge by lia.
    rewrite lookup_take_ge by lia. done.
Qed.

Lemma shuffle_app (v1 v2 : list T) (mask1 mask2 : list Z) :
  XeTile.shuffle v1 v2 (mask1 ++ mask2)
  = XeTile.shuffle v1 v2 mask1 ++ XeTile.shuffle v1 v2 mask2.
Proof. apply fmap_app. Qed.

Lemma length_concat_rows (cols : nat) (rows : list (list T)) :
  Forall (λ r, length r = cols) rows →
  length (concat rows) = (length rows * cols)%nat.
Proof.
  induction 1 as [|r rows Hr _ IH]; [done |].
  cbn [concat length]. rewrite length_app, IH, Hr. lia.
Qed.

Lemma row_of_concat (cols : nat) (rows : list (list T)) (rest : list T)
    (i : nat) (row : list T) :
  Forall (λ r, length r = cols) rows → rows !! i = Some row →
  take cols (drop (i * cols) (concat rows ++ rest)) = row.
Proof.
  intros Hrows. revert i. induction Hrows as [|r rows Hr _ IH]; intros i Hi.
  - done.
  - destruct i as [|i]; cbn [concat]; rewrite <-(assoc_L (++)).
    + injection Hi as ->. rewrite Nat.mul_0_l, drop_0. by apply take_app_length'.
    + replace (S i * cols)%nat with (cols + i * cols)%nat by lia.
      rewrite drop_app_add' by done. by apply IH.
Qed.

Lemma shuffle_rows (A B : list (list T)) (cols1 cols2 count : nat) :
  ∀ start : nat,
    length A = length B →
    Forall (λ r, length r = cols1) A → Forall (λ r, length r = cols2) B →
    (start + count = length A)%nat →
    XeTile.shuffle (concat A) (concat B)
      (k ← seqZ (Z.of_nat start) (Z.of_nat count);
       seqZ (k * Z.of_nat cols1) (Z.of_nat cols1)
       ++ seqZ (Z.of_nat (length A) * Z.of_nat cols1 + k * Z.of_nat cols2)
               (Z.of_nat cols2))
    = Some <$> concat (zip_with app (drop start A) (drop start B)).
Proof.
  induction count as [|count IH]; intros start Hlen HA HB Hstart.
  - rewrite !drop_ge by lia. done.
  - destruct (lookup_lt_is_Some_2 A start) as [a Ha]; [lia |].
    destruct (lookup_lt_is_Some_2 B start) as [b Hb]; [lia |].
    rewrite (drop_S A a start Ha), (drop_S B b start Hb).
    cbn [zip_with concat].
    rewrite (seqZ_cons (Z.of_nat start) (Z.of_nat (S count))) by lia.
    cbn [mbind list_bind]. rewrite !shuffle_app, !fmap_app.
    replace (Z.pred (Z.of_nat (S count))) with (Z.of_nat count) by lia.
    replace (Z.succ (Z.of_nat start)) with (Z.of_nat (S start)) by lia.
    rewrite IH by (done || lia).
    pose proof (length_concat_rows cols1 A HA) as HlenA.
    pose proof (length_concat_rows cols2 B HB) as HlenB.
    rewrite <-Nat2Z.inj_mul, shuffle_segment
      by (rewrite length_app, HlenA; nia).
    rewrite (row_of_concat cols1 A (concat B) start a HA Ha).
    replace (Z.of_nat (length A) * Z.of_nat cols1
             + Z.of_nat start * Z.of_nat cols2)
      with (Z.of_nat (length (concat A) + start * cols2)) by (rewrite HlenA; lia).
    rewrite shuffle_segment by (rewrite length_app, HlenA, HlenB; nia).
    rewrite drop_app_add, <-(app_nil_r (concat B)).
    rewrite (row_of_concat cols2 B [] start b HB Hb).
    by rewrite <-(assoc_L (++)).
Qed.

(** X13.  The shuffle of [concat] sets two matrices side by side.  For the
    row-major elements of two matrices with the same number of rows, the
    mask of [getMask] selects, row after row, the row of the first matrix
    followed by the row of the second. *)
Theorem concat_mask_joins_rows (A B : list (list T)) (cols1 cols2 : nat) :
  length A = length B →
  Forall (λ r, length r = cols1) A → Forall (λ r, length r = cols2) B →
  Z.of_nat (length A) * (Z.of_nat cols1 + Z.of_nat cols2) ≤ XeTile.int64_max →
  ∃ mask,
    XeTile.getMask [Z.of_nat (length A); Z.of_nat cols1]
                   [Z.of_nat (length B); Z.of_nat cols2] = Ok mask ∧
    XeTile.shuffle (concat A) (concat B) mask
    = Some <$> concat (zip_with app A B).
Proof.
  intros Hlen HA HB Hmax. eexists. split.
  - rewrite <-Hlen. apply getMask_defined; lia.
  - unfold XeTile.row_major_merge.
    apply (shuffle_rows A B cols1 cols2 (length A) 0%nat); done.
Qed.

End Shuffle.

End Masks.

Section Tiles.

Local Open Scope Z_scope.

(** X17.  [getBlockArrayLength] gives the greatest number of blocks of
    [block_width] elements of [bitWidth] bits that fit in 64 bytes; that
    is zero for a block wider than 64 bytes, and for a negative width,
    which is read as an unsigned number.  The width zero divides by
    zero. *)
Theorem getBlockArrayLength_greatest (bitWidth block_width : Z) :
  0 < bitWidth → - 2 ^ 31 ≤ block_width < 2 ^ 31 →
  (0 < block_width →
   ∃ n, XeTile.getBlockArrayLength bitWidth block_width = Ok n ∧
        0 ≤ n ∧
        n * (bitWidth * block_width) ≤ 512 < (n + 1) * (bitWidth * block_width)) ∧
  (block_width < 0 → XeTile.getBlockArrayLength bitWidth block_width = Ok 0) ∧
  (block_width = 0 → XeTile.getBlockArrayLength bitWidth block_width = Undefined).
Proof.
  intros Hbits Hwidth. unfold XeTile.getBlockArrayLength. split_and!.
  - intros Hpos. rewrite Z.mod_small by lia.
    rewrite bool_decide_eq_false_2 by lia.
    eexists. split; [done |]. rewrite Z.div_div by lia.
    change (64 * 8) with 512.
    pose proof (Z.mul_div_le 512 (bitWidth * block_width)).
    pose proof (Z.mul_succ_div_gt 512 (bitWidth * block_width)).
    pose proof (Z.div_pos 512 (bitWidth * block_width)). nia.
  - intros Hneg.
    replace (block_width `mod` 2 ^ 32) with (block_width + 2 ^ 32)
      by (apply Z.mod_unique with (-1); lia).
    rewrite bool_decide_eq_false_2 by lia. f_equal.
    apply Z.div_small. split.
    + apply Z.div_pos; lia.
    + apply Z.le_lt_trans with (64 * 8); [| lia].
      apply Z.div_le_upper_bound; nia.
  - intros ->. by rewrite bool_decide_eq_true_2 by (by right).
Qed.

Lemma for_each_total {A B : Type} (body : A → Exec B) (g : A → B) (range : list A) :
  (∀ i, i ∈ range → body i = Ok (g i)) →
  XeTile.for_each body range = Ok (g <$> range).
Proof.
  induction range as [|i range IH]; intros Hbody; [done |].
  cbn [XeTile.for_each]. rewrite Hbody by left. cbn [mbind Exec_bind].
  rewrite IH by (intros; apply Hbody; by right). done.
Qed.

Lemma row_counters (i : Z) (cols count : nat) :
  ∀ start : nat,
    (start + count ≤ cols)%nat →
    (j ← seqZ (Z.of_nat start) (Z.of_nat count); [(i, j)])
    = (λ k, (k / Z.of_nat cols, k `mod` Z.of_nat cols))
      <$> seqZ (i * Z.of_nat cols + Z.of_nat start) (Z.of_nat count).
Proof.
  induction count as [|count IH]; intros start Hstart; [done |].
  rewrite !(seqZ_cons _ (Z.of_nat (S count))) by lia.
  cbn [mbind list_bind fmap list_fmap app].
  replace (Z.pred (Z.of_nat (S count))) with (Z.of_nat count) by lia.
  replace (Z.succ (Z.of_nat start)) with (Z.of_nat (S start)) by lia.
  rewrite IH by lia.
  replace (Z.succ (i * Z.of_nat cols + Z.of_nat start))
    with (i * Z.of_nat cols + Z.of_nat (S start)) by lia.
  f_equal. f_equal.
  - apply Z.div_unique with (Z.of_nat start); lia.
  - apply Z.mod_unique with i; lia.
Qed.

(** The two nested counters in row-major order. *)
Lemma nested_counters (n : nat) (m : Z) :
  0 ≤ m →
  (i ← seqZ 0 (Z.of_nat n); j ← seqZ 0 m; [(i, j)])
  = (λ k, (k / m, k `mod` m)) <$> seqZ 0 (Z.of_nat n * m).
Proof.
  intros Hm. destruct (Z_of_nat_complete m Hm) as [cols ->].
  induction n as [|n IH]; [done |].
  replace (Z.of_nat (S n)) with (Z.of_nat n + 1) by lia.
  rewrite seqZ_app, bind_app, IH by lia.
  replace ((Z.of_nat n + 1) * Z.of_nat cols)
    with (Z.of_nat n * Z.of_nat cols + Z.of_nat cols) by lia.
  rewrite seqZ_app, fmap_app by nia. f_equal.
  rewrite !Z.add_0_l. change (seqZ (Z.of_nat n) 1) with [Z.of_nat n].
  cbn [mbind list_bind]. rewrite app_nil_r.
  pose proof (row_counters (Z.of_nat n) cols cols 0%nat (le_n _)) as Hrow.
  change (Z.of_nat 0) with 0 in Hrow. by rewrite Z.add_0_r in Hrow.
Qed.

Lemma to_int_small (z : Z) : - 2 ^ 31 ≤ z < 2 ^ 31 → XeTile.to_int z = z.
Proof. intros Hz. unfold XeTile.to_int. rewrite Z.mod_small; lia. Qed.

Lemma div64_nonneg (a b : Z) :
  0 ≤ a ≤ XeTile.int64_max → 0 < b → XeTile.div64 a b = Ok (a / b).
Proof.
  intros Ha Hb. unfold XeTile.div64. rewrite bool_decide_eq_false_2 by lia.
  rewrite Z.quot_div_nonneg by lia. apply int64_in_range.
  pose proof (Z.div_pos a b). pose proof (Z.div_le_upper_bound a b a).
  assert (XeTile.int64_min ≤ 0) by (by compute). nia.
Qed.

Lemma descriptor_blocks_bounds (op : XeTile.InitTileOp) (shape1 innerBlk1 : Z) :
  0 < XeTile.tile_elementType (XeTile.init_type op) → 0 < innerBlk1 →
  (XeTile.init_isForLoad op = true → innerBlk1 < shape1 →
   XeTile.tile_elementType (XeTile.init_type op) * innerBlk1 ≤ 64 * 8) →
  1 ≤ XeTile.descriptor_blocks op shape1 innerBlk1 ≤ 64 * 8.
Proof.
  intros Hbits Hblk Hfit. unfold XeTile.descriptor_blocks.
  destruct (XeTile.init_isForLoad op); cbn [andb]; [| lia].
  case_bool_decide as Hwide; [| lia].
  rewrite Z.div_div by lia. split.
  - apply Z.div_le_lower_bound; [nia |]. rewrite Z.mul_1_r. by apply Hfit.
  - apply Z.div_le_upper_bound; nia.
Qed.

(** Blocks that divide into the tile: all the arithmetic is defined, and
    the descriptors come in the row-major order of the blocks. *)
Lemma InitTile_defined (op : XeTile.InitTileOp)
    (shape0 shape1 innerBlk0 innerBlk1 : Z) (offsetsX offsetsY : XeTile.Value)
    (more : list XeTile.Value) :
  XeTile.tile_shape (XeTile.init_type op) = [shape0; shape1] →
  XeTile.tile_innerBlocks (XeTile.init_type op) = Some [innerBlk0; innerBlk1] →
  XeTile.gather_offsets (XeTile.init_static_offsets op) (XeTile.init_offsets op)
    = Ok (offsetsX :: offsetsY :: more) →
  0 < XeTile.tile_elementType (XeTile.init_type op) →
  0 < innerBlk0 → 0 < innerBlk1 < 2 ^ 31 →
  0 ≤ shape0 < 2 ^ 31 → 0 ≤ shape1 < 2 ^ 31 →
  (XeTile.init_isForLoad op = true → innerBlk1 < shape1 →
   XeTile.tile_elementType (XeTile.init_type op) * innerBlk1 ≤ 64 * 8) →
  let array_length := XeTile.descriptor_blocks op shape1 innerBlk1 in
  let width := array_length * innerBlk1 in
  let tDescTy :=
    {| XeTile.td_shape := [innerBlk0; innerBlk1];
       XeTile.td_elementType := XeTile.tile_elementType (XeTile.init_type op);
       XeTile.td_array_length := array_length |} in
  XeTile.SgInitTileOpPattern op
  = Ok (XeTile.replaceOp
          ((λ k, XeTile.block_descriptor tDescTy (XeTile.init_source op)
                   offsetsX offsetsY
                   (innerBlk0 * (k / (shape1 / width)),
                    width * (k `mod` (shape1 / width))))
           <$> seqZ 0 (shape0 / innerBlk0 * (shape1 / width)))).
Proof.
  intros Hshape Hblk Hoffsets Hbits Hb0 Hb1 Hs0 Hs1 Hfit array_length width tDescTy.
  pose proof (descriptor_blocks_bounds op shape1 innerBlk1 Hbits (proj1 Hb1) Hfit)
    as Hlen. fold array_length in Hlen.
  assert (XeTile.int64_min ≤ 0) as Hmin by (by compute).
  assert (2 ^ 62 ≤ XeTile.int64_max) as Hmax by (by compute).
  assert (0 < width) as Hwidth by (subst width; nia).
  pose proof (Z.div_pos shape0 innerBlk0) as Hrows.
  pose proof (Z.div_pos shape1 width) as Hcols.
  pose proof (Z.mul_div_le shape0 innerBlk0) as Hrows_le.
  pose proof (Z.mul_div_le shape1 width) as Hcols_le.
  unfold XeTile.SgInitTileOpPattern. rewrite Hshape, Hblk.
  assert ((if XeTile.init_isForLoad op && bool_decide (innerBlk1 < shape1)
           then XeTile.getBlockArrayLength
                  (XeTile.tile_elementType (XeTile.init_type op))
                  (XeTile.to_int innerBlk1)
           else mret 1) = Ok array_length) as ->.
  { subst array_length. unfold XeTile.descriptor_blocks.
    destruct (XeTile.init_isForLoad op && bool_decide (innerBlk1 < shape1));
      [| done].
    rewrite to_int_small by lia. unfold XeTile.getBlockArrayLength.
    rewrite Z.mod_small by lia. by rewrite bool_decide_eq_false_2 by lia. }
  cbn [mbind Exec_bind]. unfold XeTile.mul64.
  rewrite (int64_in_range (array_length * innerBlk1)) by nia.
  cbn [mbind Exec_bind]. fold width.
  rewrite !div64_nonneg by lia. cbn [mbind Exec_bind].
  rewrite Hoffsets. cbn [mbind Exec_bind].
  unfold XeTile.block_indices.
  rewrite bool_decide_eq_false_2 by (unfold XeTile.int_max; nia).
  cbn [mbind Exec_bind].
  rewrite (for_each_total _ (λ ij, (innerBlk0 * ij.1, width * ij.2))).
  2:{ intros [i j] Hij. apply list_elem_of_bind in Hij as (i' & Hj & Hi).
      apply list_elem_of_bind in Hj as (j' & Hij & Hj).
      apply list_elem_of_singleton in Hij. injection Hij as -> ->.
      apply elem_of_seqZ in Hi, Hj.
      unfold XeTile.block_offsets, XeTile.mul64. cbn [fst snd].
      rewrite (int64_in_range (innerBlk0 * i')) by nia. cbn [mbind Exec_bind].
      rewrite (int64_in_range (width * j')) by nia. done. }
  cbn [mbind Exec_bind mret Exec_ret]. do 2 f_equal.
  rewrite <-(Z2Nat.id (shape0 / innerBlk0)) by lia.
  rewrite nested_counters by lia.
  rewrite <-!list_fmap_compose. done.
Qed.

Lemma lookup_fmap_seqZ {A : Type} (f : Z → A) (n : Z) (k : nat) (x : A) :
  (f <$> seqZ 0 n) !! k = Some x ↔ Z.of_nat k < n ∧ x = f (Z.of_nat k).
Proof.
  rewrite list_lookup_fmap, fmap_Some. split.
  - intros (z & Hz & ->). apply lookup_seqZ in Hz as [-> ?]. by rewrite Z.add_0_l.
  - intros [Hk ->]. exists (Z.of_nat k). split; [| done].
    apply lookup_seqZ. by rewrite Z.add_0_l.
Qed.

(** X18.  [SgInitTileOpPattern] on a tile of rank two with inner blocks:
    it succeeds with one descriptor for each whole group of blocks, in
    row-major order.  A group is one block high and [array_length] blocks
    wide; the descriptor of the group [(i, j)] is created at the offsets of
    the tile moved by [i] block heights and [j] group widths. *)
Theorem InitTile_row_major_descriptors (op : XeTile.InitTileOp)
    (shape0 shape1 innerBlk0 innerBlk1 : Z) (offsetsX offsetsY : XeTile.Value)
    (more : list XeTile.Value) :
  XeTile.tile_shape (XeTile.init_type op) = [shape0; shape1] →
  XeTile.tile_innerBlocks (XeTile.init_type op) = Some [innerBlk0; innerBlk1] →
  XeTile.gather_offsets (XeTile.init_static_offsets op) (XeTile.init_offsets op)
    = Ok (offsetsX :: offsetsY :: more) →
  0 < XeTile.tile_elementType (XeTile.init_type op) →
  0 < innerBlk0 → 0 < innerBlk1 < 2 ^ 31 →
  0 ≤ shape0 < 2 ^ 31 → 0 ≤ shape1 < 2 ^ 31 →
  (XeTile.init_isForLoad op = true → innerBlk1 < shape1 →
   XeTile.tile_elementType (XeTile.init_type op) * innerBlk1 ≤ 64 * 8) →
  let array_length := XeTile.descriptor_blocks op shape1 innerBlk1 in
  let width := array_length * innerBlk1 in
  ∃ newOps,
    XeTile.SgInitTileOpPattern op = Ok (XeTile.replaceOp newOps) ∧
    Z.of_nat (length newOps) = shape0 / innerBlk0 * (shape1 / width) ∧
    ∀ i j, 0 ≤ i < shape0 / innerBlk0 → 0 ≤ j < shape1 / width →
      newOps !! Z.to_nat (i * (shape1 / width) + j)
      = Some (XeTile.CreateNdDescOp
                {| XeTile.td_shape := [innerBlk0; innerBlk1];
                   XeTile.td_elementType :=
                     XeTile.tile_elementType (XeTile.init_type op);
                   XeTile.td_array_length := array_length |}
                (XeTile.init_source op)
                (XeTile.AddIOp (XeTile.ConstantOp (innerBlk0 * i)) offsetsX)
                (XeTile.AddIOp (XeTile.ConstantOp (width * j)) offsetsY)).
Proof.
  intros Hshape Hblk Hoffsets Hbits Hb0 Hb1 Hs0 Hs1 Hfit array_length width.
  eexists. split; [by eapply InitTile_defined |].
  fold array_length width.
  pose proof (Z.div_pos shape0 innerBlk0) as Hrows.
  pose proof (descriptor_blocks_bounds op shape1 innerBlk1 Hbits (proj1 Hb1) Hfit)
    as Hlen.
  fold array_length in Hlen.
  assert (0 < width) as Hwidth by (subst width; nia).
  pose proof (Z.div_pos shape1 width) as Hcols.
  split.
  - rewrite length_fmap, length_seqZ. nia.
  - intros i j Hi Hj. apply lookup_fmap_seqZ.
    rewrite Z2Nat.id by nia. split; [nia |].
    unfold XeTile.block_descriptor. cbn [fst snd].
    rewrite Z.div_add_l, Z.div_small, Z.add_0_r by lia.
    rewrite Z.add_comm, Z.mod_add, Z.mod_small by lia. done.
Qed.

(** X19.  The descriptors of [SgInitTileOpPattern] cover the whole groups
    of blocks of the tile, each element once: an element is in the part of
    some descriptor exactly when its row is in a whole block and its column
    in a whole group, and then in the part of one descriptor only.  What
    the tile has beyond the last whole group of blocks is in no
    descriptor. *)
Theorem InitTile_covers_whole_groups_once (op : XeTile.InitTileOp)
    (shape0 shape1 innerBlk0 innerBlk1 : Z) (offsetsX offsetsY : XeTile.Value)
    (more : list XeTile.Value) :
  XeTile.tile_shape (XeTile.init_type op) = [shape0; shape1] →
  XeTile.tile_innerBlocks (XeTile.init_type op) = Some [innerBlk0; innerBlk1] →
  XeTile.gather_offsets (XeTile.init_static_offsets op) (XeTile.init_offsets op)
    = Ok (offsetsX :: offsetsY :: more) →
  0 < XeTile.tile_elementType (XeTile.init_type op) →
  0 < innerBlk0 → 0 < innerBlk1 < 2 ^ 31 →
  0 ≤ shape0 < 2 ^ 31 → 0 ≤ shape1 < 2 ^ 31 →
  (XeTile.init_isForLoad op = true → innerBlk1 < shape1 →
   XeTile.tile_elementType (XeTile.init_type op) * innerBlk1 ≤ 64 * 8) →
  let width := XeTile.descriptor_blocks op shape1 innerBlk1 * innerBlk1 in
  ∃ newOps,
    XeTile.SgInitTileOpPattern op = Ok (XeTile.replaceOp newOps) ∧
    ∀ row col,
      ((∃ k descriptor, newOps !! k = Some descriptor ∧
                        XeTile.covers descriptor row col) ↔
       0 ≤ row < shape0 - shape0 `mod` innerBlk0 ∧
       0 ≤ col < shape1 - shape1 `mod` width) ∧
      (∀ k1 k2 descriptor1 descriptor2,
         newOps !! k1 = Some descriptor1 → newOps !! k2 = Some descriptor2 →
         XeTile.covers descriptor1 row col → XeTile.covers descriptor2 row col →
         k1 = k2).
Proof.
  intros Hshape Hblk Hoffsets Hbits Hb0 Hb1 Hs0 Hs1 Hfit width.
  eexists. split; [by eapply InitTile_defined |].
  pose proof (descriptor_blocks_bounds op shape1 innerBlk1 Hbits (proj1 Hb1) Hfit)
    as Hlen.
  fold width. assert (0 < width) as Hwidth by (subst width; nia).
  pose proof (Z.div_pos shape0 innerBlk0) as Hrows.
  pose proof (Z.div_pos shape1 width) as Hcols.
  pose proof (Z.div_mod shape0 innerBlk0) as Hsplit0.
  pose proof (Z.div_mod shape1 width) as Hsplit1.
  set (blocks0 := shape0 / innerBlk0) in *.
  set (blocks1 := shape1 / width) in *.
  assert (∀ k descriptor row col,
    ((λ k, XeTile.block_descriptor
             {| XeTile.td_shape := [innerBlk0; innerBlk1];
                XeTile.td_elementType :=
                  XeTile.tile_elementType (XeTile.init_type op);
                XeTile.td_array_length :=
                  XeTile.descriptor_blocks op shape1 innerBlk1 |}
             (XeTile.init_source op) offsetsX offsetsY
             (innerBlk0 * (k / blocks1), width * (k `mod` blocks1)))
     <$> seqZ 0 (blocks0 * blocks1)) !! k = Some descriptor →
    XeTile.covers descriptor row col →
    0 < blocks1 ∧ 0 ≤ Z.of_nat k < blocks0 * blocks1 ∧
    Z.of_nat k / blocks1 = row / innerBlk0 ∧
    Z.of_nat k `mod` blocks1 = col / width) as Hcover.
  { intros k descriptor row col [Hk ->]%lookup_fmap_seqZ [Hrow Hcol].
    cbn [fst snd XeTile.td_array_length] in Hrow, Hcol. fold width in Hcol.
    assert (0 < blocks1) as Hpos by nia.
    pose proof (Z.mod_pos_bound (Z.of_nat k) blocks1 Hpos).
    split_and!; [done | lia | lia | |].
    - apply Z.div_unique with (row - innerBlk0 * (Z.of_nat k / blocks1)); lia.
    - apply Z.div_unique with (col - width * (Z.of_nat k `mod` blocks1)); lia. }
  intros row col. split; [split |].
  - intros (k & descriptor & Hk & Hin).
    destruct (Hcover k descriptor row col Hk Hin) as (Hpos & Hrange & Hi & Hj).
    pose proof (Z.mod_pos_bound (Z.of_nat k) blocks1 Hpos).
    pose proof (Z.div_lt_upper_bound (Z.of_nat k) blocks1 blocks0 Hpos).
    pose proof (Z.div_pos (Z.of_nat k) blocks1).
    pose proof (Z.div_mod row innerBlk0).
    pose proof (Z.mod_pos_bound row innerBlk0 Hb0).
    pose proof (Z.div_mod col width).
    pose proof (Z.mod_pos_bound col width Hwidth).
    nia.
  - intros [Hrow Hcol].
    pose proof (Z.div_mod row innerBlk0).
    pose proof (Z.mod_pos_bound row innerBlk0 Hb0).
    pose proof (Z.div_mod col width).
    pose proof (Z.mod_pos_bound col width Hwidth).
    pose proof (Z.div_pos row innerBlk0).
    pose proof (Z.div_pos col width).
    assert (row / innerBlk0 < blocks0) by (apply Z.div_lt_upper_bound; lia).
    assert (col / width < blocks1) by (apply Z.div_lt_upper_bound; lia).
    exists (Z.to_nat (row / innerBlk0 * blocks1 + col / width)). eexists. split.
    + apply lookup_fmap_seqZ. split; [| done]. rewrite Z2Nat.id by nia. nia.
    + rewrite Z2Nat.id by nia.
      rewrite Z.div_add_l, (Z.div_small (col / width)), Z.add_0_r by lia.
      rewrite Z.add_comm, Z.mod_add, Z.mod_small by lia.
      split; cbn [fst snd XeTile.td_array_length]; fold width; lia.
  - intros k1 k2 descriptor1 descriptor2 Hk1 Hk2 Hin1 Hin2.
    destruct (Hcover k1 descriptor1 row col Hk1 Hin1) as (Hpos & _ & Hi1 & Hj1).
    destruct (Hcover k2 descriptor2 row col Hk2 Hin2) as (_ & _ & Hi2 & Hj2).
    pose proof (Z.div_mod (Z.of_nat k1) blocks1).
    pose proof (Z.div_mod (Z.of_nat k2) blocks1).
    apply Nat2Z.inj. nia.
Qed.

(** X20.  [SgInitTileOpPattern] on a tile for a load whose inner block is
    narrower than the tile but wider than 64 bytes: the array length is
    zero, the width of a group of blocks is zero, and the count of groups
    in a row divides by it. *)
Theorem InitTile_wide_block_divides_by_zero (op : XeTile.InitTileOp)
    (shape0 shape1 innerBlk0 innerBlk1 : Z) :
  XeTile.tile_shape (XeTile.init_type op) = [shape0; shape1] →
  XeTile.tile_innerBlocks (XeTile.init_type op) = Some [innerBlk0; innerBlk1] →
  XeTile.init_isForLoad op = true →
  0 < XeTile.tile_elementType (XeTile.init_type op) →
  0 < innerBlk1 < 2 ^ 31 → innerBlk1 < shape1 →
  64 * 8 < XeTile.tile_elementType (XeTile.init_type op) * innerBlk1 →
  XeTile.SgInitTileOpPattern op = Undefined.
Proof.
  intros Hshape Hblk Hload Hbits Hb1 Hnarrow Hwide.
  unfold XeTile.SgInitTileOpPattern. rewrite Hshape, Hblk, Hload.
  rewrite bool_decide_eq_true_2 by done. cbn [andb].
  rewrite to_int_small by lia. unfold XeTile.getBlockArrayLength.
  rewrite Z.mod_small by lia. rewrite bool_decide_eq_false_2 by lia.
  rewrite Z.div_div, Z.div_small by lia.
  cbn [mbind Exec_bind]. unfold XeTile.mul64.
  rewrite Z.mul_0_l, int64_in_range by (by compute).
  cbn [mbind Exec_bind].
  unfold XeTile.div64, XeTile.int64.
  repeat (case_bool_decide; cbn [mbind Exec_bind]; try done).
Qed.

Lemma lookup_concat_rows {A : Type} (cols : nat) (rows : list (list A))
    (k a : nat) (row : list A) :
  Forall (λ r, length r = cols) rows → rows !! k = Some row → (a < cols)%nat →
  concat rows !! (k * cols + a)%nat = row !! a.
Proof.
  intros Hrows. revert k. induction Hrows as [|r rows Hr _ IH]; intros k Hk Ha.
  - done.
  - destruct k as [|k]; cbn [concat].
    + injection Hk as ->. rewrite lookup_app_l by lia. done.
    + rewrite lookup_app_r by (rewrite Hr; lia).
      replace (S k * cols + a - length r)%nat with (k * cols + a)%nat
        by (rewrite Hr; lia).
      by apply IH.
Qed.

Lemma length_concat_uniform {A : Type} (cols : nat) (rows : list (list A)) :
  Forall (λ r, length r = cols) rows →
  length (concat rows) = (length rows * cols)%nat.
Proof.
  induction 1 as [|r rows Hr _ IH]; [done |].
  cbn [concat length]. rewrite length_app, IH, Hr. lia.
Qed.

(** The values one source of [SgLoadTileOpPattern] is replaced by. *)
Lemma load_source_defined (elemTy : Z) (vnniAttr : option Z) (factor : Z)
    (tdescTy : XeTile.TensorDescType) (height width : Z) :
  XeTile.td_shape tdescTy = [height; width] →
  0 ≤ height ≤ XeTile.int64_max → 0 ≤ width ≤ XeTile.int64_max →
  (∀ axis, vnniAttr = Some axis → (axis = 0 ∨ axis = 1) ∧ 1 < factor) →
  ∃ shape,
    (∀ src, XeTile.getType src = XeTile.TensorDescTy tdescTy →
       XeTile.load_source elemTy vnniAttr factor src
       = Ok (let ldOp :=
               XeTile.LoadNDOp {| XeTile.vector_shape := shape;
                                  XeTile.vector_elementType := elemTy |}
                               src vnniAttr in
             if bool_decide (XeTile.td_array_length tdescTy = 1) then [ldOp]
             else XeTile.ExtractOp ldOp <$> seqZ 0 (XeTile.td_array_length tdescTy))) ∧
    ((∀ axis dim, vnniAttr = Some axis →
        [height; width] !! Z.to_nat axis = Some dim → (factor | dim)) →
     XeTile.numElements shape = XeTile.td_array_length tdescTy * height * width) ∧
    length shape
    = ((if bool_decide (XeTile.td_array_length tdescTy = 1%Z) then 2 else 3)
       + (if vnniAttr is Some _ then 1 else 0))%nat.
Proof.
  intros Hshape Hheight Hwidth Hvnni.
  assert (∃ shape,
    XeTile.load_shape [height; width] vnniAttr factor
      (XeTile.td_array_length tdescTy) = Ok shape ∧
    ((∀ axis dim, vnniAttr = Some axis →
        [height; width] !! Z.to_nat axis = Some dim → (factor | dim)) →
     XeTile.numElements shape = XeTile.td_array_length tdescTy * height * width) ∧
    length shape
    = ((if bool_decide (XeTile.td_array_length tdescTy = 1%Z) then 2 else 3)
       + (if vnniAttr is Some _ then 1 else 0))%nat)
    as (shape & Hload & Hcount & Hrank).
  { unfold XeTile.load_shape. destruct vnniAttr as [axis|].
    - destruct (Hvnni axis eq_refl) as [[-> | ->] Hfactor].
      + change (Z.to_nat 0) with 0%nat. cbn [lookup list_lookup].
        rewrite div64_nonneg by lia. cbn [mbind Exec_bind mret Exec_ret].
        eexists. split_and!; [done | | by repeat case_bool_decide]. intros Hdiv.
        destruct (Hdiv 0 height eq_refl eq_refl) as [q ->].
        rewrite Z.div_mul by lia.
        case_bool_decide; unfold XeTile.numElements; simpl; lia.
      + change (Z.to_nat 1) with 1%nat. cbn [lookup list_lookup].
        rewrite div64_nonneg by lia. cbn [mbind Exec_bind mret Exec_ret].
        eexists. split_and!; [done | | by repeat case_bool_decide]. intros Hdiv.
        destruct (Hdiv 1 width eq_refl eq_refl) as [q ->].
        rewrite Z.div_mul by lia.
        case_bool_decide; unfold XeTile.numElements; simpl; lia.
    - cbn [mbind Exec_bind mret Exec_ret].
      eexists. split_and!; [done | | by repeat case_bool_decide]. intros _.
      case_bool_decide; unfold XeTile.numElements; simpl; lia. }
  exists shape. split_and!; [| done | done].
  intros src Hsrc. unfold XeTile.load_source. rewrite Hsrc, Hshape, Hload.
  cbn [mbind Exec_bind]. by case_bool_decide.
Qed.

(** The values [SgLoadTileOpPattern] puts for descriptors of one type. *)
Lemma LoadTile_defined (op : XeTile.LoadTileOp)
    (sources : list XeTile.Value) (tdescTy : XeTile.TensorDescType)
    (height width : Z) :
  is_Some (XeTile.tile_innerBlocks (XeTile.load_type op)) →
  0 < XeTile.tile_elementType (XeTile.load_type op) →
  Forall (λ src, XeTile.getType src = XeTile.TensorDescTy tdescTy) sources →
  XeTile.td_shape tdescTy = [height; width] →
  0 ≤ height ≤ XeTile.int64_max → 0 ≤ width ≤ XeTile.int64_max →
  1 ≤ XeTile.td_array_length tdescTy →
  let array_length := XeTile.td_array_length tdescTy in
  let factor := 32 / XeTile.tile_elementType (XeTile.load_type op) in
  ∃ vectorTy vnniAttr values,
    XeTile.SgLoadTileOpPattern op sources = Ok (XeTile.replaceOp values) ∧
    Z.of_nat (length values) = Z.of_nat (length sources) * array_length ∧
    (∀ (k : nat) src a, sources !! k = Some src → 0 ≤ a < array_length →
       values !! Z.to_nat (Z.of_nat k * array_length + a)
       = Some (if bool_decide (array_length = 1)
               then XeTile.LoadNDOp vectorTy src vnniAttr
               else XeTile.ExtractOp (XeTile.LoadNDOp vectorTy src vnniAttr) a)) ∧
    vnniAttr
    = (if (XeTile.load_isForDPASA op || XeTile.load_isForDPASB op)
          && bool_decide (1 < factor)
       then Some (if XeTile.load_isForDPASB op then 0 else 1) else None) ∧
    ((∀ axis dim, vnniAttr = Some axis →
        [height; width] !! Z.to_nat axis = Some dim → (factor | dim)) →
     XeTile.numElements (XeTile.vector_shape vectorTy)
     = array_length * height * width) ∧
    length (XeTile.vector_shape vectorTy)
    = ((if bool_decide (array_length = 1%Z) then 2 else 3)
       + (if vnniAttr is Some _ then 1 else 0))%nat.
Proof.
  intros [blockSZ Hblk] Hbits Hsources Hshape Hheight Hwidth Hlen array_length factor.
  subst array_length.
  set (vnniAttr :=
    if (XeTile.load_isForDPASA op || XeTile.load_isForDPASB op)
       && bool_decide (1 < factor)
    then Some (if XeTile.load_isForDPASB op then 0 else 1) else None).
  destruct (load_source_defined (XeTile.tile_elementType (XeTile.load_type op))
              vnniAttr factor tdescTy height width Hshape Hheight Hwidth)
    as (shape & Hload & Hcount & Hrank).
  { intros axis. subst vnniAttr.
    destruct (_ || _); cbn [andb]; [| done].
    case_bool_decide; [| done]. intros [= <-]. split; [| done].
    destruct (XeTile.load_isForDPASB op); auto. }
  set (vectorTy := {| XeTile.vector_shape := shape;
                      XeTile.vector_elementType :=
                        XeTile.tile_elementType (XeTile.load_type op) |}) in *.
  set (loaded := λ src,
         if bool_decide ((XeTile.td_array_length tdescTy) = 1)
         then [XeTile.LoadNDOp vectorTy src vnniAttr]
         else XeTile.ExtractOp (XeTile.LoadNDOp vectorTy src vnniAttr)
              <$> seqZ 0 (XeTile.td_array_length tdescTy)).
  assert (Forall (λ row, length row = Z.to_nat (XeTile.td_array_length tdescTy))
            (loaded <$> sources))
    as Huniform.
  { apply Forall_fmap, Forall_forall. intros src _. unfold loaded, compose.
    case_bool_decide as Hone; [by rewrite Hone |].
    by rewrite length_fmap, length_seqZ. }
  exists vectorTy, vnniAttr, (concat (loaded <$> sources)). split_and!.
  - unfold XeTile.SgLoadTileOpPattern. rewrite Hblk.
    rewrite bool_decide_eq_false_2 by lia. fold factor vnniAttr.
    rewrite (for_each_total _ loaded); [done |].
    intros src Hsrc. apply Hload.
    by eapply (proj1 (Forall_forall _ _) Hsources).
  - rewrite (length_concat_uniform _ _ Huniform), length_fmap. lia.
  - intros k src a Hk Ha.
    replace (Z.to_nat (Z.of_nat k * (XeTile.td_array_length tdescTy) + a))
      with (k * Z.to_nat (XeTile.td_array_length tdescTy) + Z.to_nat a)%nat by nia.
    rewrite (lookup_concat_rows _ _ k _ (loaded src) Huniform)
      by (by rewrite ?list_lookup_fmap, ?Hk || lia).
    unfold loaded. case_bool_decide as Hone.
    + replace a with 0 by lia. done.
    + rewrite list_lookup_fmap, lookup_seqZ_lt by lia.
      cbn [fmap option_fmap option_map]. do 2 f_equal. lia.
  - done.
  - exact Hcount.
  - exact Hrank.
Qed.

(** X21.  [SgLoadTileOpPattern] on descriptors of one type, of rank two
    and with an array length of one at least: each descriptor is loaded
    once and replaced by as many values as its array length, in the order
    of the descriptors; they are the load itself for the array length one
    and its slices otherwise.  The loaded vector has the elements of all
    the blocks of the descriptor, provided the factor of the vnni
    transform, where it applies, divides the dimension it splits. *)
Theorem LoadTile_values_in_block_order (op : XeTile.LoadTileOp)
    (sources : list XeTile.Value) (tdescTy : XeTile.TensorDescType)
    (height width : Z) :
  is_Some (XeTile.tile_innerBlocks (XeTile.load_type op)) →
  0 < XeTile.tile_elementType (XeTile.load_type op) →
  Forall (λ src, XeTile.getType src = XeTile.TensorDescTy tdescTy) sources →
  XeTile.td_shape tdescTy = [height; width] →
  0 ≤ height ≤ XeTile.int64_max → 0 ≤ width ≤ XeTile.int64_max →
  1 ≤ XeTile.td_array_length tdescTy →
  let array_length := XeTile.td_array_length tdescTy in
  let factor := 32 / XeTile.tile_elementType (XeTile.load_type op) in
  ∃ vectorTy vnniAttr values,
    XeTile.SgLoadTileOpPattern op sources = Ok (XeTile.replaceOp values) ∧
    Z.of_nat (length values) = Z.of_nat (length sources) * array_length ∧
    (∀ (k : nat) src a, sources !! k = Some src → 0 ≤ a < array_length →
       values !! Z.to_nat (Z.of_nat k * array_length + a)
       = Some (if bool_decide (array_length = 1)
               then XeTile.LoadNDOp vectorTy src vnniAttr
               else XeTile.ExtractOp (XeTile.LoadNDOp vectorTy src vnniAttr) a)) ∧
    vnniAttr
    = (if (XeTile.load_isForDPASA op || XeTile.load_isForDPASB op)
          && bool_decide (1 < factor)
       then Some (if XeTile.load_isForDPASB op then 0 else 1) else None) ∧
    ((∀ axis dim, vnniAttr = Some axis →
        [height; width] !! Z.to_nat axis = Some dim → (factor | dim)) →
     XeTile.numElements (XeTile.vector_shape vectorTy)
     = array_length * height * width).
Proof.
  intros Hblk Hbits Hsources Hshape Hheight Hwidth Hlen array_length factor.
  destruct (LoadTile_defined op sources tdescTy height width Hblk Hbits Hsources
              Hshape Hheight Hwidth Hlen)
    as (vectorTy & vnniAttr & values & Hrun & Hcount & Hat & Hvnni & Helems & _).
  by exists vectorTy, vnniAttr, values.
Qed.

(** X22.  [SgInitTileOpPattern] followed by [SgLoadTileOpPattern] on its
    descriptors: the tile is replaced by the loaded blocks in row-major
    order, [array_length] values from each descriptor.  The value for the
    block in the row [i] and the column [c] of blocks is the load of the
    descriptor at [i] block heights and [c / array_length] group widths,
    or the slice [c mod array_length] of that load. *)
Theorem InitTile_LoadTile_blocks_row_major (init : XeTile.InitTileOp)
    (load : XeTile.LoadTileOp)
    (shape0 shape1 innerBlk0 innerBlk1 : Z) (offsetsX offsetsY : XeTile.Value)
    (more : list XeTile.Value) :
  XeTile.load_type load = XeTile.init_type init →
  XeTile.tile_shape (XeTile.init_type init) = [shape0; shape1] →
  XeTile.tile_innerBlocks (XeTile.init_type init) = Some [innerBlk0; innerBlk1] →
  XeTile.gather_offsets (XeTile.init_static_offsets init) (XeTile.init_offsets init)
    = Ok (offsetsX :: offsetsY :: more) →
  0 < XeTile.tile_elementType (XeTile.init_type init) →
  0 < innerBlk0 < 2 ^ 31 → 0 < innerBlk1 < 2 ^ 31 →
  0 ≤ shape0 < 2 ^ 31 → 0 ≤ shape1 < 2 ^ 31 →
  (XeTile.init_isForLoad init = true → innerBlk1 < shape1 →
   XeTile.tile_elementType (XeTile.init_type init) * innerBlk1 ≤ 64 * 8) →
  let array_length := XeTile.descriptor_blocks init shape1 innerBlk1 in
  let width := array_length * innerBlk1 in
  let tDescTy :=
    {| XeTile.td_shape := [innerBlk0; innerBlk1];
       XeTile.td_elementType := XeTile.tile_elementType (XeTile.init_type init);
       XeTile.td_array_length := array_length |} in
  ∃ descriptors vectorTy vnniAttr values,
    XeTile.SgInitTileOpPattern init = Ok (XeTile.replaceOp descriptors) ∧
    XeTile.SgLoadTileOpPattern load descriptors = Ok (XeTile.replaceOp values) ∧
    Z.of_nat (length values)
    = shape0 / innerBlk0 * (shape1 / width * array_length) ∧
    ((width | shape1) → shape1 / width * array_length = shape1 / innerBlk1) ∧
    ∀ i c, 0 ≤ i < shape0 / innerBlk0 → 0 ≤ c < shape1 / width * array_length →
      let ldOp :=
        XeTile.LoadNDOp vectorTy
          (XeTile.CreateNdDescOp tDescTy (XeTile.init_source init)
             (XeTile.AddIOp (XeTile.ConstantOp (innerBlk0 * i)) offsetsX)
             (XeTile.AddIOp (XeTile.ConstantOp (width * (c / array_length)))
                            offsetsY))
          vnniAttr in
      values !! Z.to_nat (i * (shape1 / width * array_length) + c)
      = Some (if bool_decide (array_length = 1) then ldOp
              else XeTile.ExtractOp ldOp (c `mod` array_length)).
Proof.
  intros Htype Hshape Hblk Hoffsets Hbits Hb0 Hb1 Hs0 Hs1 Hfit
    array_length width tDescTy.
  pose proof (InitTile_defined init shape0 shape1 innerBlk0 innerBlk1
                offsetsX offsetsY more Hshape Hblk Hoffsets Hbits (proj1 Hb0) Hb1 Hs0 Hs1
                Hfit) as Hinit.
  cbn zeta in Hinit. fold array_length width tDescTy in Hinit.
  pose proof (descriptor_blocks_bounds init shape1 innerBlk1 Hbits (proj1 Hb1) Hfit)
    as Hlen. fold array_length in Hlen.
  assert (0 < width) as Hwidth by (subst width; nia).
  pose proof (Z.div_pos shape0 innerBlk0) as Hrows.
  pose proof (Z.div_pos shape1 width) as Hcols.
  set (blocks0 := shape0 / innerBlk0) in *.
  set (blocks1 := shape1 / width) in *.
  set (descriptors :=
         (λ k, XeTile.block_descriptor tDescTy (XeTile.init_source init)
                 offsetsX offsetsY
                 (innerBlk0 * (k / blocks1), width * (k `mod` blocks1)))
         <$> seqZ 0 (blocks0 * blocks1)) in *.
  assert (2 ^ 31 ≤ XeTile.int64_max) as Hmax by (by compute).
  destruct (LoadTile_defined load descriptors tDescTy innerBlk0 innerBlk1)
    as (vectorTy & vnniAttr & values & Hload & Hcount & Hvalues & _);
    [by rewrite Htype, Hblk | by rewrite Htype | | done | lia | lia | exact (proj1 Hlen) |].
  { apply Forall_fmap, Forall_forall. by intros k _. }
  cbn [XeTile.td_array_length tDescTy] in Hcount, Hvalues.
  exists descriptors, vectorTy, vnniAttr, values. split_and!; [done | done | | |].
  - rewrite Hcount. unfold descriptors. rewrite length_fmap, length_seqZ. nia.
  - intros [q Hq]. unfold blocks1. rewrite Hq, Z.div_mul by lia.
    unfold width. by rewrite Z.mul_assoc, Z.div_mul by lia.
  - intros i c Hi Hc ldOp.
    pose proof (Z.div_mod c array_length ltac:(lia)) as Hsplit.
    pose proof (Z.mod_pos_bound c array_length ltac:(lia)) as Hmod.
    pose proof (Z.div_pos c array_length) as Hdiv.
    assert (c / array_length < blocks1) as Hgroup
      by (apply Z.div_lt_upper_bound; lia).
    specialize (Hvalues (Z.to_nat (i * blocks1 + c / array_length))
      (XeTile.block_descriptor tDescTy (XeTile.init_source init) offsetsX offsetsY
         (innerBlk0 * i, width * (c / array_length)))
      (c `mod` array_length)).
    rewrite Z2Nat.id in Hvalues by nia.
    replace ((i * blocks1 + c / array_length) * array_length + c `mod` array_length)
      with (i * (blocks1 * array_length) + c) in Hvalues by lia.
    rewrite Hvalues; [| | done].
    + case_bool_decide as Hone; [| done].
      unfold ldOp, XeTile.block_descriptor. done.
    + apply lookup_fmap_seqZ. rewrite Z2Nat.id by nia. split; [nia |].
      rewrite Z.div_add_l, (Z.div_small (c / array_length)), Z.add_0_r by lia.
      rewrite Z.add_comm, Z.mod_add, Z.mod_small by lia. done.
Qed.

End Tiles.

Section Transform.

Context {V : Type}.

Lemma transform_S (merge : V → V → Exec V) (fuel : nat) (shuffleOps : list V) :
  XeTile.transform (S fuel) merge shuffleOps
  = if bool_decide (1 < length shuffleOps)%nat then
      if bool_decide (Nat.modulo (length shuffleOps) 2 = 0%nat) then
        match XeTile.merge_pairs merge shuffleOps with
        | Ok next => XeTile.transform fuel merge next
        | AssertionFailed line => Some (AssertionFailed line)
        | Undefined => Some Undefined
        end
      else Some (AssertionFailed 128)
    else match shuffleOps with
         | first :: _ => Some (Ok first)
         | [] => Some Undefined
         end.
Proof. done. Qed.

Lemma merge_pairs_total (f : V → V → V) (curr : list V) :
  ∀ n, (length curr ≤ n)%nat →
       XeTile.merge_pairs (λ a b, Ok (f a b)) curr = Ok (XeTile.pairs f curr).
Proof.
  intros n. revert curr. induction n as [|n IH]; intros [|a [|b rest]] Hn;
    try done; [simpl in Hn; lia |].
  cbn [XeTile.merge_pairs XeTile.pairs mbind Exec_bind].
  rewrite IH by (simpl in Hn; lia). done.
Qed.

Lemma length_pairs (f : V → V → V) (curr : list V) :
  ∀ n, (length curr ≤ n)%nat →
       length (XeTile.pairs f curr) = Nat.div (length curr) 2.
Proof.
  intros n. revert curr. induction n as [|n IH]; intros [|a [|b rest]] Hn;
    try done; [simpl in Hn; lia |].
  cbn [XeTile.pairs length]. rewrite IH by (simpl in Hn; lia).
  change (S (S (length rest))) with (1 * 2 + length rest)%nat.
  rewrite Nat.div_add_l by done. lia.
Qed.

Lemma length_merge_pairs (merge : V → V → Exec V) (curr next : list V) :
  ∀ n, (length curr ≤ n)%nat →
       XeTile.merge_pairs merge curr = Ok next →
       length next = Nat.div (length curr) 2.
Proof.
  intros n. revert curr next.
  induction n as [|n IH]; intros [|a [|b rest]] next Hn; cbn [XeTile.merge_pairs];
    try (by intros [= <-]); [simpl in Hn; lia |].
  destruct (merge a b) as [newOp| |]; cbn [mbind Exec_bind]; try done.
  destruct (XeTile.merge_pairs merge rest) as [shuffleOps| |] eqn:Hrest;
    cbn [mbind Exec_bind]; try done.
  intros [= <-]. cbn [length].
  rewrite (IH rest shuffleOps) by (done || simpl in Hn; lia).
  change (S (S (length rest))) with (1 * 2 + length rest)%nat.
  rewrite Nat.div_add_l by done. lia.
Qed.

Lemma foldl_pairs (f : V → V → V) `{!Assoc (=) f} (n : nat) :
  ∀ (curr : list V) (a : V),
    length curr = (2 * n)%nat →
    foldl f a (XeTile.pairs f curr) = foldl f a curr.
Proof.
  induction n as [|n IH]; intros [|b [|c rest]] a Hlen; try done;
    try (simpl in Hlen; lia).
  cbn [XeTile.pairs foldl]. rewrite (assoc f).
  apply IH. simpl in Hlen. lia.
Qed.

(** X14.  [transform] on a power of two of values, with a merge that is
    associative and does not fail: after as many turns of the loop as the
    exponent, one value is left, the merge of all the inputs in their
    order. *)
Theorem transform_power_of_two (f : V → V → V) `{!Assoc (=) f}
    (k : nat) (first : V) (rest : list V) :
  length (first :: rest) = (2 ^ k)%nat →
  XeTile.transform (S k) (λ a b, Ok (f a b)) (first :: rest)
  = Some (Ok (foldl f first rest)).
Proof.
  revert first rest. induction k as [|k IH]; intros first rest Hlen.
  - destruct rest; [done | simpl in Hlen; lia].
  - rewrite Nat.pow_succ_r' in Hlen.
    assert (0 < 2 ^ k)%nat as Hpos by (apply Nat.neq_0_lt_0, Nat.pow_nonzero; lia).
    destruct rest as [|second rest]; [simpl in Hlen; lia |].
    rewrite transform_S.
    rewrite bool_decide_eq_true_2 by (simpl; lia).
    rewrite bool_decide_eq_true_2
      by (rewrite Hlen, Nat.mul_comm; apply Nat.Div0.mod_mul).
    rewrite (merge_pairs_total f _ _ (le_n _)). cbn [XeTile.pairs].
    rewrite IH.
    + cbn [foldl]. f_equal. f_equal.
      apply (foldl_pairs f (2 ^ k - 1)). simpl in Hlen. lia.
    + cbn [length]. rewrite (length_pairs f rest _ (le_n _)).
      simpl in Hlen.
      replace (length rest) with ((2 ^ k - 1) * 2)%nat by lia.
      rewrite Nat.div_mul by done. lia.
Qed.

(** X15.  [transform] on a number of values that is not a power of two,
    with a merge that does not fail: the assertion of line 128 fails, at
    the first turn of the loop that finds an odd number of values. *)
Theorem transform_asserts_otherwise (f : V → V → V) (shuffleOps : list V)
    (fuel : nat) :
  shuffleOps ≠ [] → (∀ k, length shuffleOps ≠ (2 ^ k)%nat) →
  (length shuffleOps ≤ fuel)%nat →
  XeTile.transform fuel (λ a b, Ok (f a b)) shuffleOps
  = Some (AssertionFailed 128).
Proof.
  revert shuffleOps.
  induction fuel as [|fuel IH]; intros shuffleOps Hnil Hpow Hfuel.
  - destruct shuffleOps; [done | simpl in Hfuel; lia].
  - rewrite transform_S.
    assert (1 < length shuffleOps)%nat as Hlen.
    { destruct shuffleOps as [|a [|b rest]]; [done | | simpl; lia].
      by destruct (Hpow 0%nat). }
    rewrite bool_decide_eq_true_2 by done.
    case_bool_decide as Heven; [| done].
    rewrite (merge_pairs_total f _ _ (le_n _)).
    pose proof (length_pairs f shuffleOps _ (le_n _)) as Hhalf.
    pose proof (Nat.div_mod_eq (length shuffleOps) 2) as Hdiv.
    apply IH.
    + intros Hempty. rewrite Hempty in Hhalf. cbn [length] in Hhalf. lia.
    + intros k Hk. apply (Hpow (S k)).
      rewrite Nat.pow_succ_r'. lia.
    + lia.
Qed.

(** X16.  The loop of [transform] ends, whatever the merge does: a turn
    at least halves the number of values, so that as many turns as there
    are values, and one more, suffice.  Without any value it reads the
    first element of an empty vector. *)
Theorem transform_terminates (merge : V → V → Exec V) (shuffleOps : list V)
    (fuel : nat) :
  (length shuffleOps < fuel)%nat →
  is_Some (XeTile.transform fuel merge shuffleOps) ∧
  XeTile.transform fuel merge [] = Some Undefined.
Proof.
  intros Hfuel. split; [| destruct fuel; [lia | done]].
  revert shuffleOps Hfuel.
  induction fuel as [|fuel IH]; intros shuffleOps Hfuel; [lia |].
  rewrite transform_S.
  case_bool_decide as Hlen; [| by destruct shuffleOps].
  case_bool_decide as Heven; [| done].
  destruct (XeTile.merge_pairs merge shuffleOps) as [next| |] eqn:Hnext; try done.
  apply IH.
  rewrite (length_merge_pairs merge shuffleOps next _ (le_n _) Hnext).
  pose proof (Nat.div_mod_eq (length shuffleOps) 2). lia.
Qed.

End Transform.

Section Regrouping.

Local Open Scope Z_scope.

Lemma typed_not_null (v : XeTile.Value) (vecTy : XeTile.VectorType) :
  XeTile.getType v = XeTile.VectorTy vecTy → XeTile.is_null v = false.
Proof. by destruct v. Qed.

(** The counter of [iota_int] stays an [int] exactly when the value it
    reaches after the last element does. *)
Lemma iota_int_counts (mask : list Z) (first count : nat) (value : Z) :
  value ≤ XeTile.int_max →
  XeTile.iota_int mask first count value
  = if bool_decide (value + Z.of_nat count ≤ XeTile.int_max)
    then Ok (XeTile.iota_fill mask first count value) else Undefined.
Proof.
  revert mask first value.
  induction count as [|count IH]; intros mask first value Hvalue.
  - cbn [XeTile.iota_int XeTile.iota_fill]. by rewrite bool_decide_eq_true_2 by lia.
  - cbn [XeTile.iota_int XeTile.iota_fill]. unfold XeTile.incr_int.
    case_bool_decide as Hroom; cbn [mbind Exec_bind].
    + rewrite IH by lia. by repeat case_bool_decide; try lia.
    + by rewrite bool_decide_eq_false_2 by lia.
Qed.

Lemma stack_defined (v1 v2 : XeTile.Value) (rows cols elemTy : Z) :
  let vecTy rows :=
    {| XeTile.vector_shape := [rows; cols]; XeTile.vector_elementType := elemTy |} in
  XeTile.getType v1 = XeTile.VectorTy (vecTy rows) →
  XeTile.getType v2 = XeTile.VectorTy (vecTy rows) →
  0 ≤ rows → 2 * rows ≤ XeTile.int_max →
  XeTile.stack v1 v2 = Ok (XeTile.ShuffleOp v1 v2 (seqZ 0 (2 * rows))) ∧
  XeTile.getType (XeTile.ShuffleOp v1 v2 (seqZ 0 (2 * rows)))
  = XeTile.VectorTy (vecTy (2 * rows)).
Proof.
  intros vecTy Hv1 Hv2 Hrows Hmax. split.
  - unfold XeTile.stack.
    rewrite (typed_not_null v1 _ Hv1), (typed_not_null v2 _ Hv2). cbn [orb].
    rewrite Hv1, Hv2, bool_decide_eq_true_2 by done.
    cbn [assert_ mbind Exec_bind XeTile.vector_shape vecTy].
    unfold XeTile.add64.
    assert (XeTile.int64_min ≤ 0) as Hmin by (by compute).
    assert (XeTile.int_max ≤ XeTile.int64_max) as Hint by (by compute).
    rewrite int64_in_range by lia. cbn [mbind Exec_bind].
    rewrite bool_decide_eq_false_2 by lia.
    rewrite iota_int_counts by (by compute).
    rewrite bool_decide_eq_true_2 by lia. cbn [mbind Exec_bind mret Exec_ret].
    pose proof (iota_fill_segment [] (replicate (Z.to_nat (rows + rows)) 0) [] 0)
      as Hfill.
    rewrite app_nil_r, length_replicate in Hfill. cbn [app length] in Hfill.
    rewrite Hfill, Z2Nat.id, app_nil_r by lia. do 3 f_equal. lia.
  - cbn [XeTile.getType]. rewrite Hv1. cbn [XeTile.vector_shape vecTy tail].
    rewrite length_seqZ, Z2Nat.id by lia. done.
Qed.

Lemma concat_defined (v1 v2 : XeTile.Value) (rows cols elemTy : Z) :
  let vecTy shape :=
    {| XeTile.vector_shape := shape; XeTile.vector_elementType := elemTy |} in
  XeTile.getType v1 = XeTile.VectorTy (vecTy [rows; cols]) →
  XeTile.getType v2 = XeTile.VectorTy (vecTy [rows; cols]) →
  0 ≤ rows → 0 ≤ cols →
  rows * (2 * cols) ≤ XeTile.int64_max → 2 * cols ≤ XeTile.int64_max →
  XeTile.concat v1 v2
  = Ok (XeTile.ShapeCastOp (vecTy [rows; 2 * cols])
          (XeTile.ShuffleOp (XeTile.ShapeCastOp (vecTy [rows * cols]) v1)
                            (XeTile.ShapeCastOp (vecTy [rows * cols]) v2)
                            (XeTile.row_major_merge rows cols cols))).
Proof.
  intros vecTy Hv1 Hv2 Hrows Hcols Hmax Hwidth. unfold XeTile.concat.
  rewrite (typed_not_null v1 _ Hv1), (typed_not_null v2 _ Hv2). cbn [orb].
  rewrite Hv1, Hv2, bool_decide_eq_true_2 by done.
  cbn [assert_ mbind Exec_bind XeTile.vector_shape XeTile.vector_elementType vecTy].
  unfold XeTile.mul64, XeTile.add64.
  assert (XeTile.int64_min ≤ 0) as Hmin by (by compute).
  rewrite (int64_in_range (rows * cols)) by nia. cbn [mbind Exec_bind].
  rewrite getMask_defined by (done || lia). cbn [mbind Exec_bind].
  rewrite (int64_in_range (cols + cols)) by lia. cbn [mbind Exec_bind mret Exec_ret].
  replace (cols + cols) with (2 * cols) by lia. done.
Qed.



(** The loop of [transform] on values that a merge takes from one level
    to the next. *)
Lemma transform_levels (merge : XeTile.Value → XeTile.Value → Exec XeTile.Value)
    (P : nat → XeTile.Value → Prop) (top : nat) :
  (∀ level a b, (level < top)%nat → P level a → P level b →
                ∃ c, merge a b = Ok c ∧ P (S level) c) →
  ∀ (k level fuel : nat) (values : list XeTile.Value),
    (k < fuel)%nat → (level + k ≤ top)%nat →
    length values = (2 ^ k)%nat → Forall (P level) values →
    ∃ v, XeTile.transform fuel merge values = Some (Ok v) ∧ P (level + k)%nat v.
Proof.
  intros Hmerge. induction k as [|k IH]; intros level fuel values Hfuel Htop Hlen Hall.
  - destruct values as [|v [|? ?]]; try done.
    destruct fuel as [|fuel]; [lia |]. exists v. split; [done |].
    rewrite Nat.add_0_r. by apply Forall_cons in Hall as [? _].
  - destruct fuel as [|fuel]; [lia |]. rewrite transform_S.
    rewrite Nat.pow_succ_r' in Hlen.
    assert (0 < 2 ^ k)%nat as Hpos by (apply Nat.neq_0_lt_0, Nat.pow_nonzero; lia).
    rewrite bool_decide_eq_true_2 by lia.
    rewrite bool_decide_eq_true_2
      by (rewrite Hlen, Nat.mul_comm; apply Nat.Div0.mod_mul).
    assert (∀ n (curr : list XeTile.Value),
      length curr = (2 * n)%nat → Forall (P level) curr →
      ∃ next, XeTile.merge_pairs merge curr = Ok next ∧
              length next = n ∧ Forall (P (S level)) next) as Hpairs.
    { clear -Hmerge Htop. induction n as [|n IHn]; intros [|a [|b rest]] Hcurr Hall;
        try (simpl in Hcurr; lia).
      - by exists [].
      - apply Forall_cons in Hall as [Ha Hall]. apply Forall_cons in Hall as [Hb Hall].
        destruct (Hmerge level a b ltac:(lia) Ha Hb) as (c & Hc & HPc).
        destruct (IHn rest ltac:(simpl in Hcurr; lia) Hall) as (next & Hnext & Hlen & HP).
        exists (c :: next). cbn [XeTile.merge_pairs]. rewrite Hc, Hnext.
        split_and!; [done | by rewrite <-Hlen | by constructor]. }
    destruct (Hpairs _ values Hlen Hall) as (next & -> & Hnext & HP).
    destruct (IH (S level) fuel next) as (v & Hv & HPv); [lia | lia | done | done |].
    exists v. split; [done |]. by rewrite <-Nat.add_succ_comm.
Qed.

Lemma power_level (k level : nat) :
  (level < k)%nat → 0 < 2 ^ Z.of_nat level ∧ 2 * 2 ^ Z.of_nat level ≤ 2 ^ Z.of_nat k.
Proof.
  intros Hlt. split; [apply Z.pow_pos_nonneg; lia |].
  rewrite <-Z.pow_succ_r by lia. apply Z.pow_le_mono_r; lia.
Qed.

Lemma transform_stack_typed (k : nat) (values : list XeTile.Value)
    (rows cols elemTy : Z) :
  let vecTy rows cols :=
    XeTile.VectorTy {| XeTile.vector_shape := [rows; cols];
                       XeTile.vector_elementType := elemTy |} in
  length values = (2 ^ k)%nat →
  Forall (λ v, XeTile.getType v = vecTy rows cols) values →
  0 ≤ rows → 2 ^ Z.of_nat k * rows ≤ XeTile.int_max →
  ∃ v, XeTile.transform_all XeTile.stack values = Ok v ∧
       XeTile.getType v = vecTy (2 ^ Z.of_nat k * rows) cols.
Proof.
  intros vecTy Hlen Hall Hrows Hmax.
  assert (k < S (length values))%nat as Hfuel.
  { rewrite Hlen. pose proof (Nat.pow_gt_lin_r 2 k). lia. }
  unfold XeTile.transform_all.
  destruct (transform_levels XeTile.stack
              (λ level v, XeTile.getType v = vecTy (2 ^ Z.of_nat level * rows) cols) k)
    with (k := k) (level := 0%nat) (fuel := S (length values)) (values := values)
    as (v & -> & Hv); [| done | done | done | | by exists v].
  - intros level a b Hlt Ha Hb. destruct (power_level k level Hlt).
    destruct (stack_defined a b (2 ^ Z.of_nat level * rows) cols elemTy Ha Hb)
      as [-> Hty]; [nia | nia |].
    eexists. split; [done |]. rewrite Hty. unfold vecTy. do 3 f_equal.
    rewrite Nat2Z.inj_succ, Z.pow_succ_r by lia. lia.
  - eapply Forall_impl; [exact Hall |]. intros v ->. unfold vecTy.
    change (Z.of_nat 0) with 0. by rewrite Z.pow_0_r, Z.mul_1_l.
Qed.

Lemma transform_concat_typed (k : nat) (values : list XeTile.Value)
    (rows cols elemTy : Z) :
  let vecTy rows cols :=
    XeTile.VectorTy {| XeTile.vector_shape := [rows; cols];
                       XeTile.vector_elementType := elemTy |} in
  length values = (2 ^ k)%nat →
  Forall (λ v, XeTile.getType v = vecTy rows cols) values →
  0 ≤ rows → 0 ≤ cols →
  2 ^ Z.of_nat k * cols ≤ XeTile.int64_max →
  2 ^ Z.of_nat k * (rows * cols) ≤ XeTile.int64_max →
  ∃ v, XeTile.transform_all XeTile.concat values = Ok v ∧
       XeTile.getType v = vecTy rows (2 ^ Z.of_nat k * cols).
Proof.
  intros vecTy Hlen Hall Hrows Hcols Hmax_cols Hmax.
  assert (k < S (length values))%nat as Hfuel.
  { rewrite Hlen. pose proof (Nat.pow_gt_lin_r 2 k). lia. }
  unfold XeTile.transform_all.
  destruct (transform_levels XeTile.concat
              (λ level v, XeTile.getType v = vecTy rows (2 ^ Z.of_nat level * cols)) k)
    with (k := k) (level := 0%nat) (fuel := S (length values)) (values := values)
    as (v & -> & Hv); [| done | done | done | | by exists v].
  - intros level a b Hlt Ha Hb. destruct (power_level k level Hlt).
    rewrite (concat_defined a b rows (2 ^ Z.of_nat level * cols) elemTy Ha Hb)
      by nia.
    eexists. split; [done |]. cbn [XeTile.getType]. unfold vecTy. do 4 f_equal.
    rewrite Nat2Z.inj_succ, Z.pow_succ_r by lia. lia.
  - eapply Forall_impl; [exact Hall |]. intros v ->. unfold vecTy.
    change (Z.of_nat 0) with 0. by rewrite Z.pow_0_r, Z.mul_1_l.
Qed.

(** X25.  The merge of a power of two of vectors of one type of rank two
    by [transform]: with [stack] the result has the rows of all of them, as
    long as an [int] can hold their number; with [concat] it has the columns
    of all of them. *)
Theorem regrouping_shapes (k : nat) (values : list XeTile.Value)
    (rows cols elemTy : Z) :
  let vecTy rows cols :=
    XeTile.VectorTy {| XeTile.vector_shape := [rows; cols];
                       XeTile.vector_elementType := elemTy |} in
  length values = (2 ^ k)%nat →
  Forall (λ v, XeTile.getType v = vecTy rows cols) values →
  0 ≤ rows → 0 ≤ cols →
  (2 ^ Z.of_nat k * rows ≤ XeTile.int_max →
   ∃ v, XeTile.transform_all XeTile.stack values = Ok v ∧
        XeTile.getType v = vecTy (2 ^ Z.of_nat k * rows) cols) ∧
  (2 ^ Z.of_nat k * cols ≤ XeTile.int64_max →
   2 ^ Z.of_nat k * (rows * cols) ≤ XeTile.int64_max →
   ∃ v, XeTile.transform_all XeTile.concat values = Ok v ∧
        XeTile.getType v = vecTy rows (2 ^ Z.of_nat k * cols)).
Proof.
  intros vecTy Hlen Hall Hrows Hcols. split.
  - intros Hmax_rows. by apply transform_stack_typed.
  - intros Hmax_cols Hmax. by apply transform_concat_typed.
Qed.

Lemma foldM_app {St A : Type} (body : St → A → Exec St) (l1 l2 : list A) (s : St) :
  XeTile.foldM body (l1 ++ l2) s = XeTile.foldM body l1 s ≫= XeTile.foldM body l2.
Proof.
  revert s. induction l1 as [|x l1 IH]; intros s; [done |].
  cbn [app XeTile.foldM]. destruct (body s x); cbn [mbind Exec_bind]; auto.
Qed.

Lemma foldM_fmap {St A B : Type} (body : St → B → Exec St) (f : A → B)
    (l : list A) (s : St) :
  XeTile.foldM body (f <$> l) s = XeTile.foldM (λ s x, body s (f x)) l s.
Proof.
  revert s. induction l as [|x l IH]; intros s; [done |].
  cbn [fmap list_fmap XeTile.foldM]. destruct (body s (f x)); cbn [mbind Exec_bind]; auto.
Qed.

Lemma foldM_ext {St A : Type} (body1 body2 : St → A → Exec St) (l : list A) (s : St) :
  (∀ s x, x ∈ l → body1 s x = body2 s x) →
  XeTile.foldM body1 l s = XeTile.foldM body2 l s.
Proof.
  revert s. induction l as [|x l IH]; intros s Hbody; [done |].
  cbn [XeTile.foldM]. rewrite Hbody by left.
  destruct (body2 s x); cbn [mbind Exec_bind]; [| done | done].
  apply IH. intros; apply Hbody. by right.
Qed.

(** Two loops, one in the other, are one loop over the pairs of their
    counters. *)
Lemma foldM_nested {St A B : Type} (body : St → A * B → Exec St) (outer : list A)
    (inner : list B) (s : St) :
  XeTile.foldM (λ s i, XeTile.foldM (λ s j, body s (i, j)) inner s) outer s
  = XeTile.foldM body (i ← outer; j ← inner; [(i, j)]) s.
Proof.
  revert s. induction outer as [|i outer IH]; intros s; [done |].
  cbn [XeTile.foldM mbind list_bind]. rewrite foldM_app.
  replace (inner ≫= λ j, [(i, j)]) with ((λ j, (i, j)) <$> inner)
    by (clear; induction inner as [|j inner IH]; [done |]; cbn; by rewrite IH).
  rewrite foldM_fmap.
  destruct (XeTile.foldM _ inner s); cbn [mbind Exec_bind]; auto.
Qed.

Lemma index_lookup {A : Type} (l : list A) (k : nat) (x : A) :
  l !! k = Some x → XeTile.index l (Z.of_nat k) = Ok x.
Proof.
  intros Hk. unfold XeTile.index.
  by rewrite bool_decide_eq_true_2, Nat2Z.id, Hk by lia.
Qed.

Lemma index_at {A : Type} (l : list A) (i : Z) (x : A) :
  0 ≤ i → l !! Z.to_nat i = Some x → XeTile.index l i = Ok x.
Proof.
  intros Hi Hx. unfold XeTile.index. by rewrite bool_decide_eq_true_2, Hx.
Qed.

(** The elements of a vector read one after the other. *)
Lemma foldM_index {St : Type} (body : St → XeTile.Value → Exec St)
    (values : list XeTile.Value) (count : nat) :
  ∀ (start : nat) (s : St),
    (start + count ≤ length values)%nat →
    XeTile.foldM (λ s k, v ← XeTile.index values k; body s v)
      (seqZ (Z.of_nat start) (Z.of_nat count)) s
    = XeTile.foldM body (take count (drop start values)) s.
Proof.
  induction count as [|count IH]; intros start s Hlen; [done |].
  rewrite (seqZ_cons (Z.of_nat start) (Z.of_nat (S count))) by lia.
  destruct (lookup_lt_is_Some_2 values start) as [v Hv]; [lia |].
  rewrite (drop_S values v start Hv). cbn [take XeTile.foldM].
  rewrite (index_lookup values start v Hv). cbn [mbind Exec_bind].
  replace (Z.pred (Z.of_nat (S count))) with (Z.of_nat count) by lia.
  replace (Z.succ (Z.of_nat start)) with (Z.of_nat (S start)) by lia.
  destruct (body s v); cbn [mbind Exec_bind]; [| done | done].
  apply IH. lia.
Qed.

Lemma int_range_defined (bound : Z) :
  bound ≤ XeTile.int_max → XeTile.int_range bound = Ok (seqZ 0 bound).
Proof.
  intros Hbound. unfold XeTile.int_range. by rewrite bool_decide_eq_false_2 by lia.
Qed.

(** Two loops with [int] counters over a grid, as one loop over the
    row-major positions. *)
Lemma foldM_grid {St : Type} (body : St → Z * Z → Exec St) (rows : nat) (cols : Z)
    (s : St) :
  0 ≤ cols ≤ XeTile.int_max →
  XeTile.foldM (λ s i, range ← XeTile.int_range cols;
                       XeTile.foldM (λ s j, body s (i, j)) range s)
    (seqZ 0 (Z.of_nat rows)) s
  = XeTile.foldM (λ s k, body s (k / cols, k `mod` cols))
      (seqZ 0 (Z.of_nat rows * cols)) s.
Proof.
  intros Hcols.
  rewrite (foldM_ext _ (λ s i, XeTile.foldM (λ s j, body s (i, j)) (seqZ 0 cols) s)).
  2:{ intros s' i _. unfold XeTile.int_range.
      by rewrite bool_decide_eq_false_2 by lia. }
  rewrite foldM_nested, nested_counters, foldM_fmap by lia. done.
Qed.

(** The loop that gathers [nums] values at a time and merges them. *)
Lemma gather_partial (merge : list XeTile.Value → Exec XeTile.Value) (nums : Z)
    (part valSet newOps : list XeTile.Value) :
  Z.of_nat (length (valSet ++ part)) < nums →
  XeTile.foldM
    (λ '(valSet, newOps) v,
       if bool_decide (Z.of_nat (length (valSet ++ [v])) = nums) then
         newOp ← merge (valSet ++ [v]); mret ([], newOps ++ [newOp])
       else mret (valSet ++ [v], newOps))
    part (valSet, newOps)
  = Ok (valSet ++ part, newOps).
Proof.
  revert valSet. induction part as [|v part IH]; intros valSet Hlen.
  - by rewrite app_nil_r.
  - cbn [XeTile.foldM]. rewrite length_app in Hlen. cbn [length] in Hlen.
    rewrite bool_decide_eq_false_2 by (rewrite length_app; simpl; lia).
    cbn [mbind Exec_bind mret Exec_ret].
    rewrite IH by (rewrite !length_app; simpl; lia).
    by rewrite <-(assoc_L (++)).
Qed.

Lemma gather_chunks (merge : list XeTile.Value → Exec XeTile.Value)
    (size : nat) (Q : XeTile.Value → Prop) :
  (0 < size)%nat →
  ∀ (count : nat) (flat newOps : list XeTile.Value),
    (count * size ≤ length flat)%nat → (length flat < S count * size)%nat →
    (∀ g, (g < count)%nat →
          ∃ v, merge (take size (drop (g * size) flat)) = Ok v ∧ Q v) →
    ∃ merged,
      XeTile.foldM
        (λ '(valSet, newOps) v,
           if bool_decide (Z.of_nat (length (valSet ++ [v])) = Z.of_nat size) then
             newOp ← merge (valSet ++ [v]); mret ([], newOps ++ [newOp])
           else mret (valSet ++ [v], newOps))
        flat ([], newOps)
      = Ok (drop (count * size) flat, newOps ++ merged) ∧
      length merged = count ∧
      ∀ g, (g < count)%nat →
           ∃ v, merge (take size (drop (g * size) flat)) = Ok v ∧
                merged !! g = Some v ∧ Q v.
Proof.
  intros Hsize. induction count as [|count IH]; intros flat newOps Hmin Hmax Hmerge.
  - exists []. split_and!; [| done | lia].
    rewrite gather_partial by (simpl in *; lia). by rewrite app_nil_r.
  - destruct (Hmerge 0%nat ltac:(lia)) as (v & Hv & HQ).
    rewrite Nat.mul_0_l, drop_0 in Hv.
    destruct (IH (drop size flat) (newOps ++ [v])) as (merged & Hrun & Hlen & Hat).
    { rewrite length_drop. lia. }
    { rewrite length_drop. lia. }
    { intros g Hg. destruct (Hmerge (S g) ltac:(lia)) as (w & Hw & HQw).
      exists w. split; [| done]. rewrite drop_drop.
      by replace (size + g * size)%nat with (S g * size)%nat by lia. }
    exists (v :: merged). split_and!.
    + rewrite <-(take_drop size flat) at 1. rewrite foldM_app.
      assert (take size flat ≠ []) as Hne.
      { intros Hnil. apply (f_equal length) in Hnil.
        rewrite length_take in Hnil. simpl in Hnil. lia. }
      destruct (exists_last Hne) as (init & final & Hsplit).
      assert (length init = (size - 1)%nat) as Hinit.
      { apply (f_equal length) in Hsplit.
        rewrite length_take, length_app in Hsplit. simpl in Hsplit. lia. }
      rewrite Hsplit, foldM_app.
      rewrite gather_partial by (rewrite length_app; simpl; lia).
      cbn [mbind Exec_bind app XeTile.foldM].
      rewrite bool_decide_eq_true_2 by (rewrite length_app; simpl; lia).
      rewrite <-Hsplit, Hv. cbn [mbind Exec_bind mret Exec_ret].
      rewrite Hrun, drop_drop, <-(assoc_L (++)).
      by replace (size + count * size)%nat with (S count * size)%nat by lia.
    + simpl. by rewrite Hlen.
    + intros [|g] Hg.
      * exists v. by rewrite Nat.mul_0_l, drop_0.
      * destruct (Hat g ltac:(lia)) as (w & Hw & Hlook & HQw).
        exists w. split_and!; [| done | done].
        rewrite drop_drop in Hw.
        by replace (S g * size)%nat with (size + g * size)%nat by lia.
Qed.

(** X26.  The branch of [SgTileUnpackPackOpPattern] that joins blocks on
    dimension 1 walks the intermediate values in row-major order and
    merges every run of [nums] of them with [concat], [nums] being a power
    of two; what is left after the last whole run is dropped.  The runs do
    not stop at the end of a row of the grid. *)
Theorem concat_on_dim1_joins_runs (op : XeTile.TileUnpackOp)
    (inGrids outGrids : list Z) (interGrids0 interGrids1 inGrids1 outGrids1 : Z)
    (intermediates : list XeTile.Value) (e : nat) (rows cols elemTy : Z) :
  let vecTy rows cols :=
    XeTile.VectorTy {| XeTile.vector_shape := [rows; cols];
                       XeTile.vector_elementType := elemTy |} in
  let nums := (2 ^ e)%nat in
  let count := Z.to_nat (interGrids0 * interGrids1) in
  XeTile.isVnniFormat op = false →
  inGrids !! 1%nat = Some inGrids1 → outGrids !! 1%nat = Some outGrids1 →
  0 ≤ inGrids1 ≤ XeTile.int64_max → 0 < outGrids1 →
  inGrids1 / outGrids1 = Z.of_nat nums →
  0 ≤ interGrids0 ≤ XeTile.int_max → 0 ≤ interGrids1 ≤ XeTile.int_max →
  (count ≤ length intermediates)%nat →
  Forall (λ v, XeTile.getType v = vecTy rows cols) (take count intermediates) →
  0 ≤ rows → 0 ≤ cols →
  Z.of_nat nums * cols ≤ XeTile.int64_max →
  Z.of_nat nums * (rows * cols) ≤ XeTile.int64_max →
  ∃ newOps,
    XeTile.concat_on_dim1 op inGrids outGrids [interGrids0; interGrids1]
      intermediates = Ok (XeTile.replaceOp newOps) ∧
    length newOps = Nat.div count nums ∧
    ∀ g, (g < Nat.div count nums)%nat →
         ∃ v, XeTile.transform_all XeTile.concat
                (take nums (drop (g * nums) intermediates)) = Ok v ∧
              newOps !! g = Some v ∧
              XeTile.getType v = vecTy rows (Z.of_nat nums * cols).
Proof.
  intros vecTy nums count Hvnni HinGrids HoutGrids Hin Hout Hnums Hrows_grid Hcols_grid
    Hcount Htyped Hrows Hcols Hmax_cols Hmax.
  assert (0 < nums)%nat as Hpos
    by (apply Nat.neq_0_lt_0, Nat.pow_nonzero; lia).
  assert (Z.of_nat nums = 2 ^ Z.of_nat e) as Hpow
    by (unfold nums; by rewrite Nat2Z.inj_pow).
  assert (XeTile.int64_max < 2 ^ 64) as Hword by (by compute).
  assert (2 ^ 31 * 2 ^ 31 ≤ XeTile.int64_max) as Hsquare by (by compute).
  assert (XeTile.int_max < 2 ^ 31) as Hint by (by compute).
  assert (XeTile.int64_min ≤ 0) as Hmin by (by compute).
  pose proof (Nat.div_mod_eq count nums) as Hsplit.
  pose proof (Nat.mod_upper_bound count nums ltac:(lia)) as Hrest.
  set (push := λ (state : list XeTile.Value * list XeTile.Value) (v : XeTile.Value),
         if bool_decide (Z.of_nat (length (state.1 ++ [v])) = Z.of_nat nums)
         then newOp ← XeTile.transform_all XeTile.concat (state.1 ++ [v]);
              mret ([], state.2 ++ [newOp])
         else mret (state.1 ++ [v], state.2)).
  destruct (gather_chunks (XeTile.transform_all XeTile.concat) nums
              (λ v, XeTile.getType v = vecTy rows (Z.of_nat nums * cols)) Hpos
              (Nat.div count nums) (take count intermediates) [])
    as (merged & Hrun & Hlen & Hat).
  { rewrite length_take. lia. }
  { rewrite length_take. lia. }
  { intros g Hg. rewrite Hpow.
    apply transform_concat_typed; [| | done | done | by rewrite <-Hpow ..].
    - rewrite length_take, length_drop, length_take. nia.
    - apply Forall_take, Forall_drop. exact Htyped. }
  rewrite (foldM_ext _ push) in Hrun by (by intros [??] ??).
  exists merged. split_and!; [| done |].
  - unfold XeTile.concat_on_dim1. rewrite Hvnni.
    rewrite (index_at inGrids 1 _ ltac:(lia) HinGrids).
    rewrite (index_at outGrids 1 _ ltac:(lia) HoutGrids).
    cbn [mbind Exec_bind]. rewrite div64_nonneg, Hnums by lia.
    cbn [mbind Exec_bind].
    assert (Z.of_nat nums ≤ inGrids1) as Hle
      by (rewrite <-Hnums; apply Z.div_le_upper_bound; nia).
    rewrite Z.mod_small by lia.
    rewrite (index_at [interGrids0; interGrids1] 0 interGrids0 ltac:(lia) eq_refl).
    cbn [mbind Exec_bind]. rewrite (int_range_defined interGrids0) by lia.
    cbn [mbind Exec_bind].
    rewrite (foldM_ext _
      (λ s i, range ← XeTile.int_range interGrids1;
              XeTile.foldM
                (λ s j,
                   (λ s (ij : Z * Z),
                      v ← XeTile.index intermediates (ij.1 * interGrids1 + ij.2);
                      push s v) s (i, j))
                range s)).
    2:{ intros s i Hi. apply elem_of_seqZ in Hi.
        rewrite (index_at [interGrids0; interGrids1] 1 interGrids1 ltac:(lia) eq_refl).
        cbn [mbind Exec_bind]. rewrite int_range_defined by lia.
        cbn [mbind Exec_bind].
        apply foldM_ext. intros [valSet newOps] j Hj. apply elem_of_seqZ in Hj.
        unfold XeTile.mul64, XeTile.add64.
        rewrite (int64_in_range (i * interGrids1)) by nia. cbn [mbind Exec_bind].
        rewrite (int64_in_range (i * interGrids1 + j)) by nia. done. }
    rewrite <-(Z2Nat.id interGrids0) at 1 by lia.
    pose proof (foldM_grid
                  (λ s ij, v ← XeTile.index intermediates (ij.1 * interGrids1 + ij.2);
                           push s v)
                  (Z.to_nat interGrids0) interGrids1 ([], []) ltac:(lia)) as Hgrid.
    cbn beta in Hgrid. rewrite Hgrid. clear Hgrid.
    rewrite (foldM_ext _ (λ s k, v ← XeTile.index intermediates k; push s v)).
    2:{ intros s k Hk. apply elem_of_seqZ in Hk. cbn [fst snd].
        assert (0 < interGrids1) by nia.
        by rewrite Z.mul_comm, <-Z.div_mod by lia. }
    rewrite Z2Nat.id by lia.
    replace (interGrids0 * interGrids1) with (Z.of_nat count) by (unfold count; nia).
    rewrite (foldM_index push intermediates count 0%nat) by lia.
    rewrite drop_0, Hrun. done.
  - intros g Hg. destruct (Hat g Hg) as (v & Hv & Hlook & Hty).
    exists v. split_and!; [| done | done].
    rewrite <-Hv. f_equal.
    rewrite !take_drop_commute, take_take. do 2 f_equal. nia.
Qed.

Lemma foldM_snoc {A B : Type} (f : A → Exec B) (l : list A) (acc : list B) :
  XeTile.foldM (λ acc x, v ← f x; mret (acc ++ [v])) l acc
  = (vs ← XeTile.for_each f l; mret (acc ++ vs)).
Proof.
  revert acc. induction l as [|x l IH]; intros acc.
  - cbn. by rewrite app_nil_r.
  - cbn [XeTile.foldM XeTile.for_each]. destruct (f x) as [v| |]; try done.
    cbn [mbind Exec_bind mret Exec_ret]. rewrite IH.
    destruct (XeTile.for_each f l); try done.
    cbn [mbind Exec_bind mret Exec_ret]. by rewrite <-(assoc_L (++)).
Qed.

Lemma for_each_exists {A B : Type} (f : A → Exec B) (R : A → B → Prop) (l : list A) :
  (∀ x, x ∈ l → ∃ y, f x = Ok y ∧ R x y) →
  ∃ ys, XeTile.for_each f l = Ok ys ∧ Forall2 R l ys.
Proof.
  induction l as [|x l IH]; intros Hf; [by exists [] |].
  destruct (Hf x ltac:(left)) as (y & Hy & HR).
  destruct IH as (ys & Hys & HRs); [intros; apply Hf; by right |].
  exists (y :: ys). cbn [XeTile.for_each]. rewrite Hy, Hys. by split; [| constructor].
Qed.

Lemma for_each_ext {A B : Type} (f g : A → Exec B) (l : list A) :
  (∀ x, x ∈ l → f x = g x) → XeTile.for_each f l = XeTile.for_each g l.
Proof.
  induction l as [|x l IH]; intros Hfg; [done |].
  cbn [XeTile.for_each]. rewrite Hfg by left.
  rewrite IH by (intros; apply Hfg; by right). done.
Qed.

(** The values of one column that the second group of loops stacks. *)
Lemma column_values (inputs : list XeTile.Value) (inGrids1 i j : Z) (nums : nat) :
  0 ≤ i → 0 ≤ j < inGrids1 →
  (i + Z.of_nat nums) * inGrids1 ≤ Z.of_nat (length inputs) →
  Z.of_nat (length inputs) ≤ XeTile.int64_max →
  XeTile.for_each (λ k, row ← XeTile.mul64 (i + k) inGrids1;
                        idx ← XeTile.add64 row j;
                        XeTile.index inputs idx)
    (seqZ 0 (Z.of_nat nums))
  = Ok ((λ k, inputs !!! Z.to_nat ((i + k) * inGrids1 + j))
        <$> seqZ 0 (Z.of_nat nums)).
Proof.
  intros Hi Hj Hlen Hmax. apply for_each_total. intros k Hk.
  apply elem_of_seqZ in Hk.
  assert (XeTile.int64_min ≤ 0) as Hmin by (by compute).
  unfold XeTile.mul64, XeTile.add64.
  rewrite (int64_in_range ((i + k) * inGrids1)) by nia. cbn [mbind Exec_bind].
  rewrite (int64_in_range ((i + k) * inGrids1 + j)) by nia. cbn [mbind Exec_bind].
  apply index_at; [nia |].
  apply list_lookup_lookup_total_lt. nia.
Qed.

(** The second group of loops of the branch that stacks: one value for
    each group of [nums] rows of each column, in row-major order. *)
Lemma stack_columns_defined (inputs intermediates : list XeTile.Value)
    (inGrids1 outGrids0 : Z) (e : nat) (rows cols elemTy : Z) :
  let vecTy rows cols :=
    XeTile.VectorTy {| XeTile.vector_shape := [rows; cols];
                       XeTile.vector_elementType := elemTy |} in
  let nums := Z.of_nat (2 ^ e) in
  0 < outGrids0 → 0 ≤ inGrids1 ≤ XeTile.int_max →
  nums * outGrids0 + nums ≤ XeTile.int_max →
  Z.of_nat (length inputs) = nums * outGrids0 * inGrids1 →
  Forall (λ v, XeTile.getType v = vecTy rows cols) inputs →
  0 ≤ rows → nums * rows ≤ XeTile.int_max →
  ∃ proper,
    XeTile.stack_columns (nums * outGrids0) inGrids1 nums inputs intermediates
    = Ok (intermediates ++ proper) ∧
    Z.of_nat (length proper) = outGrids0 * inGrids1 ∧
    ∀ g j, 0 ≤ g < outGrids0 → 0 ≤ j < inGrids1 →
      ∃ v, XeTile.transform_all XeTile.stack
             ((λ k, inputs !!! Z.to_nat ((g * nums + k) * inGrids1 + j))
              <$> seqZ 0 nums) = Ok v ∧
           proper !! Z.to_nat (g * inGrids1 + j) = Some v ∧
           XeTile.getType v = vecTy (nums * rows) cols.
Proof.
  intros vecTy nums Hout Hin Hint Hlen Htyped Hrows Hmax.
  assert (0 < nums) as Hnums.
  { unfold nums. pose proof (Nat.pow_nonzero 2 e). lia. }
  assert (nums = 2 ^ Z.of_nat e) as Hpow by (unfold nums; by rewrite Nat2Z.inj_pow).
  assert (XeTile.int_max < 2 ^ 31) as Hi32 by (by compute).
  assert (2 ^ 31 * 2 ^ 31 ≤ XeTile.int64_max) as Hsquare by (by compute).
  set (column := λ gj : Z * Z,
         (λ k, inputs !!! Z.to_nat ((gj.1 * nums + k) * inGrids1 + gj.2))
         <$> seqZ 0 nums).
  set (merged := λ gj : Z * Z, XeTile.transform_all XeTile.stack (column gj)).
  destruct (for_each_exists (λ k, merged (k / inGrids1, k `mod` inGrids1))
              (λ k v, merged (k / inGrids1, k `mod` inGrids1) = Ok v ∧
                      XeTile.getType v = vecTy (nums * rows) cols)
              (seqZ 0 (outGrids0 * inGrids1)))
    as (proper & Hproper & Hall).
  { intros k Hk. apply elem_of_seqZ in Hk.
    assert (0 < inGrids1) as Hcols by nia.
    pose proof (Z.div_pos k inGrids1 ltac:(lia) Hcols).
    pose proof (Z.div_lt_upper_bound k inGrids1 outGrids0 Hcols ltac:(lia)).
    pose proof (Z.mod_pos_bound k inGrids1 Hcols).
    destruct (transform_stack_typed e (column (k / inGrids1, k `mod` inGrids1))
                rows cols elemTy) as (v & Hv & Hty).
    - unfold column. rewrite length_fmap, length_seqZ. unfold nums. lia.
    - unfold column. apply Forall_fmap, Forall_forall. intros i Hi.
      apply elem_of_seqZ in Hi. cbn [fst snd compose].
      eapply (proj1 (Forall_forall _ _) Htyped), list_elem_of_lookup_total_2. nia.
    - done.
    - by rewrite <-Hpow.
    - exists v. rewrite <-Hpow in Hty. by split_and!. }
  exists proper. split_and!.
  - unfold XeTile.stack_columns, XeTile.step_range.
    rewrite bool_decide_eq_false_2 by nia.
    rewrite bool_decide_eq_false_2 by lia.
    replace ((nums * outGrids0 + nums - 1) / nums) with outGrids0
      by (apply Z.div_unique with (nums - 1); lia).
    cbn [mbind Exec_bind]. rewrite foldM_fmap.
    rewrite (foldM_ext _
      (λ s g, range ← XeTile.int_range inGrids1;
              XeTile.foldM (λ s j, v ← merged (g, j); mret (s ++ [v])) range s)).
    2:{ intros s g Hg. apply elem_of_seqZ in Hg.
        rewrite (int_range_defined inGrids1) by lia. cbn [mbind Exec_bind].
        apply foldM_ext. intros s' j Hj. apply elem_of_seqZ in Hj.
        rewrite (int_range_defined nums) by lia. cbn [mbind Exec_bind].
        pose proof (column_values inputs inGrids1 (g * nums) j (2 ^ e)) as Hvalues.
        fold nums in Hvalues. rewrite Hvalues by nia.
        cbn [mbind Exec_bind]. done. }
    rewrite <-(Z2Nat.id outGrids0) at 1 by lia.
    pose proof (foldM_grid (λ s gj, v ← merged gj; mret (s ++ [v]))
                  (Z.to_nat outGrids0) inGrids1 intermediates ltac:(lia)) as Hgrid.
    cbn beta in Hgrid. rewrite Hgrid. clear Hgrid.
    pose proof (foldM_snoc (λ k, merged (k / inGrids1, k `mod` inGrids1))
                  (seqZ 0 (Z.of_nat (Z.to_nat outGrids0) * inGrids1)) intermediates)
      as Hsnoc.
    cbn beta in Hsnoc. rewrite Hsnoc. clear Hsnoc.
    rewrite Z2Nat.id, Hproper by lia. done.
  - apply Forall2_length in Hall. rewrite length_seqZ in Hall. nia.
  - intros g j Hg Hj.
    destruct (Forall2_lookup_l _ _ _ (Z.to_nat (g * inGrids1 + j)) (g * inGrids1 + j) Hall)
      as (v & Hv & Hmerged & Hty).
    { rewrite lookup_seqZ. split; [| nia]. rewrite Z2Nat.id by nia. lia. }
    exists v. split_and!; [| done | done].
    rewrite <-Hmerged. unfold merged, column. cbn [fst snd].
    rewrite Z.div_add_l, (Z.div_small j), Z.add_0_r by lia.
    rewrite Z.add_comm, Z.mod_add, Z.mod_small by lia. done.
Qed.

(** The first pair of loops of the branch that stacks. An input that
    does not start a group of [nums] rows is added to the set. *)
Lemma gather_input_push (inputs : list XeTile.Value) (inGrids1 nums j i : Z)
    (valSet intermediates : list XeTile.Value) :
  i = 0 ∨ (nums ≠ 0 ∧ Z.rem i nums ≠ 0) →
  0 ≤ i → 0 ≤ j → 0 ≤ inGrids1 →
  i * inGrids1 + j < Z.of_nat (length inputs) →
  Z.of_nat (length inputs) ≤ XeTile.int64_max →
  XeTile.gather_input inGrids1 nums inputs j (valSet, intermediates) i
  = Ok (valSet ++ [inputs !!! Z.to_nat (i * inGrids1 + j)], intermediates).
Proof.
  intros Hi Hpos Hj Hcols Hlen Hmax. unfold XeTile.gather_input.
  assert (XeTile.int64_min ≤ 0) as Hmin by (by compute).
  assert ((if bool_decide (i = 0) then mret false
           else if bool_decide (nums = 0) then Undefined
           else mret (bool_decide (Z.rem i nums = 0))) = Ok false) as ->.
  { destruct Hi as [-> | [Hnums Hrem]]; [done |].
    case_bool_decide; [done |].
    by rewrite bool_decide_eq_false_2, (bool_decide_eq_false_2 (Z.rem i nums = 0)). }
  cbn [mbind Exec_bind mret Exec_ret]. unfold XeTile.mul64, XeTile.add64.
  rewrite (int64_in_range (i * inGrids1)) by nia. cbn [mbind Exec_bind].
  rewrite (int64_in_range (i * inGrids1 + j)) by nia. cbn [mbind Exec_bind].
  rewrite (index_at inputs (i * inGrids1 + j) (inputs !!! Z.to_nat (i * inGrids1 + j)));
    [done | nia |].
  apply list_lookup_lookup_total_lt. nia.
Qed.

(** An input that starts a group of rows, the first group apart, has the
    set stacked first. *)
Lemma gather_input_flush (inputs : list XeTile.Value) (inGrids1 nums j i : Z)
    (valSet intermediates : list XeTile.Value) (newOp : XeTile.Value) :
  0 < i → nums ≠ 0 → Z.rem i nums = 0 →
  XeTile.transform_all XeTile.stack valSet = Ok newOp →
  0 ≤ j → 0 ≤ inGrids1 →
  i * inGrids1 + j < Z.of_nat (length inputs) →
  Z.of_nat (length inputs) ≤ XeTile.int64_max →
  XeTile.gather_input inGrids1 nums inputs j (valSet, intermediates) i
  = Ok ([inputs !!! Z.to_nat (i * inGrids1 + j)], intermediates ++ [newOp]).
Proof.
  intros Hi Hnums Hrem Hstack Hj Hcols Hlen Hmax. unfold XeTile.gather_input.
  assert (XeTile.int64_min ≤ 0) as Hmin by (by compute).
  rewrite bool_decide_eq_false_2, bool_decide_eq_false_2, bool_decide_eq_true_2
    by (done || lia).
  cbn [mbind Exec_bind mret Exec_ret]. rewrite Hstack.
  cbn [mbind Exec_bind mret Exec_ret]. unfold XeTile.mul64, XeTile.add64.
  rewrite (int64_in_range (i * inGrids1)) by nia. cbn [mbind Exec_bind].
  rewrite (int64_in_range (i * inGrids1 + j)) by nia. cbn [mbind Exec_bind].
  rewrite (index_at inputs (i * inGrids1 + j) (inputs !!! Z.to_nat (i * inGrids1 + j)));
    [done | nia |].
  apply list_lookup_lookup_total_lt. nia.
Qed.

Lemma gather_pushes (inputs : list XeTile.Value) (inGrids1 nums j : Z) (count : nat) :
  ∀ (start : Z) (valSet intermediates : list XeTile.Value),
    0 ≤ start → 0 ≤ j < inGrids1 →
    (∀ i, start ≤ i < start + Z.of_nat count →
          i = 0 ∨ (nums ≠ 0 ∧ Z.rem i nums ≠ 0)) →
    (start + Z.of_nat count) * inGrids1 ≤ Z.of_nat (length inputs) →
    Z.of_nat (length inputs) ≤ XeTile.int64_max →
    XeTile.foldM (XeTile.gather_input inGrids1 nums inputs j)
      (seqZ start (Z.of_nat count)) (valSet, intermediates)
    = Ok (valSet ++ ((λ i, inputs !!! Z.to_nat (i * inGrids1 + j))
                     <$> seqZ start (Z.of_nat count)),
          intermediates).
Proof.
  induction count as [|count IH];
    intros start valSet intermediates Hstart Hj Hrun Hlen Hmax.
  - cbn. by rewrite app_nil_r.
  - rewrite (seqZ_cons start (Z.of_nat (S count))) by lia.
    cbn [XeTile.foldM fmap list_fmap].
    rewrite gather_input_push by (try apply Hrun; nia).
    cbn [mbind Exec_bind].
    replace (Z.pred (Z.of_nat (S count))) with (Z.of_nat count) by lia.
    rewrite IH by (try (intros; apply Hrun); nia).
    by rewrite <-(assoc_L (++)).
Qed.

Lemma rem_inside_group (nums g i : Z) :
  0 < nums → 0 ≤ g → g * nums < i < g * nums + nums → Z.rem i nums ≠ 0.
Proof.
  intros Hnums Hg Hi. rewrite Z.rem_mod_nonneg by nia.
  rewrite <-(Z.mod_unique i nums g (i - g * nums)); lia.
Qed.

Lemma rem_group_start (nums g : Z) : 0 < nums → 0 ≤ g → Z.rem (g * nums) nums = 0.
Proof. intros Hnums Hg. rewrite Z.rem_mod_nonneg by nia. apply Z.mod_mul. lia. Qed.

(** A group of rows after the first: the set gathered so far is stacked,
    and the group is gathered. *)
Lemma gather_group (inputs : list XeTile.Value) (inGrids1 j g : Z) (size : nat)
    (valSet intermediates : list XeTile.Value) (newOp : XeTile.Value) :
  let nums := Z.of_nat size in
  0 < nums → 0 < g → 0 ≤ j < inGrids1 →
  XeTile.transform_all XeTile.stack valSet = Ok newOp →
  (g * nums + nums) * inGrids1 ≤ Z.of_nat (length inputs) →
  Z.of_nat (length inputs) ≤ XeTile.int64_max →
  XeTile.foldM (XeTile.gather_input inGrids1 nums inputs j)
    (seqZ (g * nums) nums) (valSet, intermediates)
  = Ok ((λ i, inputs !!! Z.to_nat (i * inGrids1 + j)) <$> seqZ (g * nums) nums,
        intermediates ++ [newOp]).
Proof.
  intros nums Hnums Hg Hj Hstack Hlen Hmax. subst nums.
  rewrite (seqZ_cons (g * (Z.of_nat size)) (Z.of_nat size)) by lia.
  cbn [XeTile.foldM fmap list_fmap].
  rewrite (gather_input_flush inputs inGrids1 (Z.of_nat size) j (g * Z.of_nat size)
             valSet intermediates newOp)
    by (try apply rem_group_start; try done; nia).
  cbn [mbind Exec_bind].
  replace (Z.pred (Z.of_nat size)) with (Z.of_nat (size - 1)) by lia.
  rewrite gather_pushes; [done | lia | done | | nia | done].
  intros i Hi. right. split; [lia |].
  apply (rem_inside_group (Z.of_nat size) g); lia.
Qed.

(** The groups of rows of a column after the first. *)
Lemma gather_later_groups (inputs : list XeTile.Value) (inGrids1 j : Z) (e : nat)
    (rows cols elemTy : Z) (count : nat) :
  let typed v :=
    XeTile.getType v
    = XeTile.VectorTy {| XeTile.vector_shape := [rows; cols];
                         XeTile.vector_elementType := elemTy |} in
  let nums := Z.of_nat (2 ^ e) in
  ∀ (g : Z) (valSet intermediates : list XeTile.Value),
    0 < g → 0 ≤ j < inGrids1 →
    (count ≠ 0%nat → ∃ k, (k ≤ S e)%nat ∧ length valSet = (2 ^ k)%nat) →
    Forall typed valSet → Forall typed inputs →
    0 ≤ rows → 2 * nums * rows ≤ XeTile.int_max →
    (g + Z.of_nat count) * nums * inGrids1 ≤ Z.of_nat (length inputs) →
    Z.of_nat (length inputs) ≤ XeTile.int64_max →
    ∃ valSet' added,
      XeTile.foldM (XeTile.gather_input inGrids1 nums inputs j)
        (seqZ (g * nums) (Z.of_nat count * nums)) (valSet, intermediates)
      = Ok (valSet', intermediates ++ added) ∧
      length added = count ∧
      Forall typed valSet' ∧
      (count ≠ 0%nat → length valSet' = (2 ^ e)%nat) ∧
      (count = 0%nat → valSet' = valSet).
Proof.
  intros typed nums. subst nums. revert count.
  assert (0 < (Z.of_nat (2 ^ e))) as Hnums.
  { pose proof (Nat.pow_nonzero 2 e). lia. }
  assert ((Z.of_nat (2 ^ e)) = 2 ^ Z.of_nat e) as Hpow by (by rewrite Nat2Z.inj_pow).
  induction count as [|count IH];
    intros g valSet intermediates Hg Hj Hsize Hset Hinputs Hrows Hmax Hlen Hfit.
  - exists valSet, []. rewrite app_nil_r. by split_and!.
  - destruct Hsize as (k & Hk & Hsize); [done |].
    destruct (transform_stack_typed k valSet rows cols elemTy Hsize Hset Hrows)
      as (newOp & Hstack & _).
    { assert (2 ^ Z.of_nat k ≤ 2 ^ Z.of_nat (S e)) by (apply Z.pow_le_mono_r; lia).
      rewrite Nat2Z.inj_succ, Z.pow_succ_r in * by lia. nia. }
    replace (Z.of_nat (S count) * Z.of_nat (2 ^ e))
      with (Z.of_nat (2 ^ e) + Z.of_nat count * Z.of_nat (2 ^ e)) by lia.
    rewrite seqZ_app, foldM_app by nia.
    rewrite (gather_group inputs inGrids1 j g (2 ^ e) valSet intermediates newOp)
      by (done || nia).
    cbn [mbind Exec_bind].
    replace (g * Z.of_nat (2 ^ e) + Z.of_nat (2 ^ e)) with ((g + 1) * Z.of_nat (2 ^ e)) by lia.
    destruct (IH (g + 1)
                ((λ i, inputs !!! Z.to_nat (i * inGrids1 + j))
                   <$> seqZ (g * Z.of_nat (2 ^ e)) (Z.of_nat (2 ^ e)))
                (intermediates ++ [newOp]))
      as (valSet' & added & Hrun & Hadded & Htyped & Hfull & Hnone);
      [lia | done | | | done | done | done | nia | done |].
    { intros _. exists e. split; [lia |].
      rewrite length_fmap, length_seqZ. lia. }
    { apply Forall_fmap, Forall_forall. intros i Hi. apply elem_of_seqZ in Hi.
      eapply (proj1 (Forall_forall _ _) Hinputs), list_elem_of_lookup_total_2.
      assert ((i + 1) * inGrids1
              ≤ (g + Z.of_nat (S count)) * Z.of_nat (2 ^ e) * inGrids1)
        by (apply Z.mul_le_mono_nonneg_r; nia).
      assert (0 ≤ i * inGrids1) by nia.
      lia. }
    exists valSet', (newOp :: added). rewrite Hrun, <-(assoc_L (++)).
    split_and!; [done | by rewrite <-Hadded | done | | done].
    intros _. destruct count as [|count]; [| by apply Hfull].
    rewrite Hnone by done. rewrite length_fmap, length_seqZ. lia.
Qed.

(** One column of the first pair of loops: one value is added for each
    group of rows but the first, and the last group stays in the set. *)
Lemma gather_column (inputs : list XeTile.Value) (inGrids1 outGrids0 j : Z) (e : nat)
    (rows cols elemTy : Z) (valSet intermediates : list XeTile.Value) :
  let typed v :=
    XeTile.getType v
    = XeTile.VectorTy {| XeTile.vector_shape := [rows; cols];
                         XeTile.vector_elementType := elemTy |} in
  let nums := Z.of_nat (2 ^ e) in
  let kept (valSet : list XeTile.Value) :=
    Forall typed valSet ∧
    (1 < outGrids0 → length valSet = 0%nat ∨ length valSet = (2 ^ e)%nat) in
  0 < outGrids0 → 0 ≤ j < inGrids1 →
  kept valSet → Forall typed inputs →
  0 ≤ rows → 2 * nums * rows ≤ XeTile.int_max →
  Z.of_nat (length inputs) = nums * outGrids0 * inGrids1 →
  Z.of_nat (length inputs) ≤ XeTile.int64_max →
  ∃ valSet' added,
    XeTile.foldM (XeTile.gather_input inGrids1 nums inputs j)
      (seqZ 0 (nums * outGrids0)) (valSet, intermediates)
    = Ok (valSet', intermediates ++ added) ∧
    Z.of_nat (length added) = outGrids0 - 1 ∧
    kept valSet'.
Proof.
  intros typed nums kept Hout Hj [Hset Hsize] Hinputs Hrows Hmax Hlen Hfit.
  subst nums.
  assert (0 < (Z.of_nat (2 ^ e))) as Hnums.
  { pose proof (Nat.pow_nonzero 2 e). lia. }
  replace (Z.of_nat (2 ^ e) * outGrids0)
    with (Z.of_nat (2 ^ e) + Z.of_nat (Z.to_nat (outGrids0 - 1)) * Z.of_nat (2 ^ e))
    by (rewrite Z2Nat.id by lia; lia).
  rewrite seqZ_app, foldM_app by nia.
  rewrite (gather_pushes inputs inGrids1 (Z.of_nat (2 ^ e)) j (2 ^ e) 0 valSet
             intermediates); [| lia | done | | nia | done].
  2:{ intros i Hi. destruct (decide (i = 0)) as [->|]; [by left | right].
      split; [lia |]. apply (rem_inside_group (Z.of_nat (2 ^ e)) 0); lia. }
  cbn [mbind Exec_bind]. rewrite Z.add_0_l.
  destruct (gather_later_groups inputs inGrids1 j e rows cols elemTy
              (Z.to_nat (outGrids0 - 1)) 1
              (valSet ++ ((λ i, inputs !!! Z.to_nat (i * inGrids1 + j))
                          <$> seqZ 0 (Z.of_nat (2 ^ e))))
              intermediates)
    as (valSet' & added & Hrun & Hadded & Htyped & Hfull & Hnone);
    [lia | done | | | done | done | done | nia | done |].
  { intros Hmore. destruct Hsize as [Hsize | Hsize]; [lia | |].
    - exists e. split; [lia |].
      rewrite length_app, length_fmap, length_seqZ, Hsize. lia.
    - exists (S e). split; [lia |].
      rewrite length_app, length_fmap, length_seqZ, Hsize, Nat.pow_succ_r'.
      lia. }
  { apply Forall_app. split; [done |].
    apply Forall_fmap, Forall_forall. intros i Hi. apply elem_of_seqZ in Hi.
    eapply (proj1 (Forall_forall _ _) Hinputs), list_elem_of_lookup_total_2.
    assert ((i + 1) * inGrids1 ≤ Z.of_nat (2 ^ e) * outGrids0 * inGrids1)
      by (apply Z.mul_le_mono_nonneg_r; nia).
    assert (0 ≤ i * inGrids1) by nia.
    lia. }
  rewrite Z.mul_1_l in Hrun.
  exists valSet', added. split_and!; [done | lia |].
  split; [done |]. intros Hmore. right. apply Hfull. lia.
Qed.

(** The columns of the first pair of loops. *)
Lemma gather_columns (inputs : list XeTile.Value) (inGrids1 outGrids0 : Z) (e : nat)
    (rows cols elemTy : Z) (count : nat) :
  let typed v :=
    XeTile.getType v
    = XeTile.VectorTy {| XeTile.vector_shape := [rows; cols];
                         XeTile.vector_elementType := elemTy |} in
  let nums := Z.of_nat (2 ^ e) in
  let kept (valSet : list XeTile.Value) :=
    Forall typed valSet ∧
    (1 < outGrids0 → length valSet = 0%nat ∨ length valSet = (2 ^ e)%nat) in
  ∀ (j : Z) (valSet intermediates : list XeTile.Value),
    0 < outGrids0 → 0 ≤ j → j + Z.of_nat count ≤ inGrids1 →
    kept valSet → Forall typed inputs →
    0 ≤ rows → 2 * nums * rows ≤ XeTile.int_max →
    Z.of_nat (length inputs) = nums * outGrids0 * inGrids1 →
    Z.of_nat (length inputs) ≤ XeTile.int64_max →
    ∃ valSet' added,
      XeTile.foldM
        (λ state j,
           XeTile.foldM (XeTile.gather_input inGrids1 nums inputs j)
             (seqZ 0 (nums * outGrids0)) state)
        (seqZ j (Z.of_nat count)) (valSet, intermediates)
      = Ok (valSet', intermediates ++ added) ∧
      Z.of_nat (length added) = Z.of_nat count * (outGrids0 - 1) ∧
      kept valSet'.
Proof.
  intros typed nums kept. subst nums.
  induction count as [|count IH];
    intros j valSet intermediates Hout Hj Hcols Hkept Hinputs Hrows Hmax Hlen Hfit.
  - exists valSet, []. rewrite app_nil_r. split_and!; [done | simpl; lia | done].
  - rewrite (seqZ_cons j (Z.of_nat (S count))) by lia. cbn [XeTile.foldM].
    destruct (gather_column inputs inGrids1 outGrids0 j e rows cols elemTy valSet
                intermediates)
      as (valSet1 & added1 & -> & Hadded1 & Hkept1); [done | lia | done ..|].
    cbn [mbind Exec_bind].
    replace (Z.pred (Z.of_nat (S count))) with (Z.of_nat count) by lia.
    destruct (IH (Z.succ j) valSet1 (intermediates ++ added1))
      as (valSet2 & added2 & -> & Hadded2 & Hkept2); [done | lia | lia | done ..|].
    exists valSet2, (added1 ++ added2). rewrite <-(assoc_L (++)).
    split_and!; [done | | done]. rewrite length_app. lia.
Qed.

(** X27.  The branch of [SgTileUnpackPackOpPattern] that stacks blocks on
    dimension 0, for [outGrids0] rows of blocks made of [nums] input rows
    each, [nums] a power of two, and inputs of one type of rank two.  Its
    second group of loops gives the stack of each group of [nums] rows of
    each column, in the row-major order of the new grid.  Its first pair of
    loops has put [(outGrids0 - 1) * inGrids1] values in front of them: the
    intermediate values are as many as the new grid has blocks only when
    [outGrids0] is 1.  The rows of the values that first pair of loops
    merges, [2 * nums] blocks at most, are to fit the [int] that the mask of
    [stack] is counted in. *)
Theorem stack_on_dim0_adds_values (inGrids outGrids : list Z)
    (inputs : list XeTile.Value) (inGrids1 outGrids0 : Z) (e : nat)
    (rows cols elemTy : Z) :
  let vecTy rows cols :=
    XeTile.VectorTy {| XeTile.vector_shape := [rows; cols];
                       XeTile.vector_elementType := elemTy |} in
  let nums := Z.of_nat (2 ^ e) in
  inGrids !! 0%nat = Some (nums * outGrids0) → inGrids !! 1%nat = Some inGrids1 →
  outGrids !! 0%nat = Some outGrids0 →
  0 < outGrids0 → 0 ≤ inGrids1 ≤ XeTile.int_max →
  nums * outGrids0 + nums ≤ XeTile.int_max →
  Z.of_nat (length inputs) = nums * outGrids0 * inGrids1 →
  Forall (λ v, XeTile.getType v = vecTy rows cols) inputs →
  0 ≤ rows → 2 * nums * rows ≤ XeTile.int_max →
  ∃ early proper,
    XeTile.stack_on_dim0 inGrids outGrids inputs = Ok (early ++ proper) ∧
    Z.of_nat (length early) = (outGrids0 - 1) * inGrids1 ∧
    Z.of_nat (length proper) = outGrids0 * inGrids1 ∧
    ∀ g j, 0 ≤ g < outGrids0 → 0 ≤ j < inGrids1 →
      ∃ v, XeTile.transform_all XeTile.stack
             ((λ k, inputs !!! Z.to_nat ((g * nums + k) * inGrids1 + j))
              <$> seqZ 0 nums) = Ok v ∧
           proper !! Z.to_nat (g * inGrids1 + j) = Some v ∧
           XeTile.getType v = vecTy (nums * rows) cols.
Proof.
  intros vecTy nums HinGrids0 HinGrids1 HoutGrids0 Hout Hin Hint Hlen Htyped Hrows Hmax.
  subst nums.
  assert (0 < Z.of_nat (2 ^ e)) as Hnums.
  { pose proof (Nat.pow_nonzero 2 e). lia. }
  assert (XeTile.int_max < 2 ^ 31) as Hi32 by (by compute).
  assert (2 ^ 31 * 2 ^ 31 ≤ XeTile.int64_max) as Hsquare by (by compute).
  assert (Z.of_nat (length inputs) ≤ XeTile.int64_max) as Hfit by nia.
  destruct (gather_columns inputs inGrids1 outGrids0 e rows cols elemTy
              (Z.to_nat inGrids1) 0 [] [])
    as (valSet & early & Hgather & Hearly & _);
    [done | done | lia | by split; [| left] | done ..|].
  destruct (stack_columns_defined inputs early inGrids1 outGrids0 e rows cols elemTy)
    as (proper & Hcolumns & Hproper & Hat); [done | done | done | done | done | done | nia |].
  exists early, proper. split_and!; [| lia | done | done].
  unfold XeTile.stack_on_dim0.
  rewrite (index_at inGrids 0 _ ltac:(lia) HinGrids0).
  rewrite (index_at outGrids 0 _ ltac:(lia) HoutGrids0).
  cbn [mbind Exec_bind]. rewrite div64_nonneg by nia.
  rewrite Z.div_mul by lia. cbn [mbind Exec_bind].
  rewrite (index_at inGrids 1 _ ltac:(lia) HinGrids1).
  cbn [mbind Exec_bind]. unfold XeTile.stack_gather.
  rewrite (int_range_defined inGrids1) by lia. cbn [mbind Exec_bind].
  rewrite (foldM_ext _
    (λ state j,
       XeTile.foldM (XeTile.gather_input inGrids1 (Z.of_nat (2 ^ e)) inputs j)
         (seqZ 0 (Z.of_nat (2 ^ e) * outGrids0)) state))
    by (intros; by rewrite int_range_defined by lia).
  rewrite Z2Nat.id in Hgather by lia. rewrite Hgather.
  cbn [mbind Exec_bind snd]. exact Hcolumns.
Qed.

(** A loop that writes the value [val q] at the place [idx q] of a vector,
    for places that are all different. *)
Lemma foldM_inserts (idx : Z → Z) (val : Z → XeTile.Value) (size : nat) (count : nat) :
  ∀ (start : Z) (intermediates : list XeTile.Value),
    0 ≤ start → length intermediates = size →
    (∀ q, 0 ≤ q < start + Z.of_nat count → 0 ≤ idx q < Z.of_nat size) →
    (∀ q q', 0 ≤ q < q' → q' < start + Z.of_nat count → idx q ≠ idx q') →
    (∀ q, 0 ≤ q < start → intermediates !! Z.to_nat (idx q) = Some (val q)) →
    ∃ written,
      XeTile.foldM
        (λ intermediates q,
           _ ← XeTile.index intermediates (idx q);
           mret (<[Z.to_nat (idx q) := val q]> intermediates))
        (seqZ start (Z.of_nat count)) intermediates
      = Ok written ∧
      length written = size ∧
      ∀ q, 0 ≤ q < start + Z.of_nat count →
           written !! Z.to_nat (idx q) = Some (val q).
Proof.
  induction count as [|count IH]; intros start intermediates Hstart Hlen Hin Hinj Hdone.
  - exists intermediates. split_and!; [done | done |].
    intros q Hq. apply Hdone. lia.
  - rewrite (seqZ_cons start (Z.of_nat (S count))) by lia. cbn [XeTile.foldM].
    destruct (lookup_lt_is_Some_2 intermediates (Z.to_nat (idx start))) as [old Hold].
    { specialize (Hin start). lia. }
    rewrite (index_at intermediates (idx start) old) by (done || (specialize (Hin start); lia)).
    cbn [mbind Exec_bind mret Exec_ret].
    replace (Z.pred (Z.of_nat (S count))) with (Z.of_nat count) by lia.
    destruct (IH (Z.succ start) (<[Z.to_nat (idx start) := val start]> intermediates))
      as (written & Hrun & Hsize & Hat).
    + lia.
    + by rewrite length_insert.
    + intros q Hq. apply Hin. lia.
    + intros q q' Hq Hq'. apply Hinj; lia.
    + intros q Hq. destruct (decide (q = start)) as [->|Hne].
      * apply list_lookup_insert_eq. specialize (Hin start). lia.
      * rewrite list_lookup_insert_ne; [apply Hdone; lia |].
        specialize (Hinj q start ltac:(lia) ltac:(lia)).
        pose proof (Hin q ltac:(lia)). pose proof (Hin start ltac:(lia)). lia.
    + exists written. split_and!; [done | done |].
      intros q Hq. apply Hat. lia.
Qed.

Lemma mul64_in_range (a b : Z) :
  XeTile.int64_min ≤ a * b ≤ XeTile.int64_max → XeTile.mul64 a b = Ok (a * b).
Proof. apply int64_in_range. Qed.

Lemma mixed_radix_inj (a b a' b' c : Z) :
  0 ≤ b < c → 0 ≤ b' < c → a * c + b = a' * c + b' → a = a' ∧ b = b'.
Proof. intros Hb Hb' Heq. assert (a = a') by nia. subst. lia. Qed.

Lemma mixed_radix_digits (q c : Z) :
  0 < c → 0 ≤ q → q = q / c * c + q `mod` c ∧ 0 ≤ q / c ∧ 0 ≤ q `mod` c < c.
Proof.
  intros Hc Hq. pose proof (Z.div_mod q c ltac:(lia)).
  pose proof (Z.mod_pos_bound q c Hc). pose proof (Z.div_pos q c Hq Hc). lia.
Qed.

(** The branch that cuts on dimension 0: the row [R] of the new grid is
    the slice [R mod nums] of the row [R / nums] of the inputs. *)
Lemma extract_on_dim0_defined (op : XeTile.TileUnpackOp) (inGrids outGrids : list Z)
    (outBlkSizes0 : Z) (inputs : list XeTile.Value)
    (inGrids0 inGrids1 nums inBlkSizes1 size0 size1 : Z) :
  inGrids !! 0%nat = Some inGrids0 → inGrids !! 1%nat = Some inGrids1 →
  outGrids !! 0%nat = Some (nums * inGrids0) →
  XeTile.unpack_innerBlocks op !! 1%nat = Some inBlkSizes1 →
  XeTile.slice_sizes op inputs [outBlkSizes0; inBlkSizes1] = Ok [size0; size1] →
  0 < inGrids0 ≤ XeTile.int_max → 0 < inGrids1 ≤ XeTile.int_max →
  0 < nums ≤ XeTile.int_max →
  nums * inGrids0 * inGrids1 ≤ XeTile.int64_max →
  0 ≤ size0 → nums * size0 ≤ XeTile.int64_max →
  Z.of_nat (length inputs) = inGrids0 * inGrids1 →
  ∃ intermediates,
    XeTile.extract_on_dim0 op inGrids outGrids outBlkSizes0 inputs = Ok intermediates ∧
    Z.of_nat (length intermediates) = nums * inGrids0 * inGrids1 ∧
    ∀ R j, 0 ≤ R < nums * inGrids0 → 0 ≤ j < inGrids1 →
      intermediates !! Z.to_nat (R * inGrids1 + j)
      = Some (XeTile.ExtractStridedSliceOp
                (inputs !!! Z.to_nat (R / nums * inGrids1 + j))
                [R `mod` nums * size0; 0] [size0; size1] [1; 1]).
Proof.
  intros HinGrids0 HinGrids1 HoutGrids0 Hblk Hsizes Hrows Hcols Hnums Hfit Hsize0 Hoff Hlen.
  assert (XeTile.int64_min ≤ 0) as Hmin by (by compute).
  set (idx := λ pk : Z * Z,
         (pk.1 / inGrids1 * nums + pk.2) * inGrids1 + pk.1 `mod` inGrids1).
  set (val := λ pk : Z * Z,
         XeTile.ExtractStridedSliceOp (inputs !!! Z.to_nat pk.1)
           [pk.2 * size0; 0] [size0; size1] [1; 1]).
  set (write := λ (s : list XeTile.Value) (pk : Z * Z),
         _ ← XeTile.index s (idx pk); mret (<[Z.to_nat (idx pk) := val pk]> s)).
  set (column := λ (s : list XeTile.Value) (ij : Z * Z),
         range ← XeTile.int_range nums;
         XeTile.foldM (λ s k, write s (ij.1 * inGrids1 + ij.2, k)) range s).
  set (total := Z.to_nat (nums * inGrids0 * inGrids1)).
  assert (∀ q, 0 ≤ q < inGrids0 * inGrids1 * nums →
    ∃ i j k, 0 ≤ i < inGrids0 ∧ 0 ≤ j < inGrids1 ∧ 0 ≤ k < nums ∧
             q / nums = i * inGrids1 + j ∧ q `mod` nums = k ∧
             q = (i * inGrids1 + j) * nums + k ∧
             idx (q / nums, q `mod` nums) = (i * nums + k) * inGrids1 + j) as Hdigits.
  { intros q Hq.
    destruct (mixed_radix_digits q nums) as (Hq1 & Hq2 & Hq3); [lia | lia |].
    destruct (mixed_radix_digits (q / nums) inGrids1) as (Hp1 & Hp2 & Hp3); [lia | lia |].
    assert (q / nums / inGrids1 < inGrids0).
    { apply Z.div_lt_upper_bound; [lia |]. apply Z.div_lt_upper_bound; lia. }
    exists (q / nums / inGrids1), ((q / nums) `mod` inGrids1), (q `mod` nums).
    split_and!; done || lia. }
  destruct (foldM_inserts (λ q, idx (q / nums, q `mod` nums))
              (λ q, val (q / nums, q `mod` nums)) total
              (Z.to_nat (inGrids0 * inGrids1 * nums)) 0 (replicate total XeTile.Null))
    as (written & Hrun & Hwritten & Hat).
  { done. }
  { by rewrite length_replicate. }
  { intros q Hq. destruct (Hdigits q) as (i & j & k & Hi & Hj & Hk & _ & _ & _ & ->); [lia |].
    unfold total. nia. }
  { intros q q' Hq Hq' Heq.
    destruct (Hdigits q) as (i & j & k & Hi & Hj & Hk & _ & _ & Hqd & Hqi); [lia |].
    destruct (Hdigits q') as (i' & j' & k' & Hi' & Hj' & Hk' & _ & _ & Hqd' & Hqi'); [lia |].
    rewrite Hqi, Hqi' in Heq.
    apply mixed_radix_inj in Heq as [Heq ->]; [| done | done].
    apply mixed_radix_inj in Heq as [-> ->]; [| done | done]. lia. }
  { intros q Hq. lia. }
  exists written. split_and!.
  - unfold XeTile.extract_on_dim0.
    rewrite (index_at outGrids 0 _ ltac:(lia) HoutGrids0).
    rewrite (index_at inGrids 1 _ ltac:(lia) HinGrids1).
    cbn [mbind Exec_bind].
    rewrite (mul64_in_range (nums * inGrids0) inGrids1) by nia.
    cbn [mbind Exec_bind]. rewrite bool_decide_eq_false_2 by nia.
    rewrite (index_at _ 1 _ ltac:(lia) Hblk). cbn [mbind Exec_bind].
    rewrite Hsizes. cbn [mbind Exec_bind].
    rewrite (index_at inGrids 0 _ ltac:(lia) HinGrids0). cbn [mbind Exec_bind].
    rewrite div64_nonneg, Z.div_mul by nia. cbn [mbind Exec_bind].
    rewrite (int_range_defined inGrids0) by lia. cbn [mbind Exec_bind].
    rewrite (foldM_ext _
      (λ s i, range ← XeTile.int_range inGrids1;
              XeTile.foldM (λ s j, column s (i, j)) range s)).
    2:{ intros s i Hi. apply elem_of_seqZ in Hi.
        rewrite (int_range_defined inGrids1) by lia. cbn [mbind Exec_bind].
        apply foldM_ext. intros s' j Hj. apply elem_of_seqZ in Hj.
        assert (inGrids1 ≤ nums * inGrids1) as Hgroup by nia.
        assert (0 ≤ i * nums ∧ i * nums + nums ≤ nums * inGrids0) as Hstart by nia.
        assert (0 ≤ i * nums * inGrids1 ∧
                i * nums * inGrids1 + nums * inGrids1 ≤ nums * inGrids0 * inGrids1)
          as Hbase.
        { split; [nia |].
          replace (i * nums * inGrids1 + nums * inGrids1)
            with ((i * nums + nums) * inGrids1) by lia.
          apply Z.mul_le_mono_nonneg_r; lia. }
        assert (inGrids0 * inGrids1 ≤ nums * inGrids0 * inGrids1) as Hwhole by nia.
        assert (nums * inGrids0 ≤ nums * inGrids0 * inGrids1) as Hrows' by nia.
        assert (0 ≤ i * inGrids1 ∧ i * inGrids1 + inGrids1 ≤ inGrids0 * inGrids1)
          as Hrow by nia.
        unfold XeTile.mul64, XeTile.add64.
        rewrite (int64_in_range (i * nums)) by lia. cbn [mbind Exec_bind].
        rewrite (int64_in_range (i * nums * inGrids1)) by lia. cbn [mbind Exec_bind].
        rewrite (int64_in_range (i * nums * inGrids1 + j)) by lia. cbn [mbind Exec_bind].
        rewrite (int64_in_range (i * inGrids1)) by lia. cbn [mbind Exec_bind].
        rewrite (int64_in_range (i * inGrids1 + j)) by lia. cbn [mbind Exec_bind].
        rewrite (index_at inputs (i * inGrids1 + j)
                   (inputs !!! Z.to_nat (i * inGrids1 + j)))
          by (try apply list_lookup_lookup_total_lt; lia).
        cbn [mbind Exec_bind]. unfold column. cbn [fst snd].
        rewrite (int_range_defined nums) by lia. cbn [mbind Exec_bind].
        apply foldM_ext. intros s'' k Hk. apply elem_of_seqZ in Hk.
        unfold write, idx, val. cbn [fst snd].
        rewrite (index_at [size0; size1] 0 size0 ltac:(lia) eq_refl).
        cbn [mbind Exec_bind].
        assert (0 ≤ k * inGrids1 ∧ k * inGrids1 + inGrids1 ≤ nums * inGrids1)
          as Hstep by nia.
        rewrite (int64_in_range (k * size0)) by nia. cbn [mbind Exec_bind].
        rewrite (int64_in_range (k * inGrids1)) by lia. cbn [mbind Exec_bind].
        rewrite (int64_in_range (i * nums * inGrids1 + j + k * inGrids1)) by lia.
        cbn [mbind Exec_bind].
        rewrite Z.div_add_l, (Z.div_small j), Z.add_0_r by lia.
        rewrite (Z.add_comm (i * inGrids1) j), Z.mod_add, (Z.mod_small j) by lia.
        replace ((i * nums + k) * inGrids1 + j)
          with (i * nums * inGrids1 + j + k * inGrids1) by lia.
        rewrite (Z.add_comm j (i * inGrids1)). done. }
    rewrite <-(Z2Nat.id inGrids0) at 1 by lia.
    pose proof (foldM_grid column (Z.to_nat inGrids0) inGrids1 (replicate total XeTile.Null)
                  ltac:(lia)) as Hgrid.
    cbn beta in Hgrid.
    replace (Z.to_nat (nums * inGrids0 * inGrids1)) with total by done.
    rewrite Hgrid. clear Hgrid.
    rewrite (foldM_ext _
      (λ s p, range ← XeTile.int_range nums;
              XeTile.foldM (λ s k, write s (p, k)) range s)).
    2:{ intros s p Hp. apply elem_of_seqZ in Hp. unfold column. cbn [fst snd].
        by rewrite (Z.mul_comm (p / inGrids1)), <-Z.div_mod by lia. }
    rewrite Z2Nat.id by lia.
    rewrite <-(Z2Nat.id (inGrids0 * inGrids1)) by nia.
    pose proof (foldM_grid write (Z.to_nat (inGrids0 * inGrids1)) nums
                  (replicate total XeTile.Null) ltac:(lia)) as Hgrid.
    cbn beta in Hgrid. rewrite Hgrid. clear Hgrid.
    rewrite Z2Nat.id by nia. rewrite Z2Nat.id in Hrun by nia.
    exact Hrun.
  - rewrite Hwritten. unfold total. lia.
  - intros R j HR Hj.
    destruct (mixed_radix_digits R nums) as (HR1 & HR2 & HR3); [lia | lia |].
    assert (R / nums < inGrids0) as Hi by (apply Z.div_lt_upper_bound; lia).
    specialize (Hat ((R / nums * inGrids1 + j) * nums + R `mod` nums)).
    cbn beta in Hat.
    rewrite Z.div_add_l, (Z.div_small (R `mod` nums)), Z.add_0_r in Hat by lia.
    rewrite (Z.add_comm _ (R `mod` nums)), Z.mod_add, (Z.mod_small (R `mod` nums))
      in Hat by lia.
    unfold idx, val in Hat. cbn [fst snd] in Hat.
    rewrite Z.div_add_l, (Z.div_small j), Z.add_0_r in Hat by lia.
    rewrite (Z.add_comm _ j), Z.mod_add, (Z.mod_small j) in Hat by lia.
    rewrite <-HR1 in Hat. rewrite (Z.add_comm j) in Hat. apply Hat. nia.
Qed.

(** X28.  The branch of [SgTileUnpackPackOpPattern] that cuts blocks on
    dimension 0, each row of the inputs giving [nums] rows of the new grid:
    every place of the intermediate values is written, once; the value for
    the row [R] and the column [j] is the slice of the input of the row
    [R / nums] and the column [j] that starts at the row
    [(R mod nums) * size0] and has the size of the new block. *)
Theorem extract_on_dim0_fills_grid (op : XeTile.TileUnpackOp)
    (inGrids outGrids : list Z) (outBlkSizes0 : Z) (inputs : list XeTile.Value)
    (inGrids0 inGrids1 nums inBlkSizes1 size0 size1 : Z) :
  inGrids !! 0%nat = Some inGrids0 → inGrids !! 1%nat = Some inGrids1 →
  outGrids !! 0%nat = Some (nums * inGrids0) →
  XeTile.unpack_innerBlocks op !! 1%nat = Some inBlkSizes1 →
  XeTile.slice_sizes op inputs [outBlkSizes0; inBlkSizes1] = Ok [size0; size1] →
  0 < inGrids0 ≤ XeTile.int_max → 0 < inGrids1 ≤ XeTile.int_max →
  0 < nums ≤ XeTile.int_max →
  nums * inGrids0 * inGrids1 ≤ XeTile.int64_max →
  0 ≤ size0 → nums * size0 ≤ XeTile.int64_max →
  Z.of_nat (length inputs) = inGrids0 * inGrids1 →
  ∃ intermediates,
    XeTile.extract_on_dim0 op inGrids outGrids outBlkSizes0 inputs = Ok intermediates ∧
    Z.of_nat (length intermediates) = nums * inGrids0 * inGrids1 ∧
    ∀ R j, 0 ≤ R < nums * inGrids0 → 0 ≤ j < inGrids1 →
      intermediates !! Z.to_nat (R * inGrids1 + j)
      = Some (XeTile.ExtractStridedSliceOp
                (inputs !!! Z.to_nat (R / nums * inGrids1 + j))
                [R `mod` nums * size0; 0] [size0; size1] [1; 1]).
Proof. apply extract_on_dim0_defined. Qed.

Lemma slice_sizes_plain (op : XeTile.TileUnpackOp) (inputs : list XeTile.Value)
    (blkSizes : list Z) :
  XeTile.isVnniFormat op = false → XeTile.slice_sizes op inputs blkSizes = Ok blkSizes.
Proof. intros Hvnni. unfold XeTile.slice_sizes. by rewrite Hvnni. Qed.

(** The branch that cuts on dimension 1: each intermediate value gives
    [nums] values, side by side in the row-major order of the new grid. *)
Lemma extract_on_dim1_defined (op : XeTile.TileUnpackOp) (outGrids outBlkSizes : list Z)
    (inputs intermediates : list XeTile.Value)
    (interGrids0 interGrids1 nums outBlkSizes0 outBlkSizes1 size0 size1 : Z) :
  outBlkSizes !! 0%nat = Some outBlkSizes0 → outBlkSizes !! 1%nat = Some outBlkSizes1 →
  XeTile.slice_sizes op inputs [outBlkSizes0; outBlkSizes1] = Ok [size0; size1] →
  outGrids !! 1%nat = Some (nums * interGrids1) →
  0 ≤ interGrids0 ≤ XeTile.int_max → 0 < interGrids1 ≤ XeTile.int_max →
  0 < nums → nums * interGrids1 ≤ XeTile.int64_max →
  0 ≤ size1 → nums * size1 ≤ XeTile.int64_max →
  interGrids0 * interGrids1 ≤ Z.of_nat (length intermediates) →
  XeTile.extract_on_dim1 op outGrids [interGrids0; interGrids1] outBlkSizes inputs
    intermediates
  = Ok (XeTile.replaceOp
          ((λ t, XeTile.ExtractStridedSliceOp
                   (intermediates !!! Z.to_nat (t / nums))
                   [0; t `mod` nums * size1] [size0; size1] [1; 1])
           <$> seqZ 0 (interGrids0 * interGrids1 * nums))).
Proof.
  intros Hblk0 Hblk1 Hsizes HoutGrids1 Hrows Hcols Hnums Hfit Hsize1 Hoff Hlen.
  assert (XeTile.int64_min ≤ 0) as Hmin by (by compute).
  assert (XeTile.int_max < 2 ^ 31) as Hi32 by (by compute).
  assert (2 ^ 31 * 2 ^ 31 ≤ XeTile.int64_max) as Hsquare by (by compute).
  set (slice := λ pk : Z * Z,
         XeTile.ExtractStridedSliceOp (intermediates !!! Z.to_nat pk.1)
           [0; pk.2 * size1] [size0; size1] [1; 1]).
  set (cut := λ (s : list XeTile.Value) (ij : Z * Z),
         XeTile.foldM (λ s k, v ← Ok (slice (ij.1 * interGrids1 + ij.2, k));
                              mret (s ++ [v]))
           (seqZ 0 nums) s).
  unfold XeTile.extract_on_dim1.
  rewrite (index_at outBlkSizes 0 _ ltac:(lia) Hblk0).
  rewrite (index_at outBlkSizes 1 _ ltac:(lia) Hblk1).
  cbn [mbind Exec_bind]. rewrite Hsizes. cbn [mbind Exec_bind].
  rewrite (index_at outGrids 1 _ ltac:(lia) HoutGrids1).
  rewrite (index_at [interGrids0; interGrids1] 1 interGrids1 ltac:(lia) eq_refl).
  cbn [mbind Exec_bind]. rewrite div64_nonneg, Z.div_mul by nia.
  rewrite (index_at [interGrids0; interGrids1] 0 interGrids0 ltac:(lia) eq_refl).
  cbn [mbind Exec_bind]. rewrite (int_range_defined interGrids0) by lia.
  cbn [mbind Exec_bind].
  rewrite (foldM_ext _
    (λ s i, range ← XeTile.int_range interGrids1;
            XeTile.foldM (λ s j, cut s (i, j)) range s)).
  2:{ intros s i Hi. apply elem_of_seqZ in Hi.
      rewrite (int_range_defined interGrids1) by lia. cbn [mbind Exec_bind].
      apply foldM_ext. intros s' j Hj. apply elem_of_seqZ in Hj.
      assert (0 ≤ i * interGrids1 ∧ i * interGrids1 + interGrids1
                                    ≤ interGrids0 * interGrids1) as Hrow by nia.
      unfold XeTile.mul64, XeTile.add64.
      rewrite (int64_in_range (i * interGrids1)) by nia. cbn [mbind Exec_bind].
      rewrite (int64_in_range (i * interGrids1 + j)) by nia. cbn [mbind Exec_bind].
      rewrite (index_at intermediates (i * interGrids1 + j)
                 (intermediates !!! Z.to_nat (i * interGrids1 + j)))
        by (try apply list_lookup_lookup_total_lt; lia).
      cbn [mbind Exec_bind]. unfold cut. cbn [fst snd].
      apply foldM_ext. intros s'' k Hk. apply elem_of_seqZ in Hk.
      rewrite (index_at [size0; size1] 1 size1 ltac:(lia) eq_refl).
      cbn [mbind Exec_bind].
      rewrite (int64_in_range (k * size1)) by nia. done. }
  rewrite <-(Z2Nat.id interGrids0) at 1 by lia.
  pose proof (foldM_grid cut (Z.to_nat interGrids0) interGrids1 [] ltac:(lia)) as Hgrid.
  cbn beta in Hgrid. rewrite Hgrid. clear Hgrid.
  rewrite (foldM_ext _
    (λ s p, XeTile.foldM (λ s k, (λ s pk, v ← Ok (slice pk); mret (s ++ [v])) s (p, k))
              (seqZ 0 nums) s)).
  2:{ intros s p Hp. apply elem_of_seqZ in Hp. unfold cut. cbn [fst snd].
      by rewrite (Z.mul_comm (p / interGrids1)), <-Z.div_mod by lia. }
  rewrite Z2Nat.id by lia.
  rewrite (foldM_nested (λ s pk, v ← Ok (slice pk); mret (s ++ [v]))).
  rewrite <-(Z2Nat.id (interGrids0 * interGrids1)) by nia.
  rewrite nested_counters, foldM_fmap by lia.
  rewrite Z2Nat.id by nia.
  pose proof (foldM_snoc (λ t, Ok (slice (t / nums, t `mod` nums)))
                (seqZ 0 (interGrids0 * interGrids1 * nums)) []) as Hsnoc.
  cbn beta in Hsnoc. rewrite Hsnoc. clear Hsnoc.
  rewrite (for_each_total _ (λ t, slice (t / nums, t `mod` nums))) by done.
  done.
Qed.

(** X29.  [SgTileUnpackPackOpPattern] from blocks that are larger than
    the new ones in both dimensions, for an operand that is not in vnni
    format: the pack is replaced by one value for each block of the new
    grid, in row-major order.  The value for the row [R] and the column [C]
    is cut from the input block of the row [R / n0] and the column
    [C / n1]: first the rows from [(R mod n0) * outBlk0] on, then the
    columns from [(C mod n1) * outBlk1] on, in the size of the new
    block. *)
Theorem unpack_pack_cuts_blocks (op : XeTile.TileUnpackOp)
    (inputs : list XeTile.Value) (outTy outBlkSizes : list Z)
    (inGrids0 inGrids1 n0 n1 inBlk0 inBlk1 outBlk0 outBlk1 : Z) :
  XeTile.unpack_users op = [XeTile.TilePackOp outTy outBlkSizes] →
  take 2 (XeTile.unpack_inTy op) = [inGrids0; inGrids1] →
  take 2 outTy = [n0 * inGrids0; n1 * inGrids1] →
  XeTile.unpack_innerBlocks op = [inBlk0; inBlk1] →
  outBlkSizes = [outBlk0; outBlk1] →
  XeTile.isVnniFormat op = false →
  0 ≤ outBlk0 < inBlk0 → 0 ≤ outBlk1 < inBlk1 →
  0 < inGrids0 → 0 < inGrids1 ≤ XeTile.int_max →
  0 < n0 → n0 * inGrids0 ≤ XeTile.int_max →
  0 < n1 → n1 * inGrids1 ≤ XeTile.int64_max →
  n0 * outBlk0 ≤ XeTile.int64_max → n1 * outBlk1 ≤ XeTile.int64_max →
  Z.of_nat (length inputs) = inGrids0 * inGrids1 →
  ∃ newOps,
    XeTile.SgTileUnpackPackOpPattern op inputs = Ok (XeTile.replaceOp newOps) ∧
    Z.of_nat (length newOps) = n0 * inGrids0 * (n1 * inGrids1) ∧
    ∀ R C, 0 ≤ R < n0 * inGrids0 → 0 ≤ C < n1 * inGrids1 →
      newOps !! Z.to_nat (R * (n1 * inGrids1) + C)
      = Some (XeTile.ExtractStridedSliceOp
                (XeTile.ExtractStridedSliceOp
                   (inputs !!! Z.to_nat (R / n0 * inGrids1 + C / n1))
                   [R `mod` n0 * outBlk0; 0] [outBlk0; inBlk1] [1; 1])
                [0; C `mod` n1 * outBlk1] [outBlk0; outBlk1] [1; 1]).
Proof.
  intros Husers HinTy HoutTy HinBlk -> Hvnni Hblk0 Hblk1 Hrows Hcols Hn0 Hint Hn1 Hwide
    Hoff0 Hoff1 Hlen.
  assert (XeTile.int_max < 2 ^ 31) as Hi32 by (by compute).
  assert (2 ^ 31 * 2 ^ 31 ≤ XeTile.int64_max) as Hsquare by (by compute).
  assert (inGrids0 ≤ n0 * inGrids0) as Hgrow0 by nia.
  assert (n0 ≤ n0 * inGrids0) as Hgrow1 by nia.
  destruct (extract_on_dim0_defined op [inGrids0; inGrids1]
              [n0 * inGrids0; n1 * inGrids1] outBlk0 inputs
              inGrids0 inGrids1 n0 inBlk1 outBlk0 inBlk1)
    as (intermediates & Hdim0 & Hinter & Hat);
    [done | done | done | by rewrite HinBlk | by apply slice_sizes_plain
    | lia | lia | lia | nia | lia | lia | done |].
  eexists. split_and!.
  - unfold XeTile.SgTileUnpackPackOpPattern. rewrite Husers, HinTy, HoutTy, HinBlk.
    rewrite (index_at [inBlk0; inBlk1] 0 inBlk0 ltac:(lia) eq_refl).
    rewrite (index_at [outBlk0; outBlk1] 0 outBlk0 ltac:(lia) eq_refl).
    cbn [mbind Exec_bind].
    rewrite bool_decide_eq_false_2, bool_decide_eq_false_2 by lia.
    rewrite Hdim0. cbn [mbind Exec_bind].
    rewrite (index_at [n0 * inGrids0; n1 * inGrids1] 0 _ ltac:(lia) eq_refl).
    rewrite (index_at [inGrids0; inGrids1] 1 _ ltac:(lia) eq_refl).
    rewrite (index_at [inBlk0; inBlk1] 1 inBlk1 ltac:(lia) eq_refl).
    rewrite (index_at [outBlk0; outBlk1] 1 outBlk1 ltac:(lia) eq_refl).
    cbn [mbind Exec_bind].
    rewrite bool_decide_eq_false_2, bool_decide_eq_false_2 by lia.
    apply (extract_on_dim1_defined op [n0 * inGrids0; n1 * inGrids1]
             [outBlk0; outBlk1] inputs intermediates (n0 * inGrids0) inGrids1 n1
             outBlk0 outBlk1 outBlk0 outBlk1);
      [done | done | by apply slice_sizes_plain | done | lia | lia | lia | lia
      | lia | lia | lia].
  - rewrite length_fmap, length_seqZ. nia.
  - intros R C HR HC.
    destruct (mixed_radix_digits C n1) as (HC1 & HC2 & HC3); [lia | lia |].
    assert (C / n1 < inGrids1) as Hj by (apply Z.div_lt_upper_bound; lia).
    rewrite list_lookup_fmap, lookup_seqZ_lt by nia.
    rewrite Z2Nat.id by nia. cbn [fmap option_fmap option_map]. rewrite Z.add_0_l.
    replace (R * (n1 * inGrids1) + C)
      with ((R * inGrids1 + C / n1) * n1 + C `mod` n1) by lia.
    rewrite Z.div_add_l, (Z.div_small (C `mod` n1)), Z.add_0_r by lia.
    rewrite (Z.add_comm _ (C `mod` n1)), Z.mod_add, (Z.mod_small (C `mod` n1)) by lia.
    rewrite (list_lookup_total_correct _ _ _ (Hat R (C / n1) HR ltac:(lia))).
    done.
Qed.

Lemma gather_input_fails (inputs : list XeTile.Value) (inGrids1 nums j i : Z)
    (valSet intermediates : list XeTile.Value) (line : nat) :
  0 < i → nums ≠ 0 → Z.rem i nums = 0 →
  XeTile.transform_all XeTile.stack valSet = AssertionFailed line →
  XeTile.gather_input inGrids1 nums inputs j (valSet, intermediates) i
  = AssertionFailed line.
Proof.
  intros Hi Hnums Hrem Hstack. unfold XeTile.gather_input.
  rewrite bool_decide_eq_false_2, bool_decide_eq_false_2, bool_decide_eq_true_2
    by (done || lia).
  cbn [mbind Exec_bind mret Exec_ret]. by rewrite Hstack.
Qed.

Lemma stack_rank (a b : XeTile.Value) (vecTy : XeTile.VectorType) :
  XeTile.getType a = XeTile.VectorTy vecTy → XeTile.getType b = XeTile.VectorTy vecTy →
  length (XeTile.vector_shape vecTy) ≠ 2%nat →
  XeTile.stack a b = AssertionFailed 48.
Proof.
  intros Ha Hb Hrank. unfold XeTile.stack.
  rewrite (typed_not_null a _ Ha), (typed_not_null b _ Hb). cbn [orb].
  rewrite Ha, Hb, bool_decide_eq_true_2 by done. cbn [assert_ mbind Exec_bind].
  by destruct (XeTile.vector_shape vecTy) as [|? [|? [|? ?]]].
Qed.

(** [transform] with [stack] on vectors that are not of rank two. *)
Lemma transform_stack_rank (values : list XeTile.Value) (vecTy : XeTile.VectorType) :
  Forall (λ v, XeTile.getType v = XeTile.VectorTy vecTy) values →
  length (XeTile.vector_shape vecTy) ≠ 2%nat →
  (1 < length values)%nat → Nat.modulo (length values) 2 = 0%nat →
  XeTile.transform_all XeTile.stack values = AssertionFailed 48.
Proof.
  intros Htyped Hrank Hmany Heven. unfold XeTile.transform_all.
  rewrite transform_S, !bool_decide_eq_true_2 by done.
  destruct values as [|a [|b rest]]; [simpl in Hmany; lia .. |].
  apply Forall_cons in Htyped as [Ha Htyped].
  apply Forall_cons in Htyped as [Hb _].
  cbn [XeTile.merge_pairs]. by rewrite (stack_rank a b vecTy Ha Hb Hrank).
Qed.

(** The branch that stacks, on vectors that are not of rank two: the first
    merge fails the assertion of [stack]. *)
Lemma stack_on_dim0_rank (inGrids outGrids : list Z) (inputs : list XeTile.Value)
    (inGrids1 outGrids0 : Z) (half : nat) (vecTy : XeTile.VectorType) :
  let nums := Z.of_nat (2 * S half) in
  inGrids !! 0%nat = Some (nums * outGrids0) → inGrids !! 1%nat = Some inGrids1 →
  outGrids !! 0%nat = Some outGrids0 →
  0 < outGrids0 → 0 < inGrids1 ≤ XeTile.int_max →
  nums * outGrids0 + nums ≤ XeTile.int_max →
  Z.of_nat (length inputs) = nums * outGrids0 * inGrids1 →
  Forall (λ v, XeTile.getType v = XeTile.VectorTy vecTy) inputs →
  length (XeTile.vector_shape vecTy) ≠ 2%nat →
  XeTile.stack_on_dim0 inGrids outGrids inputs = AssertionFailed 48.
Proof.
  intros nums HinGrids0 HinGrids1 HoutGrids0 Hout Hin Hint Hlen Htyped Hrank.
  subst nums.
  assert (XeTile.int_max < 2 ^ 31) as Hi32 by (by compute).
  assert (2 ^ 31 * 2 ^ 31 ≤ XeTile.int64_max) as Hsquare by (by compute).
  assert (Z.of_nat (length inputs) ≤ XeTile.int64_max) as Hfit by nia.
  assert (Z.of_nat (2 * S half) * inGrids1
          ≤ Z.of_nat (2 * S half) * outGrids0 * inGrids1) as Hgroup by nia.
  assert (∀ (f : Z → Z) start,
    (∀ k, start ≤ k < start + Z.of_nat (2 * S half) →
          0 ≤ f k < Z.of_nat (length inputs)) →
    XeTile.transform_all XeTile.stack
      ((λ k, inputs !!! Z.to_nat (f k)) <$> seqZ start (Z.of_nat (2 * S half)))
    = AssertionFailed 48) as Hfail.
  { intros f start Hf. apply (transform_stack_rank _ vecTy); [| done | |].
    - apply Forall_fmap, Forall_forall. intros i Hi. apply elem_of_seqZ in Hi.
      eapply (proj1 (Forall_forall _ _) Htyped), list_elem_of_lookup_total_2.
      specialize (Hf i Hi). lia.
    - rewrite length_fmap, length_seqZ. lia.
    - rewrite length_fmap, length_seqZ, Nat2Z.id, Nat.mul_comm.
      apply Nat.Div0.mod_mul. }
  assert (∀ i j, 0 ≤ i < Z.of_nat (2 * S half) → 0 ≤ j < inGrids1 →
                 0 ≤ i * inGrids1 + j < Z.of_nat (length inputs)) as Hinside.
  { intros i j Hi Hj.
    assert ((i + 1) * inGrids1 ≤ Z.of_nat (2 * S half) * inGrids1)
      by (apply Z.mul_le_mono_nonneg_r; lia).
    assert (0 ≤ i * inGrids1) by nia. lia. }
  unfold XeTile.stack_on_dim0.
  rewrite (index_at inGrids 0 _ ltac:(lia) HinGrids0).
  rewrite (index_at outGrids 0 _ ltac:(lia) HoutGrids0).
  cbn [mbind Exec_bind]. rewrite div64_nonneg by nia.
  rewrite Z.div_mul by lia. cbn [mbind Exec_bind].
  rewrite (index_at inGrids 1 _ ltac:(lia) HinGrids1).
  cbn [mbind Exec_bind]. unfold XeTile.stack_gather.
  rewrite (int_range_defined inGrids1) by lia. cbn [mbind Exec_bind].
  rewrite (foldM_ext _
    (λ state j,
       XeTile.foldM (XeTile.gather_input inGrids1 (Z.of_nat (2 * S half)) inputs j)
         (seqZ 0 (Z.of_nat (2 * S half) * outGrids0)) state))
    by (intros; by rewrite int_range_defined by lia).
  destruct (decide (outGrids0 = 1)) as [-> | Hmore].
  - rewrite Z.mul_1_r.
    assert (∀ (count : nat) (j : Z) (valSet : list XeTile.Value),
      0 ≤ j → j + Z.of_nat count ≤ inGrids1 →
      ∃ valSet',
        XeTile.foldM
          (λ state j,
             XeTile.foldM
               (XeTile.gather_input inGrids1 (Z.of_nat (2 * S half)) inputs j)
               (seqZ 0 (Z.of_nat (2 * S half))) state)
          (seqZ j (Z.of_nat count)) (valSet, []) = Ok (valSet', [])) as Hgather.
    { induction count as [|count IH]; intros j valSet Hj Hcount; [by eexists |].
      rewrite (seqZ_cons j (Z.of_nat (S count))) by lia. cbn [XeTile.foldM].
      rewrite gather_pushes; [| done | lia | | lia | done].
      2:{ intros i Hi. destruct (decide (i = 0)) as [->|]; [by left | right].
          split; [lia |]. apply (rem_inside_group _ 0); lia. }
      cbn [mbind Exec_bind].
      replace (Z.pred (Z.of_nat (S count))) with (Z.of_nat count) by lia.
      apply IH; lia. }
    destruct (Hgather (Z.to_nat inGrids1) 0 []) as (valSet & Hrun); [done | lia |].
    rewrite Z2Nat.id in Hrun by lia. rewrite Hrun. cbn [mbind Exec_bind snd].
    unfold XeTile.stack_columns, XeTile.step_range.
    rewrite bool_decide_eq_false_2, bool_decide_eq_false_2 by lia.
    replace ((Z.of_nat (2 * S half) + Z.of_nat (2 * S half) - 1) / Z.of_nat (2 * S half))
      with 1 by (apply Z.div_unique with (Z.of_nat (2 * S half) - 1); lia).
    cbn [mbind Exec_bind]. change (seqZ 0 1) with [0].
    cbn [fmap list_fmap XeTile.foldM].
    rewrite (int_range_defined inGrids1) by lia. cbn [mbind Exec_bind].
    rewrite (seqZ_cons 0 inGrids1) by lia. cbn [XeTile.foldM].
    rewrite (int_range_defined (Z.of_nat (2 * S half))) by lia.
    cbn [mbind Exec_bind]. rewrite Z.mul_0_l.
    rewrite (column_values inputs inGrids1 0 0 (2 * S half)) by lia.
    cbn [mbind Exec_bind].
    rewrite (Hfail (λ k, (0 + k) * inGrids1 + 0) 0)
      by (intros k Hk; rewrite Z.add_0_l; apply Hinside; lia).
    done.
  - rewrite (seqZ_cons 0 inGrids1) by lia. cbn [XeTile.foldM].
    replace (Z.of_nat (2 * S half) * outGrids0)
      with (Z.of_nat (2 * S half) + (1 + (Z.of_nat (2 * S half) * outGrids0
                                          - Z.of_nat (2 * S half) - 1))) by lia.
    rewrite seqZ_app, foldM_app by nia.
    rewrite gather_pushes; [| done | lia | | nia | done].
    2:{ intros i Hi. destruct (decide (i = 0)) as [->|]; [by left | right].
        split; [lia |]. apply (rem_inside_group _ 0); lia. }
    cbn [mbind Exec_bind app]. rewrite Z.add_0_l.
    rewrite seqZ_app, foldM_app by nia.
    change (seqZ (Z.of_nat (2 * S half)) 1) with [Z.of_nat (2 * S half)].
    cbn [XeTile.foldM].
    rewrite (gather_input_fails _ _ _ _ _ _ _ 48); [done | lia | lia | |].
    + rewrite Z.rem_mod_nonneg, Z.mod_same by lia. done.
    + apply (Hfail (λ i, i * inGrids1 + 0) 0). intros k Hk. apply Hinside; lia.
Qed.

(** X30.  The vectors that [SgLoadTileOpPattern] loads in vnni format are
    of rank three; the branch of [SgTileUnpackPackOpPattern] that stacks
    blocks on dimension 0 has no check for them, as the branch that joins
    on dimension 1 has, and fails the assertion of [stack] on line 48 at
    its first merge, which takes an even number of them. *)
Theorem vnni_blocks_fail_the_stack (op : XeTile.LoadTileOp)
    (sources : list XeTile.Value) (tdescTy : XeTile.TensorDescType)
    (height width : Z) :
  is_Some (XeTile.tile_innerBlocks (XeTile.load_type op)) →
  0 < XeTile.tile_elementType (XeTile.load_type op) →
  Forall (λ src, XeTile.getType src = XeTile.TensorDescTy tdescTy) sources →
  XeTile.td_shape tdescTy = [height; width] →
  0 ≤ height ≤ XeTile.int64_max → 0 ≤ width ≤ XeTile.int64_max →
  1 ≤ XeTile.td_array_length tdescTy →
  XeTile.load_isForDPASA op || XeTile.load_isForDPASB op = true →
  1 < 32 / XeTile.tile_elementType (XeTile.load_type op) →
  ∃ values,
    XeTile.SgLoadTileOpPattern op sources = Ok (XeTile.replaceOp values) ∧
    ∀ (inGrids outGrids : list Z) (inGrids1 outGrids0 : Z) (half : nat),
      let nums := Z.of_nat (2 * S half) in
      inGrids !! 0%nat = Some (nums * outGrids0) → inGrids !! 1%nat = Some inGrids1 →
      outGrids !! 0%nat = Some outGrids0 →
      0 < outGrids0 → 0 < inGrids1 ≤ XeTile.int_max →
      nums * outGrids0 + nums ≤ XeTile.int_max →
      Z.of_nat (length values) = nums * outGrids0 * inGrids1 →
      XeTile.stack_on_dim0 inGrids outGrids values = AssertionFailed 48.
Proof.
  intros Hblk Hbits Hsources Hshape Hheight Hwidth Hlen Hdpas Hfactor.
  destruct (LoadTile_defined op sources tdescTy height width Hblk Hbits Hsources
              Hshape Hheight Hwidth Hlen)
    as (vectorTy & vnniAttr & values & Hrun & Hcount & Hat & Hvnni & _ & Hrank).
  rewrite Hdpas, bool_decide_eq_true_2 in Hvnni by done. cbn [andb] in Hvnni.
  rewrite Hvnni in Hrank.
  set (vecTy :=
         if bool_decide (XeTile.td_array_length tdescTy = 1) then vectorTy
         else {| XeTile.vector_shape := tail (XeTile.vector_shape vectorTy);
                 XeTile.vector_elementType := XeTile.vector_elementType vectorTy |}).
  assert (length (XeTile.vector_shape vecTy) = 3%nat) as Hthree.
  { unfold vecTy. case_bool_decide; [done |]. cbn [XeTile.vector_shape].
    destruct (XeTile.vector_shape vectorTy); simpl in *; lia. }
  assert (Forall (λ v, XeTile.getType v = XeTile.VectorTy vecTy) values) as Htyped.
  { apply Forall_lookup. intros n v Hv.
    pose proof (lookup_lt_Some _ _ _ Hv) as Hn.
    destruct (mixed_radix_digits (Z.of_nat n) (XeTile.td_array_length tdescTy))
      as (Hn1 & Hn2 & Hn3); [lia | lia |].
    assert (Z.of_nat n / XeTile.td_array_length tdescTy < Z.of_nat (length sources))
      as Hk by (apply Z.div_lt_upper_bound; lia).
    destruct (lookup_lt_is_Some_2 sources
                (Z.to_nat (Z.of_nat n / XeTile.td_array_length tdescTy)))
      as [src Hsrc]; [lia |].
    specialize (Hat _ src (Z.of_nat n `mod` XeTile.td_array_length tdescTy) Hsrc Hn3).
    rewrite Z2Nat.id, <-Hn1, Nat2Z.id, Hv in Hat by lia.
    injection Hat as ->. unfold vecTy. by case_bool_decide. }
  exists values. split; [done |].
  intros inGrids outGrids inGrids1 outGrids0 half nums HinGrids0 HinGrids1 HoutGrids0
    Hout Hin Hint Hsize.
  apply (stack_on_dim0_rank inGrids outGrids values inGrids1 outGrids0 half vecTy);
    try done.
  by rewrite Hthree.
Qed.

End Regrouping.

(** ** The properties at sample shapes *)

Lemma getMask_row_major_witness :
  XeTile.getMask [2; 4]%Z [2; 3]%Z
  = Ok [0; 1; 2; 3; 8; 9; 10; 4; 5; 6; 7; 11; 12; 13]%Z ∧
  XeTile.getMask [2; 4]%Z [3; 4]%Z = AssertionFailed 59.
Proof.
  split.
  - destruct (getMask_row_major [2; 4]%Z [2; 3]%Z) as [_ Hmask].
    destruct (Hmask 2 4 3)%Z as [Hok _];
      [done | done | lia | lia | lia | by vm_compute |].
    exact Hok.
  - destruct (getMask_row_major [2; 4]%Z [3; 4]%Z) as [Hassert _].
    apply Hassert. split; [done |]. intros (_ & _ & [=]).
Defined.

Lemma getMask_permutation_witness :
  ∃ mask, XeTile.getMask [2; 4]%Z [2; 3]%Z = Ok mask ∧
          mask ≡ₚ seqZ 0 (2 * 4 + 2 * 3).
Proof. apply (getMask_permutation 2 4 3); [lia | lia | lia | by vm_compute]. Defined.

Lemma concat_mask_joins_rows_witness :
  ∃ mask,
    XeTile.getMask [2; 4]%Z [2; 3]%Z = Ok mask ∧
    XeTile.shuffle [1; 2; 3; 4; 5; 6; 7; 8]%nat [10; 11; 12; 13; 14; 15]%nat mask
    = Some <$> [1; 2; 3; 4; 10; 11; 12; 5; 6; 7; 8; 13; 14; 15]%nat.
Proof.
  apply (concat_mask_joins_rows
           [[1; 2; 3; 4]; [5; 6; 7; 8]]%nat [[10; 11; 12]; [13; 14; 15]]%nat
           4 3).
  - done.
  - by repeat constructor.
  - by repeat constructor.
  - by vm_compute.
Defined.

Lemma transform_power_of_two_witness :
  XeTile.transform 3 (λ a b, Ok (a ++ b)) [[1]; [2]; [3]; [4]]%nat
  = Some (Ok [1; 2; 3; 4]%nat).
Proof. apply (transform_power_of_two app 2 [1]%nat [[2]; [3]; [4]]%nat). done. Defined.

Lemma transform_asserts_otherwise_witness :
  XeTile.transform 6 (λ a b, Ok (a ++ b)) [[1]; [2]; [3]; [4]; [5]; [6]]%nat
  = Some (AssertionFailed 128).
Proof.
  apply (transform_asserts_otherwise app); [done | | done].
  intros k Hk. cbn [length] in Hk.
  destruct k as [|[|[|k]]]; [done | done | done |].
  rewrite !Nat.pow_succ_r' in Hk. lia.
Defined.

Lemma transform_terminates_witness :
  is_Some (XeTile.transform 4 (λ a b : nat, Ok (a + b)%nat) [1; 2; 3]%nat) ∧
  XeTile.transform 4 (λ a b : nat, Ok (a + b)%nat) [] = Some Undefined.
Proof.
  apply (transform_terminates (λ a b : nat, Ok (a + b)%nat) [1; 2; 3]%nat 4). simpl. lia.
Defined.

Lemma getBlockArrayLength_greatest_witness :
  (∃ n, XeTile.getBlockArrayLength 16 16 = Ok n ∧ (0 ≤ n)%Z ∧
        (n * (16 * 16) ≤ 512 < (n + 1) * (16 * 16))%Z) ∧
  XeTile.getBlockArrayLength 16 (-16) = Ok 0%Z.
Proof.
  split.
  - destruct (getBlockArrayLength_greatest 16 16) as (Hpos & _ & _); [lia | lia |].
    apply Hpos. lia.
  - destruct (getBlockArrayLength_greatest 16 (-16)) as (_ & Hneg & _); [lia | lia |].
    apply Hneg. lia.
Defined.

Lemma InitTile_row_major_descriptors_witness :
  ∃ newOps,
    XeTile.SgInitTileOpPattern sample_init_tile = Ok (XeTile.replaceOp newOps) ∧
    length newOps = 4%nat ∧
    newOps !! 3%nat
    = Some (XeTile.CreateNdDescOp sample_tdesc (XeTile.Operand 0 XeTile.OtherType)
              (XeTile.AddIOp (XeTile.ConstantOp 8) (XeTile.Operand 1 XeTile.IndexType))
              (XeTile.AddIOp (XeTile.ConstantOp 32) (XeTile.ConstantOp 4))).
Proof.
  destruct (InitTile_row_major_descriptors sample_init_tile 16 64 8 16
              (XeTile.Operand 1 XeTile.IndexType) (XeTile.ConstantOp 4) [])
    as (newOps & Hrun & Hlen & Hat);
    [done | done | done | done | lia | lia | lia | lia | by vm_compute |].
  exists newOps. split_and!; [done | |].
  - apply Nat2Z.inj. rewrite Hlen. by vm_compute.
  - apply (Hat 1 1)%Z; by vm_compute.
Defined.

Lemma InitTile_covers_whole_groups_once_witness :
  ∃ newOps,
    XeTile.SgInitTileOpPattern ragged_init_tile = Ok (XeTile.replaceOp newOps) ∧
    (∃ k descriptor, newOps !! k = Some descriptor ∧
                     XeTile.covers descriptor 15 31) ∧
    ¬ (∃ k descriptor, newOps !! k = Some descriptor ∧
                       XeTile.covers descriptor 15 32).
Proof.
  destruct (InitTile_covers_whole_groups_once ragged_init_tile 16 48 8 16
              (XeTile.ConstantOp 0) (XeTile.ConstantOp 0) [])
    as (newOps & Hrun & Hcover);
    [done | done | done | done | lia | lia | lia | lia | by vm_compute |].
  exists newOps. split_and!; [done | |].
  - apply (Hcover 15 31)%Z. by vm_compute.
  - intros Hin. apply (Hcover 15 32)%Z in Hin. vm_compute in Hin.
    destruct Hin as [_ [_ Hin]]. done.
Defined.

Lemma InitTile_wide_block_divides_by_zero_witness :
  XeTile.SgInitTileOpPattern
    {| XeTile.init_source := XeTile.Operand 0 XeTile.OtherType;
       XeTile.init_type :=
         {| XeTile.tile_shape := [16; 64]%Z;
            XeTile.tile_innerBlocks := Some [8; 32]%Z;
            XeTile.tile_elementType := 32 |};
       XeTile.init_static_offsets := [0; 0]%Z;
       XeTile.init_offsets := [];
       XeTile.init_isForLoad := true |}
  = Undefined.
Proof.
  apply (InitTile_wide_block_divides_by_zero _ 16 64 8 32);
    [done | done | done | done | done | done | done].
Defined.

Lemma LoadTile_values_in_block_order_witness :
  ∃ vectorTy values,
    XeTile.SgLoadTileOpPattern sample_load_tile
      [XeTile.Operand 0 (XeTile.TensorDescTy sample_tdesc);
       XeTile.Operand 1 (XeTile.TensorDescTy sample_tdesc)]
    = Ok (XeTile.replaceOp values) ∧
    length values = 4%nat ∧
    values !! 3%nat
    = Some (XeTile.ExtractOp
              (XeTile.LoadNDOp vectorTy
                 (XeTile.Operand 1 (XeTile.TensorDescTy sample_tdesc)) (Some 0%Z))
              1) ∧
    XeTile.numElements (XeTile.vector_shape vectorTy) = (2 * 8 * 16)%Z.
Proof.
  destruct (LoadTile_values_in_block_order sample_load_tile
              [XeTile.Operand 0 (XeTile.TensorDescTy sample_tdesc);
               XeTile.Operand 1 (XeTile.TensorDescTy sample_tdesc)]
              sample_tdesc 8 16)
    as (vectorTy & vnniAttr & values & Hrun & Hlen & Hat & Hvnni & Hcount);
    [by eexists | done | by repeat constructor | done | by vm_compute
    | by vm_compute | done |].
  vm_compute in Hvnni. subst vnniAttr.
  exists vectorTy, values. split_and!; [done | | |].
  - apply Nat2Z.inj. rewrite Hlen. done.
  - apply (Hat 1%nat _ 1%Z); done.
  - apply Hcount. intros axis dim [= <-] [= <-]. by exists 4%Z.
Defined.

Lemma InitTile_LoadTile_blocks_row_major_witness :
  ∃ descriptors values,
    XeTile.SgInitTileOpPattern sample_init_tile = Ok (XeTile.replaceOp descriptors) ∧
    XeTile.SgLoadTileOpPattern sample_load_tile descriptors
    = Ok (XeTile.replaceOp values) ∧
    length values = 8%nat.
Proof.
  destruct (InitTile_LoadTile_blocks_row_major sample_init_tile sample_load_tile
              16 64 8 16 (XeTile.Operand 1 XeTile.IndexType) (XeTile.ConstantOp 4) [])
    as (descriptors & vectorTy & vnniAttr & values & Hinit & Hload & Hlen & _);
    [done | done | done | done | done | lia | lia | lia | lia | by vm_compute |].
  exists descriptors, values. split_and!; [done | done |].
  apply Nat2Z.inj. rewrite Hlen. by vm_compute.
Defined.



Lemma regrouping_shapes_witness :
  (∃ v, XeTile.transform_all XeTile.stack
          [sample_vector 0 8 16; sample_vector 1 8 16;
           sample_vector 2 8 16; sample_vector 3 8 16] = Ok v ∧
        XeTile.getType v
        = XeTile.VectorTy {| XeTile.vector_shape := [32; 16]%Z;
                             XeTile.vector_elementType := 16 |}) ∧
  (∃ v, XeTile.transform_all XeTile.concat
          [sample_vector 0 8 16; sample_vector 1 8 16;
           sample_vector 2 8 16; sample_vector 3 8 16] = Ok v ∧
        XeTile.getType v
        = XeTile.VectorTy {| XeTile.vector_shape := [8; 64]%Z;
                             XeTile.vector_elementType := 16 |}).
Proof.
  destruct (regrouping_shapes 2
              [sample_vector 0 8 16; sample_vector 1 8 16;
               sample_vector 2 8 16; sample_vector 3 8 16] 8 16 16)
    as [Hstack Hconcat]; [done | by repeat constructor | lia | lia |].
  split; [apply Hstack | apply Hconcat]; by vm_compute.
Defined.

Lemma concat_on_dim1_joins_runs_witness :
  ∃ newOps,
    XeTile.concat_on_dim1 sample_unpack [1; 4]%Z [1; 2]%Z [1; 4]%Z
      [sample_vector 0 8 8; sample_vector 1 8 8;
       sample_vector 2 8 8; sample_vector 3 8 8]
    = Ok (XeTile.replaceOp newOps) ∧
    length newOps = 2%nat.
Proof.
  destruct (concat_on_dim1_joins_runs sample_unpack [1; 4]%Z [1; 2]%Z 1 4 4 2
              [sample_vector 0 8 8; sample_vector 1 8 8;
               sample_vector 2 8 8; sample_vector 3 8 8] 1 8 8 16)
    as (newOps & Hrun & Hlen & _);
    [done | done | done | by vm_compute | lia | done | by vm_compute | by vm_compute
    | simpl; lia | by repeat constructor | lia | lia | by vm_compute | by vm_compute |].
  by exists newOps.
Defined.

Lemma stack_on_dim0_adds_values_witness :
  ∃ early proper,
    XeTile.stack_on_dim0 [4; 2]%Z [2; 2]%Z
      [sample_vector 0 8 16; sample_vector 1 8 16; sample_vector 2 8 16;
       sample_vector 3 8 16; sample_vector 4 8 16; sample_vector 5 8 16;
       sample_vector 6 8 16; sample_vector 7 8 16]
    = Ok (early ++ proper) ∧
    length early = 2%nat ∧ length proper = 4%nat.
Proof.
  destruct (stack_on_dim0_adds_values [4; 2]%Z [2; 2]%Z
              [sample_vector 0 8 16; sample_vector 1 8 16; sample_vector 2 8 16;
               sample_vector 3 8 16; sample_vector 4 8 16; sample_vector 5 8 16;
               sample_vector 6 8 16; sample_vector 7 8 16] 2 2 1 8 16 16)
    as (early & proper & Hrun & Hearly & Hproper & _);
    [done | done | done | lia | by vm_compute | by vm_compute | done
    | by repeat constructor | lia | by vm_compute |].
  exists early, proper. split_and!; [done | lia | lia].
Defined.

Lemma extract_on_dim0_fills_grid_witness :
  ∃ intermediates,
    XeTile.extract_on_dim0 sample_unpack [1; 2]%Z [2; 4]%Z 8
      [sample_vector 0 16 16; sample_vector 1 16 16] = Ok intermediates ∧
    intermediates !! 3%nat
    = Some (XeTile.ExtractStridedSliceOp (sample_vector 1 16 16)
              [8; 0]%Z [8; 16]%Z [1; 1]%Z).
Proof.
  destruct (extract_on_dim0_fills_grid sample_unpack [1; 2]%Z [2; 4]%Z 8
              [sample_vector 0 16 16; sample_vector 1 16 16] 1 2 2 16 8 16)
    as (intermediates & Hrun & _ & Hat);
    [done | done | done | done | done | by vm_compute | by vm_compute | by vm_compute
    | by vm_compute | lia | by vm_compute | done |].
  exists intermediates. split; [done |]. apply (Hat 1 1)%Z; lia.
Defined.

Lemma vnni_blocks_fail_the_stack_witness :
  ∃ values,
    XeTile.SgLoadTileOpPattern sample_load_tile
      [XeTile.Operand 0 (XeTile.TensorDescTy sample_tdesc);
       XeTile.Operand 1 (XeTile.TensorDescTy sample_tdesc)]
    = Ok (XeTile.replaceOp values) ∧
    XeTile.stack_on_dim0 [4; 1]%Z [2; 1]%Z values = AssertionFailed 48.
Proof.
  destruct (vnni_blocks_fail_the_stack sample_load_tile
              [XeTile.Operand 0 (XeTile.TensorDescTy sample_tdesc);
               XeTile.Operand 1 (XeTile.TensorDescTy sample_tdesc)]
              sample_tdesc 8 16)
    as (values & Hrun & Hfail);
    [by eexists | done | by repeat constructor | done | by vm_compute
    | by vm_compute | done | done | by vm_compute |].
  exists values. split; [done |].
  apply (Hfail [4; 1]%Z [2; 1]%Z 1 2 0%nat)%Z;
    [done | done | done | lia | by vm_compute | by vm_compute |].
  vm_compute in Hrun. injection Hrun as <-. done.
Defined.

Lemma unpack_pack_cuts_blocks_witness :
  ∃ newOps,
    XeTile.SgTileUnpackPackOpPattern sample_unpack
      [sample_vector 0 16 16; sample_vector 1 16 16]
    = Ok (XeTile.replaceOp newOps) ∧
    length newOps = 8%nat ∧
    newOps !! 7%nat
    = Some (XeTile.ExtractStridedSliceOp
              (XeTile.ExtractStridedSliceOp (sample_vector 1 16 16)
                 [8; 0]%Z [8; 16]%Z [1; 1]%Z)
              [0; 8]%Z [8; 8]%Z [1; 1]%Z).
Proof.
  destruct (unpack_pack_cuts_blocks sample_unpack
              [sample_vector 0 16 16; sample_vector 1 16 16]
              [2; 4; 8; 8]%Z [8; 8]%Z 1 2 2 2 16 16 8 8)
    as (newOps & Hrun & Hlen & Hat);
    [done | done | done | done | done | done | lia | lia | lia | by vm_compute | lia
    | by vm_compute | lia | by vm_compute | by vm_compute | by vm_compute | done |].
  exists newOps. split_and!; [done | lia |]. apply (Hat 1 3)%Z; lia.
Defined.
